(** * moln: a bencode codec on a rule-driven lexer

    A shallow embedding of [moln.lexer] (position tracking, lexical rules,
    the lexer loop), [moln.bencode.tokens] (the bencode rule set and the
    grammar written with funcparserlib combinators), [moln.bencode]
    ([decode_bytes], [encode_bytes]) and the tokenizer of [moln.lexr],
    followed by the properties of the codec.

    Conventions.  A Python [bytes] object is a list of byte values, each a
    [Z] in 0..255; a Python [int] is a [Z]; a [(line, character)] tuple is a
    pair of [Z].  A call that may raise returns an [outcome]. *)

From Stdlib Require Import ZArith List String Ascii Bool Lia.
Import ListNotations.

Open Scope Z_scope.

(** ** Python values, exceptions and built-ins *)

Abbreviation byte := Z (only parsing).
Abbreviation bytes := (list Z) (only parsing).

(** A bytes literal: [lit "i0e"] is [b'i0e']. *)
Definition lit (s : string) : bytes :=
  map (fun c => Z.of_N (N_of_ascii c)) (list_ascii_of_string s).

Abbreviation position := (Z * Z)%type (only parsing).

(** The exceptions the three modules can raise.  [SyntaxError] is the
    subclass of [LexerError] of [moln.lexer]; [DecodeError] and [EncodeError]
    are those of [moln.bencode]; [NoParseError] is funcparserlib's; the
    others are Python's own. *)
Inductive exn : Type :=
| LexerError
| SyntaxError (pos : position) (unexpected : byte)
| DecodeError (cause : exn)
| EncodeError (type_name : string)
| NoParseError
| TypeError (unhashable : string)
| ValueError
| UnicodeEncodeError.

(** [isinstance(exc, LexerError)]. *)
Definition is_LexerError (e : exn) : bool :=
  match e with
  | LexerError | SyntaxError _ _ => true
  | _ => false
  end.

(** The result of a call: a value, a raised exception, or no result at all
    (a loop that Python would never leave). *)
Inductive outcome (A : Type) : Type :=
| Ok (a : A)
| Raise (e : exn)
| Diverge.

Arguments Ok {A} a.
Arguments Raise {A} e.
Arguments Diverge {A}.

Definition bind {A B : Type} (o : outcome A) (k : A -> outcome B) : outcome B :=
  match o with
  | Ok a => k a
  | Raise e => Raise e
  | Diverge => Diverge
  end.

Notation "x <- o ;; k" := (bind o (fun x => k))
  (at level 61, o at next level, right associativity).

(** [len(x)]. *)
Definition len {A : Type} (l : list A) : Z := Z.of_nat (List.length l).

(** [x.count(bytes([c]))]. *)
Fixpoint count (c : byte) (l : bytes) : Z :=
  match l with
  | [] => 0
  | x :: l' => (if x =? c then 1 else 0) + count c l'
  end.

(** [x.rfind(bytes([c]))]: the index of the last [c], or -1. *)
Fixpoint rfind (c : byte) (l : bytes) : Z :=
  match l with
  | [] => -1
  | x :: l' =>
      let r := rfind c l' in
      if 0 <=? r then r + 1 else if x =? c then 0 else -1
  end.

(** [x[i:j]] for [0 <= i]. *)
Definition slice {A : Type} (l : list A) (i j : nat) : list A :=
  firstn (j - i) (skipn i l).

Definition newline : byte := 10.

(** ** moln.lexer: position tracking *)

Definition get_new_position (source_delta : bytes) (start_position : position)
  : position :=
  let '(start_line, start_character) := start_position in
  let new_lines := count newline source_delta in
  let end_line := start_line + new_lines in
  let end_character := start_character + len source_delta in
  let end_character :=
    if 0 <? new_lines
    then len source_delta - rfind newline source_delta - 1
    else end_character in
  (end_line, end_character).


(** ** Python built-ins used by the codec *)

Definition is_digit (c : byte) : bool := (48 <=? c) && (c <=? 57).

(** The value of a span of ASCII decimal digits, most significant first. *)
Definition decimal_value (x : bytes) : Z :=
  fold_left (fun acc c => 10 * acc + (c - 48)) x 0.

(** [int(x)] for a bytes object [x] holding a decimal literal without sign,
    blanks or underscores, the only literals the lexical rules let through;
    anything else is reported as [ValueError].  The interpreter's limit on
    the digits that [int()] converts (4300 by default, [ValueError] beyond)
    is left out: a longer literal has its value here. *)
Definition py_int (x : bytes) : outcome Z :=
  match x with
  | [] => Raise ValueError
  | _ :: _ =>
      if forallb is_digit x then Ok (decimal_value x) else Raise ValueError
  end.

(** The decimal digits of [n >= 0], pushed in front of [acc]. *)
Fixpoint digits_aux (fuel : nat) (n : Z) (acc : bytes) : bytes :=
  match fuel with
  | O => acc
  | S fuel' =>
      let acc' := (48 + n mod 10) :: acc in
      if n <? 10 then acc' else digits_aux fuel' (n / 10) acc'
  end.

Definition str_nonneg (n : Z) : bytes :=
  digits_aux (S (Z.to_nat (Z.log2 n))) n [].

(** [str(n).encode()]. *)
Definition str_int (n : Z) : bytes :=
  if n <? 0 then 45 :: str_nonneg (- n) else str_nonneg n.

(** [bytes(n)] for an int [n]: [n] zero bytes, [ValueError] ("negative
    count") below zero.  The address-space limit on [n] is left out: Python
    raises [OverflowError] for an [n] that is no index (from 2**63 on, and
    below -2**63), and [MemoryError] where it cannot allocate [n] bytes. *)
Definition bytes_of_int (n : Z) : outcome bytes :=
  if n <? 0 then Raise ValueError else Ok (repeat 0 (Z.to_nat n)).

(** [s.encode('utf8')] for a str given by its code points (each in
    [range(0x110000)]); a lone surrogate cannot be encoded. *)
Definition encode_utf8_char (c : Z) : outcome bytes :=
  if c <? 0x80 then Ok [c]
  else if c <? 0x800 then
    Ok [Z.lor 0xC0 (Z.shiftr c 6); Z.lor 0x80 (Z.land c 0x3F)]
  else if (0xD800 <=? c) && (c <=? 0xDFFF) then Raise UnicodeEncodeError
  else if c <? 0x10000 then
    Ok [Z.lor 0xE0 (Z.shiftr c 12);
        Z.lor 0x80 (Z.land (Z.shiftr c 6) 0x3F);
        Z.lor 0x80 (Z.land c 0x3F)]
  else
    Ok [Z.lor 0xF0 (Z.shiftr c 18);
        Z.lor 0x80 (Z.land (Z.shiftr c 12) 0x3F);
        Z.lor 0x80 (Z.land (Z.shiftr c 6) 0x3F);
        Z.lor 0x80 (Z.land c 0x3F)].

Fixpoint encode_utf8 (s : list Z) : outcome bytes :=
  match s with
  | [] => Ok []
  | c :: s' =>
      x <- encode_utf8_char c ;;
      r <- encode_utf8 s' ;;
      Ok (x ++ r)
  end.

(** A str literal of ASCII characters. *)
Definition text (s : string) : list Z := lit s.

(** Python objects: the kinds [encode_bytes] tests for with [isinstance],
    [None], and any other object, of which only the type name is kept.  A
    str is its code points, a dict its entries in insertion order. *)
#[warnings="-register-all"]
Inductive object : Type :=
| PyInt (i : Z)
| PyBytes (b : bytes)
| PyStr (s : list Z)
| PyList (items : list object)
| PyDict (entries : list (object * object))
| PyNone
| PyOther (type_name : string).

(** [type(x).__name__]. *)
Definition type_name_of (x : object) : string :=
  match x with
  | PyInt _ => "int"
  | PyBytes _ => "bytes"
  | PyStr _ => "str"
  | PyList _ => "list"
  | PyDict _ => "dict"
  | PyNone => "NoneType"
  | PyOther t => t
  end.

(** [x == y] between two bytes objects. *)
Fixpoint bytes_eqb (x y : bytes) : bool :=
  match x, y with
  | [], [] => true
  | c :: x', d :: y' => (c =? d) && bytes_eqb x' y'
  | _, _ => false
  end.

(** Lists and dicts have no hash. *)
Definition hashable (k : object) : bool :=
  match k with
  | PyList _ | PyDict _ => false
  | _ => true
  end.

(** [k1 == k2] between two dict keys. *)
Definition key_eqb (k1 k2 : object) : bool :=
  match k1, k2 with
  | PyInt a, PyInt b => a =? b
  | PyBytes a, PyBytes b => bytes_eqb a b
  | PyStr a, PyStr b => bytes_eqb a b
  | PyNone, PyNone => true
  | _, _ => false
  end.

(** [d[k] = v] on the entries of a dict: an existing key keeps its place and
    takes the new value, a new key goes last. *)
Fixpoint dict_setitem (d : list (object * object)) (k v : object)
  : list (object * object) :=
  match d with
  | [] => [(k, v)]
  | (k', v') :: d' =>
      if key_eqb k' k then (k', v) :: d' else (k', v') :: dict_setitem d' k v
  end.

Fixpoint dict_update (d pairs : list (object * object))
  : outcome (list (object * object)) :=
  match pairs with
  | [] => Ok d
  | (k, v) :: pairs' =>
      if hashable k then dict_update (dict_setitem d k v) pairs'
      else Raise (TypeError (type_name_of k))
  end.

(** [dict(pairs)] for a list of 2-tuples. *)
Definition py_dict (pairs : list (object * object))
  : outcome (list (object * object)) :=
  dict_update [] pairs.

(** ** Regular expressions ([re]) *)

(** The fragment of [re] syntax the rules are written in.  Repetition is
    only ever applied to a single-byte class. *)
Inductive regex : Type :=
| Chr (c : byte)
| Cls (p : byte -> bool)
| Cat (r1 r2 : regex)
| Alt (r1 r2 : regex)
| Star (p : byte -> bool)
| Group (r : regex).

Record Match : Type := mkMatch { group0 : bytes; groups : list bytes }.

(** What was consumed between the input [s] and its suffix [s1]. *)
Definition consumed (s s1 : bytes) : bytes :=
  firstn (List.length s - List.length s1) s.

(** Greedy repetition with backtracking: as many bytes as possible, giving
    one back at a time while what follows does not match. *)
Fixpoint star_run {A : Type} (p : byte -> bool) (s : bytes)
  (k : bytes -> option A) : option A :=
  match s with
  | c :: s' =>
      if p c then
        match star_run p s' k with
        | Some x => Some x
        | None => k s
        end
      else k s
  | [] => k []
  end.

(** The backtracking matcher: [k] is what remains to be matched after [r],
    applied to the rest of the input and the groups captured so far; the
    alternatives are tried left to right. *)
Fixpoint re_run {A : Type} (r : regex) (s : bytes) (g : list bytes)
  (k : bytes -> list bytes -> option A) : option A :=
  match r with
  | Chr c =>
      match s with
      | x :: s' => if x =? c then k s' g else None
      | [] => None
      end
  | Cls p =>
      match s with
      | x :: s' => if p x then k s' g else None
      | [] => None
      end
  | Cat r1 r2 => re_run r1 s g (fun s1 g1 => re_run r2 s1 g1 k)
  | Alt r1 r2 =>
      match re_run r1 s g k with
      | Some x => Some x
      | None => re_run r2 s g k
      end
  | Star p => star_run p s (fun s1 => k s1 g)
  | Group r1 => re_run r1 s g (fun s1 g1 => k s1 (g1 ++ [consumed s s1]))
  end.

(** [pattern.match(source, pos)] is [re_match pattern (skipn pos source)]:
    none of the patterns looks behind [pos]. *)
Definition re_match (r : regex) (s : bytes) : option Match :=
  re_run r s [] (fun s1 g => Some (mkMatch (consumed s s1) g)).

(** [pattern.sub(repl, s)] for a pattern that starts with [^] and cannot
    match the empty span: only a match at offset 0 is replaced. *)
Definition re_sub_at_start (r : regex) (repl s : bytes) : bytes :=
  match re_match r s with
  | Some m => repl ++ skipn (List.length (group0 m)) s
  | None => s
  end.

Definition nonzero_digit (c : byte) : bool := (49 <=? c) && (c <=? 57).
Definition one_of (cs : bytes) (c : byte) : bool := existsb (Z.eqb c) cs.

(** ** moln.lexer: tokens, rules and the lexer *)

(** A "Token Mode" instance of [Token].  The tokens the lexer emits carry
    their positions; the ones the grammar writes down to compare against
    ([Token('End', b'e')]) leave them at [None]. *)
Record Token : Type := mkToken {
  name : string;
  value : bytes;
  start : option position;
  end_ : option position
}.

(** [Token.__eq__] in "Token Mode". *)
Definition Token_eq (self other : Token) : bool :=
  String.eqb (name self) (name other) && bytes_eqb (value self) (value other).

(** A "Spec Mode" instance: [Token(name, regex=...)], or the byte-string
    rule [StringToken(name, is_spec=True)].  The check that [match_spec] is
    called on a spec instance holds by construction. *)
Inductive Spec : Type :=
| TokenSpec (name : string) (regex : regex)
| StringTokenSpec (name : string).

(** [StringToken.preamble_re]: a group holding a digit 1-9 and any number
    of digits 0-9, then a colon. *)
Definition preamble_re : regex :=
  Cat (Group (Cat (Cls nonzero_digit) (Star is_digit))) (Chr 58).

(** [Token.match_spec] and [StringToken.match_spec]; [None] when the rule
    does not match at [start_index]. *)
Definition match_spec (self : Spec) (source : bytes) (start_index : nat)
  (start_position : position) : outcome (option Token) :=
  match self with
  | TokenSpec name regex =>
      match re_match regex (skipn start_index source) with
      | Some m =>
          let value := group0 m in
          Ok (Some (mkToken name value (Some start_position)
                      (Some (get_new_position value start_position))))
      | None => Ok None
      end
  | StringTokenSpec name =>
      match re_match preamble_re (skipn start_index source) with
      | Some m =>
          str_length <- py_int (nth 0 (groups m) []) ;;
          let preamble_length := List.length (group0 m) in
          let str_last :=
            (start_index + preamble_length + Z.to_nat str_length)%nat in
          let value := slice source start_index str_last in
          Ok (Some (mkToken name value (Some start_position)
                      (Some (get_new_position value start_position))))
      | None => Ok None
      end
  end.

(** The inner function of [Lexer.__call__]: the first rule that matches
    wins; when none does, the byte at [current_index] is reported. *)
Fixpoint match_specs (specs : list Spec) (source : bytes)
  (current_index : nat) (current_position : position) : outcome Token :=
  match specs with
  | spec :: specs' =>
      token <- match_spec spec source current_index current_position ;;
      match token with
      | Some t => Ok t
      | None => match_specs specs' source current_index current_position
      end
  | [] => Raise (SyntaxError current_position (nth current_index source 0))
  end.

(** The [while] loop of [Lexer.__call__], with the tokens it yields
    collected in a list; [fuel] bounds the number of iterations.  The next
    position is [token.end], which [match_spec] always sets. *)
Fixpoint lexer_loop (fuel : nat) (specs : list Spec) (source : bytes)
  (current_index : nat) (current_position : position)
  : outcome (list Token) :=
  match fuel with
  | O => Diverge
  | S fuel' =>
      if (current_index <? List.length source)%nat then
        token <- match_specs specs source current_index current_position ;;
        rest <- lexer_loop fuel' specs source
                  (current_index + List.length (value token))%nat
                  (match end_ token with
                   | Some p => p
                   | None => current_position
                   end) ;;
        Ok (token :: rest)
      else Ok []
  end.

(** The list of the tokens that [Lexer.__call__] yields on [source].  A loop
    that has not left after [len(source)] tokens has emitted an empty token,
    and then stays where it is for ever. *)
Definition Lexer (specs : list Spec) (source : bytes) : outcome (list Token) :=
  lexer_loop (S (List.length source)) specs source 0%nat (0, 0).

(** ** funcparserlib: the combinators the grammar uses *)

(** A parser takes the tokens that remain and returns a value with the
    tokens left over, or raises; [NoParseError] is the failure that [alt]
    and [many] recover from. *)
Definition Parser (A : Type) : Type := list Token -> outcome (A * list Token).

(** [some(pred)]. *)
Definition some (pred : Token -> bool) : Parser Token :=
  fun tokens =>
    match tokens with
    | t :: rest => if pred t then Ok (t, rest) else Raise NoParseError
    | [] => Raise NoParseError
    end.

(** [a(value)]. *)
Definition a (value : Token) : Parser Token :=
  some (fun t => Token_eq t value).

(** [finished]. *)
Definition finished : Parser unit :=
  fun tokens =>
    match tokens with
    | [] => Ok (tt, [])
    | _ :: _ => Raise NoParseError
    end.

(** [p >> f]; [f] may raise. *)
Definition apply {A B : Type} (p : Parser A) (f : A -> outcome B) : Parser B :=
  fun tokens =>
    r <- p tokens ;;
    v <- f (fst r) ;;
    Ok (v, snd r).

(** [p + q]: the pair of both results. *)
Definition seq {A B : Type} (p : Parser A) (q : Parser B) : Parser (A * B) :=
  fun tokens =>
    r1 <- p tokens ;;
    r2 <- q (snd r1) ;;
    Ok ((fst r1, fst r2), snd r2).

(** [skip(p) + q]: the result of [q] alone. *)
Definition skip_then {A B : Type} (p : Parser A) (q : Parser B) : Parser B :=
  fun tokens =>
    r1 <- p tokens ;;
    q (snd r1).

(** [p + skip(q)]: the result of [p] alone. *)
Definition then_skip {A B : Type} (p : Parser A) (q : Parser B) : Parser A :=
  fun tokens =>
    r1 <- p tokens ;;
    r2 <- q (snd r1) ;;
    Ok (fst r1, snd r2).

(** [p | q]: [q] on the same tokens when [p] raises [NoParseError]. *)
Definition alt {A : Type} (p q : Parser A) : Parser A :=
  fun tokens =>
    match p tokens with
    | Raise NoParseError => q tokens
    | r => r
    end.

(** [many(p)]: [p] as long as it succeeds; the tokens of the attempt that
    raised [NoParseError] are given back.  [fuel] bounds the repetitions. *)
Fixpoint many {A : Type} (fuel : nat) (p : Parser A) : Parser (list A) :=
  fun tokens =>
    match fuel with
    | O => Diverge
    | S fuel' =>
        match p tokens with
        | Ok (v, rest) =>
            r <- many fuel' p rest ;;
            Ok (v :: fst r, snd r)
        | Raise NoParseError => Ok ([], tokens)
        | Raise e => Raise e
        | Diverge => Diverge
        end
    end.

(** [p.parse(tokens)]. *)
Definition parse {A : Type} (p : Parser A) (tokens : list Token) : outcome A :=
  r <- p tokens ;;
  Ok (fst r).

(** ** moln.bencode.tokens: the grammar and the rule set *)

Definition _to_int (token : bytes) : outcome object :=
  i <- py_int token ;;
  Ok (PyInt i).

(** [str_strip_re = re.compile(rb'^\d+:')], without its anchor. *)
Definition str_strip_re : regex :=
  Cat (Cls is_digit) (Cat (Star is_digit) (Chr 58)).

Definition _to_string (s : bytes) : outcome object :=
  Ok (PyBytes (re_sub_at_start str_strip_re [] s)).

Definition _to_list {A : Type} (_tokens : list A) : list A := _tokens.

Definition _to_dict (n : list (object * object)) : outcome object :=
  d <- py_dict (_to_list n) ;;
  Ok (PyDict d).

Definition token_value (x : Token) : outcome bytes := Ok (value x).

Definition token_type (t : string) : Parser bytes :=
  apply (some (fun x => String.eqb (name x) t)) token_value.

Definition type_decl (type_name : bytes) : Parser Token :=
  a (mkToken "Type" type_name None None).

Definition integer : Parser bytes := token_type "Number".

Definition end_decl : Parser Token := a (mkToken "End" (lit "e") None None).

Definition str_decl : Parser object :=
  apply (token_type "String") _to_string.

Definition dict_decl (fuel : nat) (value : Parser object) : Parser object :=
  apply
    (then_skip (skip_then (type_decl (lit "d")) (many fuel (seq value value)))
               end_decl)
    _to_dict.

Definition list_decl (fuel : nat) (value : Parser object) : Parser object :=
  apply
    (then_skip (skip_then (type_decl (lit "l")) (many fuel value)) end_decl)
    (fun items => Ok (PyList (_to_list items))).

Definition integer_decl : Parser object :=
  apply (then_skip (skip_then (type_decl (lit "i")) integer) end_decl) _to_int.

(** The forward-declared rule [value], tied by recursion on [fuel], which
    bounds the nesting depth and the repetitions of [many].  The
    interpreter's recursion limit is left out: a nesting so deep that Python
    raises [RecursionError] is parsed here. *)
Fixpoint Value (fuel : nat) : Parser object :=
  match fuel with
  | O => fun _ => Diverge
  | S fuel' =>
      alt integer_decl
        (alt (dict_decl fuel' (Value fuel'))
           (alt (list_decl fuel' (Value fuel')) str_decl))
  end.

Definition bencode_decl (fuel : nat) : Parser object :=
  then_skip (Value fuel) finished.

(** Each level of nesting and each repetition takes a token, so the number
    of tokens bounds both. *)
Definition decode_tokens (s : list Token) : outcome object :=
  parse (bencode_decl (S (List.length s))) s.

Definition number_re : regex :=
  Alt (Chr 48) (Cat (Cls nonzero_digit) (Star is_digit)).
Definition type_re : regex := Cls (one_of (lit "ild")).
Definition end_re : regex := Chr 101.

Definition bencode_specs : list Spec :=
  [ StringTokenSpec "String";
    TokenSpec "Number" number_re;
    TokenSpec "Type" type_re;
    TokenSpec "End" end_re ].

Definition tokenize (_bytes : bytes) : outcome (list Token) :=
  Lexer bencode_specs _bytes.

(** ** moln.bencode: the codec *)

Definition decode_bytes (_bytes : bytes) : outcome object :=
  match (tokens <- tokenize _bytes ;; decode_tokens tokens) with
  | Raise exc =>
      if is_LexerError exc then Raise (DecodeError exc) else Raise exc
  | r => r
  end.

Fixpoint encode_bytes (x : object) : outcome bytes :=
  match x with
  | PyBytes b => Ok (str_int (len b) ++ lit ":" ++ b)
  | PyStr s =>
      _bytes <- encode_utf8 s ;;
      Ok (str_int (len _bytes) ++ lit ":" ++ _bytes)
  | PyInt i =>
      zeros <- bytes_of_int i ;;
      Ok (lit "i" ++ zeros ++ lit "e")
  | PyList items =>
      body <- (fix join (l : list object) : outcome bytes :=
                 match l with
                 | [] => Ok []
                 | i :: l' =>
                     e <- encode_bytes i ;;
                     r <- join l' ;;
                     Ok (e ++ r)
                 end) items ;;
      Ok (lit "l" ++ body ++ lit "e")
  | PyDict entries =>
      body <- (fix join (l : list (object * object)) : outcome bytes :=
                 match l with
                 | [] => Ok []
                 | (k, v) :: l' =>
                     ek <- encode_bytes k ;;
                     ev <- encode_bytes v ;;
                     r <- join l' ;;
                     Ok (ek ++ ev ++ r)
                 end) entries ;;
      Ok (lit "d" ++ body ++ lit "e")
  | PyNone | PyOther _ => Raise (EncodeError (type_name_of x))
  end.

(** ** moln.lexr: the second tokenizer *)

(** The exceptions that leave [Tokenizer.__call__]: its own
    [LexrSyntaxError], and Python's [AttributeError] (for [token.end] on
    [None]) and [IndexError] (for [source[current_index]] behind the end of
    the source). *)
Inductive lexr_exn : Type :=
| LexrSyntaxError (pos : position) (unexpected : Z)
| AttributeError
| IndexError.

(** A "Spec Mode" instance of [moln.lexr.Token]: [Token(name, regex=...)].
    The source of this module is a str, taken as its code points. *)
Record LexrSpec : Type := mkLexrSpec {
  lexr_name : string;
  lexr_regex : regex
}.

(** [moln.lexr.Token.match_spec], which works out the end position
    itself. *)
Definition lexr_match_spec (self : LexrSpec) (source : list Z)
  (start_index : nat) (start_position : position) : option Token :=
  let '(start_line, start_character) := start_position in
  match re_match (lexr_regex self) (skipn start_index source) with
  | Some m =>
      let value := group0 m in
      let new_lines := count newline value in
      let end_line := start_line + new_lines in
      let end_character := start_character + len value in
      let end_character :=
        if 0 <? new_lines
        then len value - rfind newline value - 1
        else end_character in
      Some (mkToken (lexr_name self) value (Some start_position)
              (Some (end_line, end_character)))
  | None => None
  end.

(** The [for] loop of [Tokenizer.__call__]: every rule in turn, each at the
    offset where the match of the rule before it ended, with no [break];
    the tokens it yields, and the exception that ends it: from [token.end]
    when a rule has not matched, else from the [else] branch of the loop. *)
Fixpoint Tokenizer_for (specs : list LexrSpec) (source : list Z)
  (current_index : nat) (current_position : position)
  : list Token * lexr_exn :=
  match specs with
  | spec :: specs' =>
      match lexr_match_spec spec source current_index current_position with
      | Some token =>
          let r := Tokenizer_for specs' source
                     (current_index + List.length (value token))%nat
                     (match end_ token with
                      | Some p => p
                      | None => current_position
                      end) in
          (token :: fst r, snd r)
      | None => ([], AttributeError)
      end
  | [] =>
      ([], if (current_index <? List.length source)%nat
           then LexrSyntaxError current_position (nth current_index source 0)
           else IndexError)
  end.

(** [Tokenizer.__call__] run to its end: the tokens it yields and the
    exception that ends it, [None] for a normal end.  The body of the
    [while] loop always raises, so it runs at most once. *)
Definition Tokenizer (specs : list LexrSpec) (source : list Z)
  : list Token * option lexr_exn :=
  if (0 <? List.length source)%nat then
    let r := Tokenizer_for specs source 0%nat (0, 0) in
    (fst r, Some (snd r))
  else ([], None).

(** ** Vocabulary of the statements *)

(** A bencode Value: an Integer, a ByteString, a List of Values, or a
    Dictionary from pairwise distinct ByteString keys to Values. *)
#[warnings="-register-all"]
Inductive is_Value : object -> Prop :=
| Value_Integer (i : Z) : is_Value (PyInt i)
| Value_ByteString (b : bytes) : is_Value (PyBytes b)
| Value_List (items : list object) :
    Forall is_Value items -> is_Value (PyList items)
| Value_Dictionary (entries : list (object * object)) :
    Forall (fun kv => (exists b, fst kv = PyBytes b) /\ is_Value (snd kv))
      entries ->
    NoDup (map fst entries) ->
    is_Value (PyDict entries).

(** The four variants, as [encode_bytes] tells them by [isinstance]. *)
Definition is_variant (x : object) : bool :=
  match x with
  | PyInt _ | PyBytes _ | PyList _ | PyDict _ => true
  | _ => false
  end.

(** [decode(encode(v))]. *)
Definition roundtrip (v : object) : outcome object :=
  encoded <- encode_bytes v ;;
  decode_bytes encoded.

(** The longest prefix of bytes in a class, and what follows it. *)
Fixpoint takewhile (p : byte -> bool) (s : bytes) : bytes :=
  match s with
  | c :: s' => if p c then c :: takewhile p s' else []
  | [] => []
  end.

Fixpoint dropwhile (p : byte -> bool) (s : bytes) : bytes :=
  match s with
  | c :: s' => if p c then dropwhile p s' else s
  | [] => []
  end.

(** A Number token holds a decimal literal. *)
Definition literal_ok (t : Token) : Prop :=
  name t = "Number"%string ->
  value t <> [] /\ forallb is_digit (value t) = true.

(** What the lexer needs of a token to go on: at least one byte. *)
Definition sound_token (t : Token) : Prop := value t <> [] /\ literal_ok t.

(** The failures of the grammar: no parse, or a key without a hash. *)
Definition grammar_failure (e : exn) : Prop :=
  e = NoParseError \/ exists t, e = TypeError t.

(** A parser outcome on [tokens] that is a result with fewer tokens left
    over, or a failure of the grammar. *)
Definition advances {A : Type} (tokens : list Token)
  (o : outcome (A * list Token)) : Prop :=
  match o with
  | Ok (_, rest) =>
      (List.length rest < List.length tokens)%nat /\ Forall literal_ok rest
  | Raise e => grammar_failure e
  | Diverge => False
  end.

(** The same, where the parser may have taken no token. *)
Definition settles {A : Type} (tokens : list Token)
  (o : outcome (A * list Token)) : Prop :=
  match o with
  | Ok (_, rest) =>
      (List.length rest <= List.length tokens)%nat /\ Forall literal_ok rest
  | Raise e => grammar_failure e
  | Diverge => False
  end.

(** Each token starts where the one before it ended, the first at [pos]. *)
Fixpoint chained (pos : position) (tokens : list Token) : Prop :=
  match tokens with
  | [] => True
  | t :: rest =>
      start t = Some pos /\
      exists pos', end_ t = Some pos' /\ chained pos' rest
  end.

(** The token the lexer emits for the span [v] under the rule [n] at
    position [pos]. *)
Definition token_at (pos : position) (n : string) (v : bytes) : Token :=
  mkToken n v (Some pos) (Some (get_new_position v pos)).

(** The tokens for a sequence of rule names and spans, laid out from
    [pos] on, and the position after them. *)
Fixpoint tokens_at (pos : position) (l : list (string * bytes)) : list Token :=
  match l with
  | [] => []
  | (n, v) :: l' => token_at pos n v :: tokens_at (get_new_position v pos) l'
  end.

Fixpoint endpos (pos : position) (l : list (string * bytes)) : position :=
  match l with
  | [] => pos
  | (n, v) :: l' => endpos (get_new_position v pos) l'
  end.

(** The span [bs], wherever it stands in a source, is lexed into the tokens
    [sp], after which the loop goes on behind it. *)
Definition lexes_to (bs : bytes) (sp : list (string * bytes)) : Prop :=
  forall (source : bytes) i (rest : bytes) fuel pos,
    skipn i source = bs ++ rest ->
    lexer_loop (List.length sp + fuel) bencode_specs source i pos =
    (r <- lexer_loop fuel bencode_specs source (i + List.length bs)
            (endpos pos sp) ;;
     Ok (tokens_at pos sp ++ r)).

(** The tokens [sp], whatever follows them, are parsed by the rule [Value]
    into the object [v]. *)
Definition parses_to (sp : list (string * bytes)) (v : object) : Prop :=
  forall fuel pos rest,
    (List.length sp < fuel)%nat ->
    Value fuel (tokens_at pos sp ++ rest) = Ok (v, rest).

(** The concrete syntax of bencode: what a buffer spells out, before any
    dictionary is built.  A dictionary is its pairs as written, so a key may
    be of any kind and may occur twice. *)
#[warnings="-register-all"]
Inductive syntax : Type :=
| SInt (n : Z)
| SStr (b : bytes)
| SList (items : list syntax)
| SDict (pairs : list (syntax * syntax)).

(** The buffer that spells [s]. *)
Fixpoint render (s : syntax) : bytes :=
  match s with
  | SInt n => lit "i" ++ str_int n ++ lit "e"
  | SStr b => str_int (len b) ++ lit ":" ++ b
  | SList items => lit "l" ++ flat_map render items ++ lit "e"
  | SDict pairs =>
      lit "d"
      ++ flat_map (fun kv => let '(k, v) := kv in render k ++ render v) pairs
      ++ lit "e"
  end.

(** The rule names and spans of the tokens of [render s]. *)
Fixpoint spell (s : syntax) : list (string * bytes) :=
  match s with
  | SInt n =>
      [("Type"%string, lit "i"); ("Number"%string, str_int n);
       ("End"%string, lit "e")]
  | SStr b => [("String"%string, str_int (len b) ++ lit ":" ++ b)]
  | SList items =>
      ("Type"%string, lit "l") :: flat_map spell items
      ++ [("End"%string, lit "e")]
  | SDict pairs =>
      ("Type"%string, lit "d")
      :: flat_map (fun kv => let '(k, v) := kv in spell k ++ spell v) pairs
      ++ [("End"%string, lit "e")]
  end.

(** The entries of [dict(pairs)] when every key has a hash. *)
Definition dict_of (pairs : list (object * object)) : list (object * object) :=
  fold_left (fun d kv => dict_setitem d (fst kv) (snd kv)) pairs [].

(** The object that [s] stands for. *)
Fixpoint denote (s : syntax) : object :=
  match s with
  | SInt n => PyInt n
  | SStr b => PyBytes b
  | SList items => PyList (map denote items)
  | SDict pairs =>
      PyDict
        (dict_of (map (fun kv => let '(k, v) := kv in (denote k, denote v))
                    pairs))
  end.

Definition is_scalar (s : syntax) : bool :=
  match s with
  | SInt _ | SStr _ => true
  | _ => false
  end.

(** The syntax the rule set accepts: integers without sign, byte strings
    with at least one byte, and as dictionary keys integers and byte
    strings. *)
Fixpoint lexable (s : syntax) : bool :=
  match s with
  | SInt n => 0 <=? n
  | SStr b => match b with [] => false | _ :: _ => true end
  | SList items => forallb lexable items
  | SDict pairs =>
      forallb (fun kv => let '(k, v) := kv in
                         is_scalar k && lexable k && lexable v) pairs
  end.

(** [d.get(k)] on the entries of a dict. *)
Fixpoint lookup (k : object) (d : list (object * object)) : option object :=
  match d with
  | [] => None
  | (k', v) :: d' => if key_eqb k' k then Some v else lookup k d'
  end.

(** The objects that survive a round trip: byte strings with at least one
    byte, lists of such objects, and dicts from pairwise distinct such byte
    strings to such objects. *)
Fixpoint distinct_keys (d : list (object * object)) : bool :=
  match d with
  | [] => true
  | (k, _) :: d' =>
      match lookup k d' with
      | None => distinct_keys d'
      | Some _ => false
      end
  end.

Fixpoint survives (x : object) : bool :=
  match x with
  | PyBytes b => match b with [] => false | _ :: _ => true end
  | PyList items => forallb survives items
  | PyDict entries =>
      forallb (fun kv => let '(k, v) := kv in
                         match k with
                         | PyBytes (_ :: _) => survives v
                         | _ => false
                         end) entries
      && distinct_keys entries
  | _ => false
  end.

(** The syntax that [encode_bytes] spells for such an object. *)
Fixpoint to_syntax (x : object) : syntax :=
  match x with
  | PyInt i => SInt i
  | PyBytes b => SStr b
  | PyList items => SList (map to_syntax items)
  | PyDict entries =>
      SDict (map (fun kv => let '(k, v) := kv in (to_syntax k, to_syntax v))
               entries)
  | _ => SStr []
  end.

(** ** Vocabulary of the further properties *)

(** Every token sits at the position that the bytes before it lead to, and
    ends at the position that its own bytes lead to from there. *)
Fixpoint located (pos : position) (tokens : list Token) : Prop :=
  match tokens with
  | [] => True
  | t :: rest =>
      start t = Some pos /\
      end_ t = Some (get_new_position (value t) pos) /\
      located (get_new_position (value t) pos) rest
  end.

(** The bytes a bencode token can start with: a digit, or one of [i], [l],
    [d], [e]. *)
Definition token_start (c : byte) : bool :=
  is_digit c || one_of (lit "ilde") c.

(** A decimal literal as the rules read it: a single [0], or a digit 1-9
    followed by digits. *)
Definition canonical (v : bytes) : Prop :=
  v = lit "0" \/
  exists c ds, v = c :: ds /\ nonzero_digit c = true /\
               forallb is_digit ds = true.

(** What a token of the bencode rule set looks like.  A String token is a
    length above zero, a colon and a payload of at most that many bytes, the
    payload being what the grammar makes of the token. *)
Definition token_shape (t : Token) : Prop :=
  (name t = "String"%string /\
   exists c ds body,
     nonzero_digit c = true /\ forallb is_digit ds = true /\
     value t = (c :: ds) ++ lit ":" ++ body /\
     len body <= decimal_value (c :: ds) /\
     _to_string (value t) = Ok (PyBytes body)) \/
  (name t = "Number"%string /\ canonical (value t)) \/
  (name t = "Type"%string /\
   exists c, value t = [c] /\ one_of (lit "ild") c = true) \/
  (name t = "End"%string /\ value t = lit "e").

(** The code points that UTF-8 cannot encode. *)
Definition is_surrogate (c : Z) : bool := (0xD800 <=? c) && (c <=? 0xDFFF).

(** The objects the encoder has an encoding for: ints that are not
    negative, bytes, strs without a lone surrogate, and lists and dicts of
    such objects. *)
Fixpoint encodable (x : object) : bool :=
  match x with
  | PyInt i => 0 <=? i
  | PyBytes _ => true
  | PyStr s => forallb (fun c => negb (is_surrogate c)) s
  | PyList items => forallb encodable items
  | PyDict entries =>
      forallb (fun kv => let '(k, v) := kv in encodable k && encodable v)
        entries
  | _ => false
  end.

(** The failures of the encoder. *)
Definition encoder_failure (e : exn) : Prop :=
  e = ValueError \/ e = UnicodeEncodeError \/ exists t, e = EncodeError t.

(** How the second tokenizer ends after the tokens [tokens], with [rest]
    of the source left: by [AttributeError] at a rule that does not match
    there, or, all rules having matched, by [IndexError] at the end of the
    source or by [LexrSyntaxError] for the next byte. *)
Definition lexr_ending (specs : list LexrSpec) (source : list Z)
  (start : position) (start_index : nat)
  (tokens : list Token) (rest : list Z) (e : lexr_exn) : Prop :=
  let consumed := List.concat (map value tokens) in
  match e with
  | AttributeError =>
      exists spec,
        nth_error specs (List.length tokens) = Some spec /\
        lexr_match_spec spec source (start_index + List.length consumed)
          (get_new_position consumed start) = None
  | IndexError => List.length tokens = List.length specs /\ rest = []
  | LexrSyntaxError pos c =>
      List.length tokens = List.length specs /\
      pos = get_new_position consumed start /\
      exists rest', rest = c :: rest'
  end.

(** The objects the decoder can return: ints that are not negative,
    bytes, lists of such objects, and dicts of such objects whose keys are
    ints or bytes and pairwise distinct. *)
Fixpoint decoded (x : object) : bool :=
  match x with
  | PyInt i => 0 <=? i
  | PyBytes _ => true
  | PyList items => forallb decoded items
  | PyDict entries =>
      forallb (fun kv => let '(k, v) := kv in
                         hashable k && decoded k && decoded v) entries
      && distinct_keys entries
  | _ => false
  end.

(** The loop of [Lexer.__call__] watched until [current_index] is [target]:
    the tokens it has yielded by then and the position it stands at, or
    nothing when it ends or raises before it stands there. *)
Fixpoint lexer_upto (fuel : nat) (specs : list Spec) (source : bytes)
  (current_index : nat) (current_position : position) (target : nat)
  : option (list Token * position) :=
  match fuel with
  | O => None
  | S fuel' =>
      if (current_index =? target)%nat then Some ([], current_position)
      else if (current_index <? List.length source)%nat then
        match match_specs specs source current_index current_position with
        | Ok token =>
            match lexer_upto fuel' specs source
                    (current_index + List.length (value token))%nat
                    (match end_ token with
                     | Some p => p
                     | None => current_position
                     end) target with
            | Some (tokens, pos) => Some (token :: tokens, pos)
            | None => None
            end
        | _ => None
        end
      else None
  end.

(** The tokens that the rule [value] takes for one value: a single String
    token, or tokens of which the last is an End token. *)
Definition value_span (consumed : list Token) : Prop :=
  (exists t, consumed = [t] /\ name t = "String"%string) \/
  (exists front e, consumed = front ++ [e] /\ name e = "End"%string).

(** ** Position tracking: lemmas *)

Lemma len_app {A : Type} (a b : list A) : len (a ++ b) = len a + len b.
Proof. unfold len. rewrite List.length_app. lia. Qed.

Lemma len_nonneg {A : Type} (l : list A) : 0 <= len l.
Proof. unfold len. lia. Qed.

Lemma count_app c a b : count c (a ++ b) = count c a + count c b.
Proof. induction a as [|x a IH]; simpl; [reflexivity | rewrite IH; lia]. Qed.

Lemma count_nonneg c l : 0 <= count c l.
Proof. induction l as [|x l IH]; simpl; [lia | destruct (x =? c); lia]. Qed.

Lemma rfind_absent c l : count c l = 0 -> rfind c l = -1.
Proof.
  induction l as [|x l IH]; simpl; [reflexivity|]. intros H.
  pose proof (count_nonneg c l).
  destruct (x =? c); [lia|].
  rewrite IH by lia. reflexivity.
Qed.

Lemma rfind_present c l : 0 < count c l -> 0 <= rfind c l.
Proof.
  induction l as [|x l IH]; simpl; [lia|]. intros H.
  destruct (0 <=? rfind c l) eqn:E.
  - apply Z.leb_le in E. lia.
  - apply Z.leb_gt in E. destruct (x =? c); [lia|].
    specialize (IH ltac:(lia)). lia.
Qed.

Lemma rfind_app_right c a b :
  0 < count c b -> rfind c (a ++ b) = len a + rfind c b.
Proof.
  intros H. pose proof (rfind_present c b H) as Hb.
  induction a as [|x a IH]; cbn [app rfind].
  - reflexivity.
  - rewrite IH.
    assert (E : (0 <=? len a + rfind c b) = true)
      by (apply Z.leb_le; pose proof (len_nonneg a); lia).
    rewrite E. unfold len. cbn [List.length]. lia.
Qed.

Lemma rfind_app_left c a b :
  count c b = 0 -> rfind c (a ++ b) = rfind c a.
Proof.
  intros H. induction a as [|x a IH]; simpl.
  - apply rfind_absent, H.
  - rewrite IH. reflexivity.
Qed.

(** C8.  Position tracking composes over concatenation: advancing over [a]
    and then over [b] gives the position reached by advancing over
    [a ++ b], for every start position and all byte spans. *)
Theorem get_new_position_app (p : position) (a b : bytes) :
  get_new_position b (get_new_position a p) = get_new_position (a ++ b) p.
Proof.
  destruct p as [line character]. unfold get_new_position.
  rewrite count_app, len_app.
  pose proof (count_nonneg newline a) as Ha.
  pose proof (count_nonneg newline b) as Hb.
  destruct (0 <? count newline b) eqn:Eb.
  - apply Z.ltb_lt in Eb.
    assert (E : (0 <? count newline a + count newline b) = true)
      by (apply Z.ltb_lt; lia).
    rewrite E, (rfind_app_right _ a b Eb).
    f_equal; lia.
  - apply Z.ltb_ge in Eb. assert (Hb0 : count newline b = 0) by lia.
    rewrite (rfind_app_left _ a b Hb0), Hb0, !Z.add_0_r.
    destruct (0 <? count newline a); f_equal; lia.
Qed.

(** ** Decimal literals *)

Lemma is_digit_spec c : is_digit c = true <-> 48 <= c <= 57.
Proof. unfold is_digit. rewrite andb_true_iff, !Z.leb_le. tauto. Qed.

Lemma nonzero_digit_spec c : nonzero_digit c = true <-> 49 <= c <= 57.
Proof. unfold nonzero_digit. rewrite andb_true_iff, !Z.leb_le. tauto. Qed.

Lemma nonzero_is_digit c : nonzero_digit c = true -> is_digit c = true.
Proof. rewrite nonzero_digit_spec, is_digit_spec. lia. Qed.

Lemma decimal_value_snoc ds d :
  decimal_value (ds ++ [d]) = 10 * decimal_value ds + (d - 48).
Proof. unfold decimal_value. rewrite fold_left_app. reflexivity. Qed.

(** What [digits_aux] pushes: a non-empty run of digits that reads back as
    [n] and has no leading zero unless [n] is zero. *)
Lemma digits_aux_spec fuel : forall n acc,
  0 <= n < 2 ^ Z.of_nat fuel -> (0 < fuel)%nat ->
  exists c ds,
    digits_aux fuel n acc = (c :: ds) ++ acc /\
    forallb is_digit (c :: ds) = true /\
    (0 < n -> nonzero_digit c = true) /\
    (n = 0 -> c :: ds = [48]) /\
    decimal_value (c :: ds) = n.
Proof.
  induction fuel as [|fuel IH]; intros n acc Hn Hfuel.
  - lia.
  - cbn [digits_aux]. destruct (n <? 10) eqn:E.
    + apply Z.ltb_lt in E. exists (48 + n mod 10), [].
      rewrite Z.mod_small by lia.
      repeat split.
      * cbn [forallb]. rewrite andb_true_r. apply is_digit_spec. lia.
      * intros. apply nonzero_digit_spec. lia.
      * intros ->. reflexivity.
      * unfold decimal_value. cbn [fold_left]. lia.
    + apply Z.ltb_ge in E.
      assert (Hq : 0 <= n / 10 < 2 ^ Z.of_nat fuel).
      { split; [apply Z.div_pos; lia|].
        rewrite Nat2Z.inj_succ, Z.pow_succ_r in Hn by lia.
        apply Z.div_lt_upper_bound; lia. }
      assert (Hpos : 0 < n / 10) by (apply Z.div_str_pos; lia).
      assert (Hfuel' : (0 < fuel)%nat).
      { destruct fuel; [simpl in Hq; lia | lia]. }
      destruct (IH (n / 10) ((48 + n mod 10) :: acc) Hq Hfuel')
        as (c & ds & Heq & Hd & Hnz & _ & Hv).
      exists c, (ds ++ [48 + n mod 10]).
      pose proof (Z.mod_pos_bound n 10 ltac:(lia)) as Hm.
      repeat split.
      * rewrite Heq. simpl. rewrite <- app_assoc. reflexivity.
      * change (c :: ds ++ [48 + n mod 10]) with ((c :: ds) ++ [48 + n mod 10]).
        rewrite forallb_app, Hd. cbn [forallb andb]. rewrite andb_true_r.
        apply is_digit_spec. lia.
      * intros _. apply Hnz, Hpos.
      * intros ->. discriminate.
      * change (c :: ds ++ [48 + n mod 10]) with ((c :: ds) ++ [48 + n mod 10]).
        rewrite decimal_value_snoc, Hv.
        pose proof (Z.div_mod n 10 ltac:(lia)). lia.
Qed.

Lemma str_nonneg_spec n :
  0 <= n ->
  exists c ds,
    str_nonneg n = c :: ds /\
    forallb is_digit (c :: ds) = true /\
    (0 < n -> nonzero_digit c = true) /\
    (n = 0 -> c :: ds = [48]) /\
    decimal_value (c :: ds) = n.
Proof.
  intros Hn. unfold str_nonneg.
  destruct (digits_aux_spec (S (Z.to_nat (Z.log2 n))) n []) as (c & ds & H).
  - split; [assumption|].
    rewrite Nat2Z.inj_succ, Z2Nat.id by apply Z.log2_nonneg.
    destruct (Z.eq_dec n 0) as [->|]; [reflexivity|].
    apply Z.log2_spec. lia.
  - lia.
  - exists c, ds. rewrite app_nil_r in H. exact H.
Qed.

Lemma str_int_nonneg n : 0 <= n -> str_int n = str_nonneg n.
Proof.
  intros H. unfold str_int.
  destruct (n <? 0) eqn:E; [apply Z.ltb_lt in E; lia | reflexivity].
Qed.

Lemma py_int_str_int n : 0 <= n -> py_int (str_int n) = Ok n.
Proof.
  intros H. rewrite str_int_nonneg by assumption.
  destruct (str_nonneg_spec n H) as (c & ds & -> & Hd & _ & _ & Hv).
  unfold py_int. rewrite Hd, Hv. reflexivity.
Qed.

(** ** Regular expressions: what the patterns match *)

Lemma consumed_app (pre s1 : bytes) : consumed (pre ++ s1) s1 = pre.
Proof.
  unfold consumed. rewrite List.length_app, Nat.add_sub.
  rewrite <- (Nat.add_0_r (List.length pre)), firstn_app_2.
  cbn [firstn]. apply app_nil_r.
Qed.

Lemma takewhile_dropwhile p s : takewhile p s ++ dropwhile p s = s.
Proof.
  induction s as [|c s IH]; cbn [takewhile dropwhile]; [reflexivity|].
  destruct (p c); [cbn [app]; rewrite IH|]; reflexivity.
Qed.

Lemma forallb_takewhile p s : forallb p (takewhile p s) = true.
Proof.
  induction s as [|c s IH]; cbn [takewhile]; [reflexivity|].
  destruct (p c) eqn:E; [cbn [forallb]; rewrite E, IH|]; reflexivity.
Qed.

(** A run of bytes of the class followed by a byte outside it is the
    longest prefix in the class. *)
Lemma takewhile_run p ds x rest :
  forallb p ds = true -> p x = false ->
  takewhile p (ds ++ x :: rest) = ds /\
  dropwhile p (ds ++ x :: rest) = x :: rest.
Proof.
  intros Hds Hx. induction ds as [|d ds IH]; cbn [app takewhile dropwhile].
  - rewrite Hx. split; reflexivity.
  - cbn [forallb] in Hds. apply andb_true_iff in Hds as [Hd Hds].
    rewrite Hd. destruct (IH Hds) as [-> ->]. split; reflexivity.
Qed.

(** The repetition ends at the longest run when what follows cannot start
    with a byte of the class ... *)
Lemma star_run_greedy {A : Type} p s (k : bytes -> option A) :
  (forall c s', p c = true -> k (c :: s') = None) ->
  star_run p s k = k (dropwhile p s).
Proof.
  intros Hk. induction s as [|c s IH]; cbn [star_run dropwhile]; [reflexivity|].
  destruct (p c) eqn:E; [|reflexivity].
  rewrite IH. destruct (k (dropwhile p s)); [reflexivity|].
  apply Hk, E.
Qed.

(** ... and when what follows accepts whatever is left. *)
Lemma star_run_last {A : Type} p s (k : bytes -> option A) :
  (forall s', k s' <> None) ->
  star_run p s k = k (dropwhile p s).
Proof.
  intros Hk. induction s as [|c s IH]; cbn [star_run dropwhile]; [reflexivity|].
  destruct (p c) eqn:E; [|reflexivity].
  rewrite IH. destruct (k (dropwhile p s)) eqn:Ek; [reflexivity|].
  exfalso. exact (Hk _ Ek).
Qed.

Lemma consumed_takewhile p c s :
  consumed (c :: s) (dropwhile p s) = c :: takewhile p s.
Proof.
  rewrite <- (takewhile_dropwhile p s) at 1.
  change (c :: takewhile p s ++ dropwhile p s)
    with ((c :: takewhile p s) ++ dropwhile p s).
  apply consumed_app.
Qed.

Lemma consumed_takewhile_colon p c s x s2 :
  dropwhile p s = x :: s2 ->
  consumed (c :: s) s2 = c :: takewhile p s ++ [x].
Proof.
  intros H. rewrite <- (takewhile_dropwhile p s) at 1. rewrite H.
  change (c :: takewhile p s ++ x :: s2)
    with ((c :: takewhile p s) ++ [x] ++ s2).
  rewrite app_assoc. apply consumed_app.
Qed.

Lemma digit_not_colon c : is_digit c = true -> (c =? 58) = false.
Proof. rewrite is_digit_spec. intros H. apply Z.eqb_neq. lia. Qed.

(** [preamble_re] matches a decimal literal without leading zero that is
    followed by a colon; group 1 is the literal. *)
Lemma re_match_preamble s :
  re_match preamble_re s =
  match s with
  | c :: s' =>
      if nonzero_digit c then
        match dropwhile is_digit s' with
        | x :: _ =>
            if x =? 58
            then Some (mkMatch (c :: takewhile is_digit s' ++ [58])
                               [c :: takewhile is_digit s'])
            else None
        | [] => None
        end
      else None
  | [] => None
  end.
Proof.
  destruct s as [|c s']; [reflexivity|].
  unfold re_match, preamble_re. cbn [re_run].
  destruct (nonzero_digit c); [|reflexivity].
  rewrite star_run_greedy.
  - destruct (dropwhile is_digit s') as [|x s2] eqn:E; [reflexivity|].
    destruct (x =? 58) eqn:Ex; [|reflexivity].
    apply Z.eqb_eq in Ex. subst x.
    rewrite <- E at 1. rewrite consumed_takewhile.
    rewrite (consumed_takewhile_colon is_digit c s' 58 s2 E).
    reflexivity.
  - intros d s1 Hd. rewrite (digit_not_colon d Hd). reflexivity.
Qed.

(** [str_strip_re] matches a run of digits followed by a colon. *)
Lemma re_match_str_strip s :
  re_match str_strip_re s =
  match s with
  | c :: s' =>
      if is_digit c then
        match dropwhile is_digit s' with
        | x :: _ =>
            if x =? 58
            then Some (mkMatch (c :: takewhile is_digit s' ++ [58]) [])
            else None
        | [] => None
        end
      else None
  | [] => None
  end.
Proof.
  destruct s as [|c s']; [reflexivity|].
  unfold re_match, str_strip_re. cbn [re_run].
  destruct (is_digit c); [|reflexivity].
  rewrite star_run_greedy.
  - destruct (dropwhile is_digit s') as [|x s2] eqn:E; [reflexivity|].
    destruct (x =? 58) eqn:Ex; [|reflexivity].
    apply Z.eqb_eq in Ex. subst x.
    rewrite (consumed_takewhile_colon is_digit c s' 58 s2 E).
    reflexivity.
  - intros d s1 Hd. rewrite (digit_not_colon d Hd). reflexivity.
Qed.

(** [number_re] matches a single 0, or a digit 1-9 with all the digits
    that follow it. *)
Lemma re_match_number s :
  re_match number_re s =
  match s with
  | c :: s' =>
      if c =? 48 then Some (mkMatch [48] [])
      else if nonzero_digit c
           then Some (mkMatch (c :: takewhile is_digit s') [])
           else None
  | [] => None
  end.
Proof.
  destruct s as [|c s']; [reflexivity|].
  unfold re_match, number_re. cbn [re_run].
  destruct (c =? 48) eqn:E0.
  - apply Z.eqb_eq in E0. subst c.
    change (48 :: s') with ([48] ++ s'). rewrite consumed_app. reflexivity.
  - destruct (nonzero_digit c); [|reflexivity].
    rewrite star_run_last by discriminate.
    rewrite consumed_takewhile. reflexivity.
Qed.

Lemma re_match_class p s :
  re_match (Cls p) s =
  match s with
  | c :: _ => if p c then Some (mkMatch [c] []) else None
  | [] => None
  end.
Proof.
  destruct s as [|c s']; [reflexivity|].
  unfold re_match. cbn [re_run]. destruct (p c); [|reflexivity].
  change (c :: s') with ([c] ++ s'). rewrite consumed_app. reflexivity.
Qed.

Lemma re_match_chr c0 s :
  re_match (Chr c0) s =
  match s with
  | c :: _ => if c =? c0 then Some (mkMatch [c] []) else None
  | [] => None
  end.
Proof.
  destruct s as [|c s']; [reflexivity|].
  unfold re_match. cbn [re_run]. destruct (c =? c0); [|reflexivity].
  change (c :: s') with ([c] ++ s'). rewrite consumed_app. reflexivity.
Qed.
(** ** The lexer: every token is a span of the source *)

Lemma star_run_continues {A : Type} p s (k : bytes -> option A) x :
  star_run p s k = Some x -> exists s1, k s1 = Some x.
Proof.
  induction s as [|c s IH]; cbn [star_run]; intros H.
  - eauto.
  - destruct (p c); [|eauto].
    destruct (star_run p s k) eqn:E; [|eauto].
    injection H as ->. apply IH. reflexivity.
Qed.

(** A successful match has run what follows the pattern. *)
Lemma re_run_continues {A : Type} r :
  forall s g (k : bytes -> list bytes -> option A) x,
  re_run r s g k = Some x -> exists s1 g1, k s1 g1 = Some x.
Proof.
  induction r as [c|p|r1 IH1 r2 IH2|r1 IH1 r2 IH2|p|r IH];
    intros s g k x H; cbn [re_run] in H.
  - destruct s as [|y s']; [discriminate|].
    destruct (y =? c); [eauto | discriminate].
  - destruct s as [|y s']; [discriminate|].
    destruct (p y); [eauto | discriminate].
  - apply IH1 in H as (s1 & g1 & H). apply IH2 in H. exact H.
  - destruct (re_run r1 s g k) eqn:E.
    + injection H as ->. apply IH1 in E. exact E.
    + apply IH2 in H. exact H.
  - apply star_run_continues in H as (s1 & H). eauto.
  - apply IH in H as (s1 & g1 & H). eauto.
Qed.

Lemma re_match_span r s m :
  re_match r s = Some m -> exists k, group0 m = firstn k s.
Proof.
  unfold re_match. intros H.
  apply re_run_continues in H as (s1 & g1 & H).
  injection H as <-. unfold consumed. cbn [group0]. eauto.
Qed.

Lemma firstn_length_firstn {A : Type} k (l : list A) :
  firstn (List.length (firstn k l)) l = firstn k l.
Proof.
  rewrite List.length_firstn.
  destruct (Nat.le_ge_cases k (List.length l)) as [H|H].
  - rewrite Nat.min_l by assumption. reflexivity.
  - rewrite Nat.min_r by assumption.
    rewrite firstn_all, firstn_all2 by assumption. reflexivity.
Qed.

(** The token of a matching rule: a span that starts at [start_index], with
    the current position as its start and the advanced position as its
    end. *)
Lemma match_spec_token spec source i pos t :
  match_spec spec source i pos = Ok (Some t) ->
  (exists k, value t = firstn k (skipn i source)) /\
  start t = Some pos /\
  end_ t = Some (get_new_position (value t) pos).
Proof.
  destruct spec as [n r|n]; cbn [match_spec].
  - destruct (re_match r (skipn i source)) as [m|] eqn:E; [|discriminate].
    intros H. injection H as <-. cbn [value start end_].
    split; [exact (re_match_span _ _ _ E) | split; reflexivity].
  - destruct (re_match preamble_re (skipn i source)) as [m|]; [|discriminate].
    destruct (py_int (nth 0 (groups m) [])) as [z| |]; cbn [bind];
      try discriminate.
    intros H. injection H as <-. cbn [value start end_].
    split; [unfold slice; eauto | split; reflexivity].
Qed.

Lemma match_specs_token specs source i pos t :
  match_specs specs source i pos = Ok t ->
  (exists k, value t = firstn k (skipn i source)) /\
  start t = Some pos /\
  end_ t = Some (get_new_position (value t) pos).
Proof.
  induction specs as [|spec specs IH]; cbn [match_specs]; [discriminate|].
  destruct (match_spec spec source i pos) as [[t'|]| |] eqn:E; cbn [bind];
    try discriminate.
  - intros H. injection H as ->. exact (match_spec_token _ _ _ _ _ E).
  - exact IH.
Qed.

Lemma lexer_loop_spans specs source fuel : forall i pos tokens,
  lexer_loop fuel specs source i pos = Ok tokens ->
  List.concat (map value tokens) = skipn i source /\ chained pos tokens.
Proof.
  induction fuel as [|fuel IH]; intros i pos tokens; cbn [lexer_loop];
    [discriminate|].
  destruct (i <? List.length source)%nat eqn:Ei.
  - destruct (match_specs specs source i pos) as [t| |] eqn:Et; cbn [bind];
      try discriminate.
    destruct (match_specs_token _ _ _ _ _ Et) as ((k & Hv) & Hs & He).
    rewrite He.
    destruct (lexer_loop fuel specs source (i + List.length (value t))
                (get_new_position (value t) pos)) as [rest| |] eqn:Er;
      cbn [bind]; try discriminate.
    intros H. injection H as <-.
    destruct (IH _ _ _ Er) as [Hc Hch].
    split.
    + cbn [map List.concat]. rewrite Hc, Nat.add_comm, <- skipn_skipn.
      rewrite Hv. rewrite <- (firstn_length_firstn k (skipn i source)) at 1.
      apply firstn_skipn.
    + cbn [chained]. split; [exact Hs|]. eauto.
  - intros H. injection H as <-. apply Nat.ltb_ge in Ei.
    rewrite skipn_all2 by assumption. split; [reflexivity | exact I].
Qed.

(** Consecutive tokens of a chain share a boundary. *)
Lemma chained_nth pos tokens : chained pos tokens ->
  forall i t1 t2,
    nth_error tokens i = Some t1 -> nth_error tokens (S i) = Some t2 ->
    start t2 = end_ t1.
Proof.
  revert pos. induction tokens as [|t tokens IH]; intros pos Hc i t1 t2 H1 H2.
  - destruct i; discriminate.
  - destruct Hc as (_ & pos' & He & Hc).
    destruct i as [|i].
    + cbn in H1, H2. injection H1 as <-.
      destruct tokens as [|t' tokens]; [discriminate|].
      injection H2 as <-. destruct Hc as (Hs & _). congruence.
    + exact (IH pos' Hc i t1 t2 H1 H2).
Qed.
(** ** The bencode rule set: the lexer always comes to an end *)

Lemma py_int_digits c ds :
  forallb is_digit (c :: ds) = true ->
  py_int (c :: ds) = Ok (decimal_value (c :: ds)).
Proof. intros H. unfold py_int. rewrite H. reflexivity. Qed.

(** If every rule either does not match or yields a token with property
    [Q], the rule set yields a token with property [Q] or reports the byte
    at the offset. *)
Lemma match_specs_cases (Q : Token -> Prop) specs source i pos :
  Forall (fun spec =>
            match_spec spec source i pos = Ok None \/
            exists t, match_spec spec source i pos = Ok (Some t) /\ Q t)
         specs ->
  (exists t, match_specs specs source i pos = Ok t /\ Q t) \/
  match_specs specs source i pos = Raise (SyntaxError pos (nth i source 0)).
Proof.
  induction 1 as [|spec specs [Hn|(t & Ht & HQ)] _ IH]; cbn [match_specs].
  - right. reflexivity.
  - rewrite Hn. exact IH.
  - rewrite Ht. left. exists t. split; [reflexivity | exact HQ].
Qed.

Lemma match_spec_String source i pos :
  match_spec (StringTokenSpec "String") source i pos = Ok None \/
  exists t, match_spec (StringTokenSpec "String") source i pos = Ok (Some t)
            /\ sound_token t.
Proof.
  cbn [match_spec]. rewrite re_match_preamble.
  destruct (skipn i source) as [|c s'] eqn:ES; [left; reflexivity|].
  destruct (nonzero_digit c) eqn:Ec; [|left; reflexivity].
  destruct (dropwhile is_digit s') as [|x s2]; [left; reflexivity|].
  destruct (x =? 58); [|left; reflexivity].
  right. cbn [groups group0 nth].
  rewrite py_int_digits
    by (cbn [forallb]; rewrite (nonzero_is_digit c Ec), forallb_takewhile;
        reflexivity).
  cbn [bind]. eexists. split; [reflexivity|].
  split; cbn [value name].
  - unfold slice. rewrite ES. cbn [List.length].
    match goal with
    | |- firstn ?n _ <> [] =>
        destruct n eqn:En; [lia | cbn [firstn]; discriminate]
    end.
  - intros H. discriminate H.
Qed.

Lemma match_spec_Number source i pos :
  match_spec (TokenSpec "Number" number_re) source i pos = Ok None \/
  exists t, match_spec (TokenSpec "Number" number_re) source i pos
            = Ok (Some t) /\ sound_token t.
Proof.
  cbn [match_spec]. rewrite re_match_number.
  destruct (skipn i source) as [|c s']; [left; reflexivity|].
  destruct (c =? 48).
  - right. eexists. split; [reflexivity|].
    split; unfold literal_ok; cbn [value group0]; [discriminate|].
    intros _. split; [discriminate | reflexivity].
  - destruct (nonzero_digit c) eqn:Ec; [|left; reflexivity].
    right. eexists. split; [reflexivity|].
    split; unfold literal_ok; cbn [value group0]; [discriminate|].
    intros _. split; [discriminate|].
    cbn [forallb]. rewrite (nonzero_is_digit c Ec), forallb_takewhile.
    reflexivity.
Qed.

Lemma match_spec_Type source i pos :
  match_spec (TokenSpec "Type" type_re) source i pos = Ok None \/
  exists t, match_spec (TokenSpec "Type" type_re) source i pos
            = Ok (Some t) /\ sound_token t.
Proof.
  cbn [match_spec]. unfold type_re. rewrite re_match_class.
  destruct (skipn i source) as [|c s']; [left; reflexivity|].
  destruct (one_of (lit "ild") c); [|left; reflexivity].
  right. eexists. split; [reflexivity|].
  split; cbn [value group0]; [discriminate|]. intros H. discriminate H.
Qed.

Lemma match_spec_End source i pos :
  match_spec (TokenSpec "End" end_re) source i pos = Ok None \/
  exists t, match_spec (TokenSpec "End" end_re) source i pos
            = Ok (Some t) /\ sound_token t.
Proof.
  cbn [match_spec]. unfold end_re. rewrite re_match_chr.
  destruct (skipn i source) as [|c s']; [left; reflexivity|].
  destruct (c =? 101); [|left; reflexivity].
  right. eexists. split; [reflexivity|].
  split; cbn [value group0]; [discriminate|]. intros H. discriminate H.
Qed.

(** At any offset the rule set either yields a token that is not empty, a
    Number token being a decimal literal, or reports the byte there. *)
Lemma match_specs_bencode source i pos :
  (exists t, match_specs bencode_specs source i pos = Ok t /\ sound_token t) \/
  match_specs bencode_specs source i pos
  = Raise (SyntaxError pos (nth i source 0)).
Proof.
  apply match_specs_cases. unfold bencode_specs.
  repeat apply Forall_cons; [apply match_spec_String | apply match_spec_Number
    | apply match_spec_Type | apply match_spec_End | apply Forall_nil].
Qed.

(** With more fuel than bytes left, the loop ends: in a list of tokens, or
    in the report of a byte that no rule matches. *)
Lemma lexer_loop_bencode source fuel : forall i pos,
  (List.length source - i < fuel)%nat ->
  (exists tokens, lexer_loop fuel bencode_specs source i pos = Ok tokens /\
                  Forall literal_ok tokens) \/
  exists p c, lexer_loop fuel bencode_specs source i pos
              = Raise (SyntaxError p c).
Proof.
  induction fuel as [|fuel IH]; intros i pos Hfuel; [lia|].
  cbn [lexer_loop].
  destruct (i <? List.length source)%nat eqn:Ei.
  - apply Nat.ltb_lt in Ei.
    destruct (match_specs_bencode source i pos) as [(t & Ht & Hne & Hlit)|Hr].
    + rewrite Ht. cbn [bind].
      assert (Hlen : (0 < List.length (value t))%nat).
      { destruct (value t); [contradiction | cbn; lia]. }
      destruct (IH (i + List.length (value t))%nat
                  match end_ t with Some p => p | None => pos end
                  ltac:(lia))
        as [(rest & -> & Hall)|(p & c & ->)]; cbn [bind].
      * left. exists (t :: rest). split; [reflexivity|].
        constructor; assumption.
      * right. do 2 eexists. reflexivity.
    + rewrite Hr. right. do 2 eexists. reflexivity.
  - left. exists []. split; [reflexivity | constructor].
Qed.

Lemma tokenize_total source :
  (exists tokens, tokenize source = Ok tokens /\ Forall literal_ok tokens) \/
  exists p c, tokenize source = Raise (SyntaxError p c).
Proof. apply lexer_loop_bencode. lia. Qed.

(** The result of the loop does not depend on the fuel, once there is
    enough of it. *)
Lemma lexer_loop_more_fuel specs source fuel : forall i pos extra,
  lexer_loop fuel specs source i pos <> Diverge ->
  lexer_loop (fuel + extra) specs source i pos
  = lexer_loop fuel specs source i pos.
Proof.
  induction fuel as [|fuel IH]; intros i pos extra H;
    [contradiction H; reflexivity|].
  cbn [lexer_loop Nat.add] in *.
  destruct (i <? List.length source)%nat; [|reflexivity].
  destruct (match_specs specs source i pos) as [t| |]; cbn [bind] in *;
    try reflexivity.
  rewrite IH; [reflexivity|].
  intros E. rewrite E in H. apply H. reflexivity.
Qed.

Lemma lexer_loop_fuel specs source fuel1 fuel2 i pos :
  lexer_loop fuel1 specs source i pos <> Diverge ->
  lexer_loop fuel2 specs source i pos <> Diverge ->
  lexer_loop fuel1 specs source i pos = lexer_loop fuel2 specs source i pos.
Proof.
  intros H1 H2.
  rewrite <- (lexer_loop_more_fuel specs source fuel1 i pos fuel2 H1).
  rewrite <- (lexer_loop_more_fuel specs source fuel2 i pos fuel1 H2).
  rewrite Nat.add_comm. reflexivity.
Qed.
(** ** The grammar: every parse ends, in a value or a failure of the grammar *)

Lemma dict_update_outcome pairs : forall d,
  (exists d', dict_update d pairs = Ok d') \/
  exists t, dict_update d pairs = Raise (TypeError t).
Proof.
  induction pairs as [|[k v] pairs IH]; intros d; cbn [dict_update].
  - left. eauto.
  - destruct (hashable k); [apply IH | right; eauto].
Qed.

Lemma many_settles {A : Type} (p : Parser A) fuel : forall tokens,
  (forall tokens', (List.length tokens' <= List.length tokens)%nat ->
                   Forall literal_ok tokens' -> advances tokens' (p tokens')) ->
  (List.length tokens < fuel)%nat ->
  Forall literal_ok tokens ->
  settles tokens (many fuel p tokens).
Proof.
  induction fuel as [|fuel IH]; intros tokens Hp Hfuel Hlit; [lia|].
  cbn [many].
  pose proof (Hp tokens (Nat.le_refl _) Hlit) as H.
  destruct (p tokens) as [[v rest]|e|]; cbn [advances] in H.
  - destruct H as [Hlen Hrest].
    assert (IH' : settles rest (many fuel p rest)).
    { apply IH; [|lia|assumption].
      intros tokens' Hle. apply Hp. lia. }
    destruct (many fuel p rest) as [[vs rest']|e|];
      cbn [bind settles fst snd] in *.
    + split; [lia | tauto].
    + exact IH'.
    + exact IH'.
  - destruct H as [->|(t & ->)]; cbn [settles].
    + split; [lia | assumption].
    + right. eauto.
  - contradiction.
Qed.

Lemma seq_advances {A B : Type} (p : Parser A) (q : Parser B) tokens :
  advances tokens (p tokens) ->
  (forall tokens', (List.length tokens' <= List.length tokens)%nat ->
                   Forall literal_ok tokens' -> advances tokens' (q tokens')) ->
  advances tokens (seq p q tokens).
Proof.
  intros Hp Hq. unfold seq.
  destruct (p tokens) as [[v rest]|e|]; cbn [bind advances fst snd] in *;
    try assumption.
  destruct Hp as [Hlen Hrest].
  pose proof (Hq rest ltac:(lia) Hrest) as H.
  destruct (q rest) as [[w rest']|e|]; cbn [bind advances fst snd] in *;
    try assumption.
  split; [lia | tauto].
Qed.

Lemma alt_advances {A : Type} (p q : Parser A) tokens :
  advances tokens (p tokens) -> advances tokens (q tokens) ->
  advances tokens (alt p q tokens).
Proof.
  intros Hp Hq. unfold alt.
  destruct (p tokens) as [[v rest]|e|]; try assumption.
  destruct e; assumption.
Qed.

(** A token of the stream against a token written in the grammar. *)
Lemma bytes_eqb_eq x y : bytes_eqb x y = true <-> x = y.
Proof.
  revert y. induction x as [|c x IH]; intros [|d y]; cbn [bytes_eqb];
    try (split; [discriminate | discriminate]); [tauto|].
  rewrite andb_true_iff, Z.eqb_eq, IH.
  split; [intros [-> ->] | intros [= -> ->]]; auto.
Qed.

Lemma Token_eq_spec t n v :
  Token_eq t (mkToken n v None None) = true <-> name t = n /\ value t = v.
Proof.
  unfold Token_eq. cbn [name value].
  rewrite andb_true_iff, String.eqb_eq, bytes_eqb_eq. tauto.
Qed.

Ltac first_token tokens t rest :=
  destruct tokens as [|t rest]; cbn [some bind fst snd advances settles];
  [left; reflexivity|].

Lemma integer_decl_advances tokens :
  Forall literal_ok tokens -> advances tokens (integer_decl tokens).
Proof.
  intros Hlit.
  unfold integer_decl, apply, then_skip, skip_then, type_decl, end_decl,
    integer, token_type, apply, token_value, a.
  first_token tokens t1 r1.
  destruct (Token_eq t1 _); cbn [bind fst snd advances]; [|left; reflexivity].
  inversion Hlit as [|? ? _ Hr1]; subst.
  first_token r1 t2 r2.
  destruct (String.eqb (name t2) "Number") eqn:E2;
    cbn [bind fst snd advances]; [|left; reflexivity].
  inversion Hr1 as [|? ? H2 Hr2]; subst.
  first_token r2 t3 r3.
  destruct (Token_eq t3 _); cbn [bind fst snd advances]; [|left; reflexivity].
  inversion Hr2 as [|? ? _ Hr3]; subst.
  apply String.eqb_eq in E2. destruct (H2 E2) as [Hne Hd].
  unfold _to_int, py_int.
  destruct (value t2) as [|c ds]; [contradiction|].
  rewrite Hd. cbn [bind advances List.length].
  split; [lia | assumption].
Qed.

Lemma str_decl_advances tokens :
  Forall literal_ok tokens -> advances tokens (str_decl tokens).
Proof.
  intros Hlit.
  unfold str_decl, token_type, apply, token_value, _to_string.
  first_token tokens t1 r1.
  destruct (String.eqb (name t1) "String");
    cbn [bind fst snd advances List.length]; [|left; reflexivity].
  inversion Hlit; subst. split; [lia | assumption].
Qed.

Section Composite.
Variable fuel : nat.
Variable value_rule : Parser object.
Variable tokens : list Token.
Hypothesis fuel_enough : (List.length tokens <= fuel)%nat.
Hypothesis tokens_ok : Forall literal_ok tokens.
Hypothesis value_advances :
  forall tokens', (List.length tokens' < List.length tokens)%nat ->
                  Forall literal_ok tokens' ->
                  advances tokens' (value_rule tokens').

Lemma dict_decl_advances : advances tokens (dict_decl fuel value_rule tokens).
Proof.
  unfold dict_decl, apply, then_skip, skip_then, type_decl, end_decl, a.
  destruct tokens as [|t1 r1] eqn:Et;
    cbn [some bind fst snd advances]; [left; reflexivity|].
  destruct (Token_eq t1 _); cbn [bind fst snd advances]; [|left; reflexivity].
  inversion tokens_ok as [|? ? _ Hr1]; subst.
  cbn [List.length] in *.
  assert (Hm : settles r1 (many fuel (seq value_rule value_rule) r1)).
  { apply many_settles; [|lia|assumption].
    intros tokens' Hle Hlit'. apply seq_advances.
    - apply value_advances; [lia | assumption].
    - intros tokens'' Hle' Hlit''. apply value_advances; [lia | assumption]. }
  destruct (many fuel (seq value_rule value_rule) r1) as [[pairs r2]|e|];
    cbn [bind fst snd advances settles] in *; try assumption.
  destruct Hm as [Hlen Hr2].
  destruct r2 as [|t2 r3]; cbn [some bind advances]; [left; reflexivity|].
  destruct (Token_eq t2 _); cbn [bind fst snd advances]; [|left; reflexivity].
  inversion Hr2; subst. unfold _to_dict, _to_list, py_dict.
  destruct (dict_update_outcome pairs []) as [(d & ->)|(t & ->)];
    cbn [bind advances List.length] in *.
  - split; [lia | assumption].
  - right. eauto.
Qed.

Lemma list_decl_advances : advances tokens (list_decl fuel value_rule tokens).
Proof.
  unfold list_decl, apply, then_skip, skip_then, type_decl, end_decl, a.
  destruct tokens as [|t1 r1] eqn:Et;
    cbn [some bind fst snd advances]; [left; reflexivity|].
  destruct (Token_eq t1 _); cbn [bind fst snd advances]; [|left; reflexivity].
  inversion tokens_ok as [|? ? _ Hr1]; subst.
  cbn [List.length] in *.
  assert (Hm : settles r1 (many fuel value_rule r1)).
  { apply many_settles; [|lia|assumption].
    intros tokens' Hle Hlit'. apply value_advances; [lia | assumption]. }
  destruct (many fuel value_rule r1) as [[items r2]|e|];
    cbn [bind fst snd advances settles] in *; try assumption.
  destruct Hm as [Hlen Hr2].
  destruct r2 as [|t2 r3]; cbn [some bind advances]; [left; reflexivity|].
  destruct (Token_eq t2 _); cbn [bind fst snd advances]; [|left; reflexivity].
  inversion Hr2; subst. cbn [List.length] in *.
  split; [lia | assumption].
Qed.
End Composite.

Lemma Value_advances fuel : forall tokens,
  (List.length tokens < fuel)%nat ->
  Forall literal_ok tokens ->
  advances tokens (Value fuel tokens).
Proof.
  induction fuel as [|fuel IH]; intros tokens Hfuel Hlit; [lia|].
  cbn [Value].
  apply alt_advances; [apply integer_decl_advances, Hlit|].
  apply alt_advances.
  { apply dict_decl_advances; [lia | assumption|].
    intros tokens' Hlen. apply IH. lia. }
  apply alt_advances.
  { apply list_decl_advances; [lia | assumption|].
    intros tokens' Hlen. apply IH. lia. }
  apply str_decl_advances, Hlit.
Qed.

(** On the tokens of the lexer, the grammar returns an object or fails with
    [NoParseError] or [TypeError]. *)
Lemma decode_tokens_outcome tokens :
  Forall literal_ok tokens ->
  (exists v, decode_tokens tokens = Ok v) \/
  decode_tokens tokens = Raise NoParseError \/
  exists t, decode_tokens tokens = Raise (TypeError t).
Proof.
  intros Hlit. unfold decode_tokens, parse, bencode_decl, then_skip.
  pose proof (Value_advances (S (List.length tokens)) tokens ltac:(lia) Hlit)
    as H.
  destruct (Value (S (List.length tokens)) tokens) as [[v rest]|e|];
    cbn [bind advances fst snd] in *.
  - destruct rest as [|t rest]; cbn [finished bind]; eauto.
  - destruct H as [->|(t & ->)]; eauto.
  - contradiction.
Qed.
(** ** Lexing the buffer that spells a piece of syntax *)

Lemma syntax_induction (P : syntax -> Prop)
  (HInt : forall n, P (SInt n))
  (HStr : forall b, P (SStr b))
  (HList : forall items, Forall P items -> P (SList items))
  (HDict : forall pairs,
      Forall (fun kv => P (fst kv) /\ P (snd kv)) pairs -> P (SDict pairs)) :
  forall s, P s.
Proof.
  fix IH 1. intros [n|b|items|pairs].
  - apply HInt.
  - apply HStr.
  - apply HList. induction items as [|x items IHitems]; constructor;
      [apply IH | exact IHitems].
  - apply HDict. induction pairs as [|[k v] pairs IHpairs]; constructor;
      [split; apply IH | exact IHpairs].
Qed.

Lemma skipn_past {A : Type} (l pre rest : list A) i :
  skipn i l = pre ++ rest -> skipn (i + List.length pre) l = rest.
Proof.
  intros H. rewrite Nat.add_comm, <- skipn_skipn, H.
  rewrite skipn_app, skipn_all, Nat.sub_diag. reflexivity.
Qed.

(** One turn of the loop, for a rule set that yields the span [pre] at the
    current offset. *)
Lemma lexer_loop_step specs fuel (source : bytes) i pos n (pre rest : bytes) :
  skipn i source = pre ++ rest -> pre <> [] ->
  match_specs specs source i pos = Ok (token_at pos n pre) ->
  lexer_loop (S fuel) specs source i pos =
  (r <- lexer_loop fuel specs source (i + List.length pre)
          (get_new_position pre pos) ;;
   Ok (token_at pos n pre :: r)).
Proof.
  intros Hs Hne Hm. cbn [lexer_loop].
  assert (Hi : (i <? List.length source)%nat = true).
  { apply Nat.ltb_lt. apply (f_equal (@List.length _)) in Hs.
    rewrite List.length_skipn, List.length_app in Hs.
    destruct pre; [contradiction | cbn in Hs; lia]. }
  rewrite Hi, Hm. reflexivity.
Qed.

Lemma match_specs_Type (source : bytes) i pos (c : byte) (rest : bytes) :
  skipn i source = c :: rest -> one_of (lit "ild") c = true ->
  match_specs bencode_specs source i pos = Ok (token_at pos "Type" [c]).
Proof.
  intros Hs Hc. unfold bencode_specs. cbn [match_specs match_spec].
  rewrite re_match_preamble, re_match_number. unfold type_re.
  rewrite re_match_class, Hs, Hc.
  assert (Hnz : nonzero_digit c = false).
  { unfold one_of in Hc. cbn in Hc. rewrite !orb_true_iff, !Z.eqb_eq in Hc.
    unfold nonzero_digit. apply andb_false_iff. rewrite !Z.leb_gt. lia. }
  assert (H0 : (c =? 48) = false).
  { unfold one_of in Hc. cbn in Hc. rewrite !orb_true_iff, !Z.eqb_eq in Hc.
    apply Z.eqb_neq. lia. }
  rewrite Hnz, H0. reflexivity.
Qed.

Lemma match_specs_End (source : bytes) i pos (rest : bytes) :
  skipn i source = 101 :: rest ->
  match_specs bencode_specs source i pos = Ok (token_at pos "End" [101]).
Proof.
  intros Hs. unfold bencode_specs. cbn [match_specs match_spec].
  rewrite re_match_preamble, re_match_number. unfold type_re, end_re.
  rewrite re_match_class, re_match_chr, Hs. reflexivity.
Qed.

(** A decimal literal that is followed by [e] is a Number token. *)
Lemma match_specs_Number (source : bytes) i pos n (rest : bytes) :
  0 <= n -> skipn i source = str_int n ++ 101 :: rest ->
  match_specs bencode_specs source i pos
  = Ok (token_at pos "Number" (str_int n)).
Proof.
  intros Hn Hs. unfold bencode_specs. cbn [match_specs match_spec].
  rewrite re_match_preamble, re_match_number, Hs.
  rewrite str_int_nonneg by assumption.
  destruct (str_nonneg_spec n Hn) as (c & ds & -> & Hd & Hnz & Hz & _).
  cbn [app]. cbn [forallb] in Hd. apply andb_true_iff in Hd as [Hc Hds].
  destruct (takewhile_run is_digit ds 101 rest Hds eq_refl) as [Ht Hdrop].
  rewrite Hdrop, Ht.
  destruct (Z.eq_dec n 0) as [->|Hpos].
  - injection (Hz eq_refl) as -> ->. reflexivity.
  - assert (Hc' : nonzero_digit c = true) by (apply Hnz; lia).
    rewrite Hc'.
    assert (H0 : (c =? 48) = false).
    { apply nonzero_digit_spec in Hc'. apply Z.eqb_neq. lia. }
    rewrite H0. reflexivity.
Qed.

(** A decimal literal above zero that is followed by a colon starts a
    String token, which takes as many of the bytes after the colon as the
    literal says, or as there are. *)
Lemma match_specs_String (source : bytes) i pos n (tail : bytes) :
  0 < n -> skipn i source = str_int n ++ 58 :: tail ->
  match_specs bencode_specs source i pos
  = Ok (token_at pos "String"
          (str_int n ++ 58 :: firstn (Z.to_nat n) tail)).
Proof.
  intros Hn Hs. unfold bencode_specs. cbn [match_specs match_spec].
  rewrite re_match_preamble, Hs. unfold slice. rewrite Hs.
  rewrite str_int_nonneg by lia.
  destruct (str_nonneg_spec n ltac:(lia)) as (c & ds & -> & Hd & Hnz & _ & Hv).
  cbn [app]. rewrite (Hnz Hn).
  pose proof Hd as Hd'. cbn [forallb] in Hd'.
  apply andb_true_iff in Hd' as [Hc Hds].
  destruct (takewhile_run is_digit ds 58 tail Hds eq_refl) as [Ht Hdrop].
  rewrite Hdrop, Ht. cbn [Z.eqb Pos.eqb groups group0 nth].
  rewrite (py_int_digits c ds Hd), Hv. cbn [bind].
  rewrite <- Nat.add_assoc, Nat.add_comm, Nat.add_sub.
  change (c :: ds ++ 58 :: tail) with ((c :: ds) ++ [58] ++ tail).
  rewrite app_assoc. rewrite firstn_app_2.
  cbn [app]. rewrite <- app_assoc. reflexivity.
Qed.
Lemma bind_Ok {A : Type} (o : outcome A) : (r <- o ;; Ok r) = o.
Proof. destruct o; reflexivity. Qed.

Lemma bind_assoc {A B C : Type} (o : outcome A) (f : A -> outcome B)
  (g : B -> outcome C) :
  (y <- (x <- o ;; f x) ;; g y) = (x <- o ;; y <- f x ;; g y).
Proof. destruct o; reflexivity. Qed.

Lemma tokens_at_app pos l1 l2 :
  tokens_at pos (l1 ++ l2) = tokens_at pos l1 ++ tokens_at (endpos pos l1) l2.
Proof.
  revert pos. induction l1 as [|[n v] l1 IH]; intros pos;
    cbn [app tokens_at endpos].
  - reflexivity.
  - rewrite IH. reflexivity.
Qed.

Lemma endpos_app pos l1 l2 :
  endpos pos (l1 ++ l2) = endpos (endpos pos l1) l2.
Proof.
  revert pos. induction l1 as [|[n v] l1 IH]; intros pos; cbn [app endpos].
  - reflexivity.
  - apply IH.
Qed.

Lemma lexes_nil : lexes_to [] [].
Proof.
  intros source i rest fuel pos _.
  cbn [List.length tokens_at endpos app Nat.add].
  rewrite Nat.add_0_r. symmetry. apply bind_Ok.
Qed.

Lemma lexes_app bs1 sp1 bs2 sp2 :
  lexes_to bs1 sp1 -> lexes_to bs2 sp2 -> lexes_to (bs1 ++ bs2) (sp1 ++ sp2).
Proof.
  intros H1 H2 source i rest fuel pos Hs.
  rewrite <- app_assoc in Hs.
  rewrite List.length_app, <- Nat.add_assoc, (H1 _ _ _ _ _ Hs).
  rewrite (H2 source _ rest fuel _ (skipn_past _ _ _ _ Hs)).
  rewrite bind_assoc, tokens_at_app, endpos_app, List.length_app, Nat.add_assoc.
  destruct (lexer_loop fuel bencode_specs source _ _); cbn [bind];
    [rewrite app_assoc|..]; reflexivity.
Qed.

Lemma lexes_one n (pre : bytes) :
  pre <> [] ->
  (forall (source : bytes) i pos (rest : bytes),
      skipn i source = pre ++ rest ->
      match_specs bencode_specs source i pos = Ok (token_at pos n pre)) ->
  lexes_to pre [(n, pre)].
Proof.
  intros Hne Hm source i rest fuel pos Hs.
  cbn [List.length Nat.add tokens_at endpos app].
  apply (lexer_loop_step _ _ _ _ _ _ _ rest Hs Hne).
  apply (Hm _ _ _ rest Hs).
Qed.

Lemma lexes_Type (c : byte) :
  one_of (lit "ild") c = true -> lexes_to [c] [("Type"%string, [c])].
Proof.
  intros Hc. apply lexes_one; [discriminate|].
  intros source i pos rest Hs. exact (match_specs_Type _ _ _ _ _ Hs Hc).
Qed.

Lemma lexes_End : lexes_to [101] [("End"%string, [101])].
Proof.
  apply lexes_one; [discriminate|].
  intros source i pos rest Hs. exact (match_specs_End _ _ _ _ Hs).
Qed.

Lemma str_int_nonempty n : str_int n <> [].
Proof.
  unfold str_int. destruct (n <? 0) eqn:E; [discriminate|].
  apply Z.ltb_ge in E.
  destruct (str_nonneg_spec n E) as (c & ds & -> & _). discriminate.
Qed.

Lemma lexes_String n (body : bytes) :
  0 < n -> Z.to_nat n = List.length body ->
  lexes_to (str_int n ++ 58 :: body)
           [("String"%string, str_int n ++ 58 :: body)].
Proof.
  intros Hn Hlen. apply lexes_one.
  - intros H. apply app_eq_nil in H as [H _]. exact (str_int_nonempty n H).
  - intros source i pos rest Hs.
    rewrite <- app_assoc in Hs. cbn [app] in Hs.
    rewrite (match_specs_String _ _ _ _ _ Hn Hs).
    rewrite Hlen, <- (Nat.add_0_r (List.length body)), firstn_app_2.
    cbn [firstn]. rewrite app_nil_r. reflexivity.
Qed.

Lemma lexes_Integer n :
  0 <= n ->
  lexes_to (lit "i" ++ str_int n ++ lit "e")
           [("Type"%string, lit "i"); ("Number"%string, str_int n);
            ("End"%string, lit "e")].
Proof.
  intros Hn.
  apply (lexes_app (lit "i") [("Type"%string, lit "i")]);
    [apply lexes_Type; reflexivity|].
  intros source i rest fuel pos Hs.
  rewrite <- app_assoc in Hs. change (lit "e" ++ rest) with (101 :: rest) in Hs.
  cbn [List.length Nat.add tokens_at endpos app].
  rewrite (lexer_loop_step _ _ _ _ _ "Number" (str_int n) (101 :: rest) Hs
             (str_int_nonempty n) (match_specs_Number _ _ _ _ _ Hn Hs)).
  pose proof (skipn_past _ _ _ _ Hs) as Hs'.
  rewrite (lexer_loop_step _ _ _ _ _ "End" [101] rest Hs'
             ltac:(discriminate) (match_specs_End _ _ _ _ Hs')).
  rewrite bind_assoc, List.length_app, Nat.add_assoc.
  destruct (lexer_loop fuel bencode_specs source _ _); reflexivity.
Qed.

Lemma lexes_flat_map {A : Type} (f : A -> bytes) (g : A -> list (string * bytes))
  (l : list A) :
  Forall (fun x => lexes_to (f x) (g x)) l ->
  lexes_to (flat_map f l) (flat_map g l).
Proof.
  induction 1 as [|x l Hx _ IH]; cbn [flat_map].
  - apply lexes_nil.
  - apply lexes_app; assumption.
Qed.

(** The lexer on the buffer that spells [s] yields the tokens of [s]. *)
Lemma lexes_render s : lexable s = true -> lexes_to (render s) (spell s).
Proof.
  induction s as [n|b|items IH|pairs IH] using syntax_induction;
    cbn [lexable render spell]; intros Hl.
  - apply lexes_Integer. apply Z.leb_le, Hl.
  - destruct b as [|c b]; [discriminate|].
    apply lexes_String; unfold len; cbn [List.length]; lia.
  - apply (lexes_app (lit "l") [("Type"%string, lit "l")]);
      [apply lexes_Type; reflexivity|].
    apply lexes_app; [|apply lexes_End].
    apply lexes_flat_map. rewrite forallb_forall in Hl.
    rewrite Forall_forall in IH |- *. intros x Hx. apply IH; auto.
  - apply (lexes_app (lit "d") [("Type"%string, lit "d")]);
      [apply lexes_Type; reflexivity|].
    apply lexes_app; [|apply lexes_End].
    apply lexes_flat_map. rewrite forallb_forall in Hl.
    rewrite Forall_forall in IH |- *. intros [k v] Hkv.
    specialize (IH _ Hkv). specialize (Hl _ Hkv). cbn [fst snd] in IH.
    apply andb_true_iff in Hl as [Hl Hv]. apply andb_true_iff in Hl as [_ Hk].
    apply lexes_app; tauto.
Qed.
(** ** Parsing the tokens of a piece of syntax *)

Lemma tokenize_lexes bs sp :
  lexes_to bs sp -> tokenize bs = Ok (tokens_at (0, 0) sp).
Proof.
  intros H.
  assert (E : lexer_loop (List.length sp + 1) bencode_specs bs 0 (0, 0)
              = Ok (tokens_at (0, 0) sp)).
  { rewrite (H bs 0%nat [] 1%nat (0, 0)) by (symmetry; apply app_nil_r).
    cbn [lexer_loop Nat.add]. rewrite Nat.ltb_irrefl. cbn [bind].
    rewrite app_nil_r. reflexivity. }
  unfold tokenize, Lexer. rewrite <- E. apply lexer_loop_fuel.
  - destruct (tokenize_total bs) as [(tokens & Ht & _)|(p & c & Ht)];
      unfold tokenize, Lexer in Ht; rewrite Ht; discriminate.
  - rewrite E. discriminate.
Qed.

Lemma spell_nonempty s : (0 < List.length (spell s))%nat.
Proof. destruct s; cbn [spell List.length]; lia. Qed.

Lemma length_flat_map_spell {A : Type} (g : A -> list (string * bytes)) l :
  (forall x, In x l -> (0 < List.length (g x))%nat) ->
  (List.length l <= List.length (flat_map g l))%nat.
Proof.
  induction l as [|x l IH]; intros H; cbn [flat_map List.length]; [lia|].
  rewrite List.length_app.
  pose proof (H x (or_introl eq_refl)).
  specialize (IH (fun y Hy => H y (or_intror Hy))). lia.
Qed.

Lemma length_flat_map_In {A B : Type} (g : A -> list B) l x :
  In x l -> (List.length (g x) <= List.length (flat_map g l))%nat.
Proof.
  induction l as [|y l IH]; intros H; [contradiction|].
  cbn [flat_map]. rewrite List.length_app.
  destruct H as [->|H]; [lia | specialize (IH H); lia].
Qed.

(** The rules on their first token. *)
Lemma integer_decl_other pos n v rest :
  (String.eqb n "Type" && bytes_eqb v (lit "i")) = false ->
  integer_decl (token_at pos n v :: rest) = Raise NoParseError.
Proof.
  intros H. unfold integer_decl, apply, then_skip, skip_then, type_decl, a,
    some, Token_eq.
  cbn [token_at name value]. rewrite H. reflexivity.
Qed.

Lemma dict_decl_other fuel p pos n v rest :
  (String.eqb n "Type" && bytes_eqb v (lit "d")) = false ->
  dict_decl fuel p (token_at pos n v :: rest) = Raise NoParseError.
Proof.
  intros H. unfold dict_decl, apply, then_skip, skip_then, type_decl, a,
    some, Token_eq.
  cbn [token_at name value]. rewrite H. reflexivity.
Qed.

Lemma list_decl_other fuel p pos n v rest :
  (String.eqb n "Type" && bytes_eqb v (lit "l")) = false ->
  list_decl fuel p (token_at pos n v :: rest) = Raise NoParseError.
Proof.
  intros H. unfold list_decl, apply, then_skip, skip_then, type_decl, a,
    some, Token_eq.
  cbn [token_at name value]. rewrite H. reflexivity.
Qed.

Lemma str_decl_other pos n v rest :
  String.eqb n "String" = false ->
  str_decl (token_at pos n v :: rest) = Raise NoParseError.
Proof.
  intros H. unfold str_decl, token_type, apply, some.
  cbn [token_at name]. rewrite H. reflexivity.
Qed.

Lemma Token_eq_token_at pos n v :
  Token_eq (token_at pos n v) (mkToken n v None None) = true.
Proof. apply Token_eq_spec. split; reflexivity. Qed.

(** No value starts with the End token. *)
Lemma Value_End fuel pos rest :
  Value (S fuel) (token_at pos "End" (lit "e") :: rest) = Raise NoParseError.
Proof.
  cbn [Value]. unfold alt.
  rewrite integer_decl_other, dict_decl_other, list_decl_other, str_decl_other;
    reflexivity.
Qed.

(** [many] over the tokens of a sequence that is closed by the End token. *)
Lemma many_closed {A X : Type} (p : Parser A)
  (sp : X -> list (string * bytes)) (den : X -> A) (l : list X) :
  Forall (fun x => forall pos rest,
              p (tokens_at pos (sp x) ++ rest) = Ok (den x, rest)) l ->
  (forall pos rest,
      p (token_at pos "End" (lit "e") :: rest) = Raise NoParseError) ->
  forall fuel pos rest,
    (List.length l < fuel)%nat ->
    many fuel p
      (tokens_at pos (flat_map sp l ++ [("End"%string, lit "e")]) ++ rest)
    = Ok (map den l,
          token_at (endpos pos (flat_map sp l)) "End" (lit "e") :: rest).
Proof.
  intros Hl Hend. induction Hl as [|x l Hx _ IH]; intros fuel pos rest Hfuel.
  - destruct fuel as [|fuel]; [cbn in Hfuel; lia|].
    cbn [flat_map app tokens_at many endpos map]. rewrite Hend. reflexivity.
  - destruct fuel as [|fuel]; [cbn in Hfuel; lia|].
    cbn [flat_map many map List.length] in *.
    rewrite <- app_assoc, tokens_at_app, <- app_assoc, Hx.
    rewrite IH by lia. cbn [bind fst snd]. rewrite endpos_app. reflexivity.
Qed.

Lemma re_sub_preamble n (body : bytes) :
  0 <= n ->
  re_sub_at_start str_strip_re [] (str_int n ++ 58 :: body) = body.
Proof.
  intros Hn. unfold re_sub_at_start. rewrite re_match_str_strip.
  rewrite str_int_nonneg by assumption.
  destruct (str_nonneg_spec n Hn) as (c & ds & -> & Hd & _).
  cbn [app]. cbn [forallb] in Hd. apply andb_true_iff in Hd as [Hc Hds].
  rewrite Hc.
  destruct (takewhile_run is_digit ds 58 body Hds eq_refl) as [Ht Hdrop].
  rewrite Hdrop, Ht. cbn [Z.eqb Pos.eqb group0 app].
  change (c :: ds ++ 58 :: body) with ((c :: ds) ++ [58] ++ body).
  rewrite app_assoc. change ((c :: ds) ++ [58]) with (c :: ds ++ [58]).
  rewrite skipn_app, skipn_all, Nat.sub_diag. reflexivity.
Qed.

Lemma dict_update_scalar pairs : forall d,
  Forall (fun kv => hashable (fst kv) = true) pairs ->
  dict_update d pairs
  = Ok (fold_left (fun d kv => dict_setitem d (fst kv) (snd kv)) pairs d).
Proof.
  induction pairs as [|[k v] pairs IH]; intros d H; cbn [dict_update fold_left].
  - reflexivity.
  - inversion H as [|? ? Hk Hrest]; subst. cbn [fst snd] in *.
    rewrite Hk. apply IH, Hrest.
Qed.

Lemma hashable_denote k : is_scalar k = true -> hashable (denote k) = true.
Proof. destruct k; cbn; congruence. Qed.

(** The grammar on the tokens of [s] returns the object that [s] stands
    for. *)
Lemma parses_spell s : lexable s = true -> parses_to (spell s) (denote s).
Proof.
  induction s as [n|b|items IH|pairs IH] using syntax_induction;
    cbn [lexable]; intros Hl fuel pos rest Hfuel;
    (destruct fuel as [|fuel]; [cbn in Hfuel; lia|]).
  - apply Z.leb_le in Hl. cbn [Value spell tokens_at app denote]. unfold alt.
    unfold integer_decl, apply, then_skip, skip_then, type_decl, end_decl,
      integer, token_type, apply, token_value, a, some, _to_int.
    cbn [token_at name value Token_eq String.eqb Ascii.eqb Bool.eqb andb
         bytes_eqb lit list_ascii_of_string map N_of_ascii Z.of_N bind fst snd].
    cbn. rewrite py_int_str_int by assumption. reflexivity.
  - destruct b as [|c b]; [discriminate|].
    cbn [Value spell tokens_at app denote]. unfold alt.
    rewrite integer_decl_other, dict_decl_other, list_decl_other by reflexivity.
    unfold str_decl, token_type, apply, token_value, some, _to_string.
    cbn [token_at name value String.eqb Ascii.eqb Bool.eqb bind fst snd].
    change (lit ":" ++ c :: b) with (58 :: c :: b).
    rewrite re_sub_preamble by apply len_nonneg. reflexivity.
  - cbn [Value spell tokens_at app denote]. unfold alt.
    rewrite integer_decl_other, dict_decl_other by reflexivity.
    unfold list_decl, apply, then_skip, skip_then, type_decl, end_decl, a, some.
    cbn [Token_eq token_at name value String.eqb Ascii.eqb Bool.eqb andb
         bytes_eqb bind fst snd].
    change (bytes_eqb (lit "l") (lit "l")) with true. cbn [andb bind fst snd].
    cbn [spell List.length] in Hfuel. rewrite List.length_app in Hfuel.
    cbn [List.length] in Hfuel.
    rewrite (many_closed (Value fuel) spell denote items).
    + cbn [bind fst snd]. rewrite Token_eq_token_at. reflexivity.
    + rewrite forallb_forall in Hl. rewrite Forall_forall in IH |- *.
      intros x Hx pos' rest'. apply (IH x Hx (Hl x Hx)).
      pose proof (length_flat_map_In spell items x Hx). lia.
    + intros pos' rest'. destruct fuel as [|fuel]; [lia|]. apply Value_End.
    + pose proof (length_flat_map_spell spell items
                    (fun x _ => spell_nonempty x)). lia.
  - cbn [Value spell tokens_at app denote]. unfold alt.
    rewrite integer_decl_other by reflexivity.
    unfold dict_decl, apply, then_skip, skip_then, type_decl, end_decl, a, some.
    cbn [Token_eq token_at name value String.eqb Ascii.eqb Bool.eqb andb
         bytes_eqb bind fst snd].
    change (bytes_eqb (lit "d") (lit "d")) with true. cbn [andb bind fst snd].
    cbn [spell List.length] in Hfuel. rewrite List.length_app in Hfuel.
    cbn [List.length] in Hfuel.
    set (sp := fun kv : syntax * syntax => let '(k, v) := kv in spell k ++ spell v)
      in *.
    set (den := fun kv : syntax * syntax => let '(k, v) := kv in (denote k, denote v))
      in *.
    rewrite forallb_forall in Hl.
    rewrite (many_closed (seq (Value fuel) (Value fuel)) sp den pairs).
    + cbn [bind fst snd]. rewrite Token_eq_token_at.
      cbn [bind fst snd]. unfold _to_dict, _to_list, py_dict.
      rewrite dict_update_scalar.
      * reflexivity.
      * rewrite Forall_forall. intros kv Hkv.
        apply in_map_iff in Hkv as ([k v] & <- & Hkv).
        specialize (Hl _ Hkv). cbn [den fst].
        apply andb_true_iff in Hl as [Hl _]. apply andb_true_iff in Hl as [Hk _].
        apply hashable_denote, Hk.
    + rewrite Forall_forall in IH |- *.
      intros [k v] Hkv pos' rest'. specialize (IH _ Hkv). specialize (Hl _ Hkv).
      cbn [fst snd] in IH. destruct IH as [IHk IHv].
      apply andb_true_iff in Hl as [Hl Hv]. apply andb_true_iff in Hl as [_ Hk].
      pose proof (length_flat_map_In sp pairs (k, v) Hkv) as Hlen.
      cbn [sp] in Hlen. rewrite List.length_app in Hlen.
      unfold seq. cbn [sp den]. rewrite tokens_at_app, <- app_assoc.
      rewrite (IHk Hk) by lia. cbn [bind fst snd].
      rewrite (IHv Hv) by lia. reflexivity.
    + intros pos' rest'. destruct fuel as [|fuel]; [lia|].
      unfold seq. rewrite Value_End. reflexivity.
    + assert (H : (List.length pairs <= List.length (flat_map sp pairs))%nat).
      { apply length_flat_map_spell. intros [k v] _. cbn [sp].
        rewrite List.length_app. pose proof (spell_nonempty k). lia. }
      lia.
Qed.
(** ** Decoding the buffer that spells a piece of syntax *)

Lemma length_tokens_at pos l : List.length (tokens_at pos l) = List.length l.
Proof.
  revert pos. induction l as [|[n v] l IH]; intros pos; cbn [tokens_at List.length];
    [reflexivity | rewrite IH; reflexivity].
Qed.

Lemma decode_lexes_parses bs sp v :
  lexes_to bs sp -> parses_to sp v -> decode_bytes bs = Ok v.
Proof.
  intros Hlex Hparse. unfold decode_bytes.
  rewrite (tokenize_lexes _ _ Hlex). cbn [bind].
  unfold decode_tokens, parse, bencode_decl, then_skip.
  rewrite <- (app_nil_r (tokens_at (0, 0) sp)) at 2.
  rewrite Hparse by (rewrite length_tokens_at; lia).
  reflexivity.
Qed.

(** Decoding is the meaning of the syntax: for every piece of syntax the
    rule set accepts, the buffer that spells it decodes to the object it
    stands for. *)
Lemma decode_bytes_render s :
  lexable s = true -> decode_bytes (render s) = Ok (denote s).
Proof.
  intros H. apply (decode_lexes_parses _ (spell s)).
  - apply lexes_render, H.
  - apply parses_spell, H.
Qed.

(** ** Dictionaries built from pairs *)

Lemma key_eqb_eq k1 k2 : key_eqb k1 k2 = true -> k1 = k2.
Proof.
  destruct k1, k2; cbn [key_eqb]; try discriminate; intros H.
  - apply Z.eqb_eq in H. congruence.
  - apply bytes_eqb_eq in H. congruence.
  - apply bytes_eqb_eq in H. congruence.
  - reflexivity.
Qed.

Lemma bytes_eqb_sym x y : bytes_eqb x y = bytes_eqb y x.
Proof.
  revert y. induction x as [|c x IH]; intros [|d y]; cbn [bytes_eqb];
    try reflexivity.
  rewrite IH, Z.eqb_sym. reflexivity.
Qed.

Lemma key_eqb_sym k1 k2 : key_eqb k1 k2 = key_eqb k2 k1.
Proof.
  destruct k1, k2; cbn [key_eqb]; try reflexivity;
    [apply Z.eqb_sym | apply bytes_eqb_sym | apply bytes_eqb_sym].
Qed.

Lemma lookup_setitem d k' v k :
  lookup k (dict_setitem d k' v)
  = if key_eqb k' k then Some v else lookup k d.
Proof.
  induction d as [|[k0 v0] d IH]; cbn [dict_setitem lookup]; [reflexivity|].
  destruct (key_eqb k0 k') eqn:E0; cbn [lookup].
  - apply key_eqb_eq in E0. subst k0. destruct (key_eqb k' k); reflexivity.
  - rewrite IH. destruct (key_eqb k0 k) eqn:E1; [|reflexivity].
    destruct (key_eqb k' k) eqn:E2; [|reflexivity].
    pose proof (key_eqb_eq _ _ E1). pose proof (key_eqb_eq _ _ E2).
    subst. congruence.
Qed.

Lemma lookup_app k d1 d2 :
  lookup k (d1 ++ d2)
  = match lookup k d1 with Some v => Some v | None => lookup k d2 end.
Proof.
  induction d1 as [|[k0 v0] d1 IH]; cbn [app lookup]; [reflexivity|].
  destruct (key_eqb k0 k); [reflexivity | exact IH].
Qed.

Lemma lookup_fold_setitem k pairs : forall d,
  lookup k (fold_left (fun d kv => dict_setitem d (fst kv) (snd kv)) pairs d)
  = match lookup k (rev pairs) with Some v => Some v | None => lookup k d end.
Proof.
  induction pairs as [|[k' v'] pairs IH]; intros d; cbn [fold_left rev];
    [reflexivity|].
  rewrite IH, lookup_app, lookup_setitem. cbn [fst snd lookup].
  destruct (lookup k (rev pairs)); [reflexivity|].
  destruct (key_eqb k' k); reflexivity.
Qed.

(** In [dict(pairs)] a key holds the value of its last pair. *)
Lemma lookup_dict_of k pairs : lookup k (dict_of pairs) = lookup k (rev pairs).
Proof.
  unfold dict_of. rewrite lookup_fold_setitem.
  destruct (lookup k (rev pairs)); reflexivity.
Qed.

Lemma distinct_keys_setitem d k v :
  distinct_keys d = true -> distinct_keys (dict_setitem d k v) = true.
Proof.
  induction d as [|[k0 v0] d IH]; cbn [dict_setitem distinct_keys];
    [reflexivity|].
  destruct (lookup k0 d) eqn:El; [discriminate|]. intros Hd.
  destruct (key_eqb k0 k) eqn:E0; cbn [distinct_keys].
  - rewrite El. exact Hd.
  - rewrite lookup_setitem, key_eqb_sym, E0, El. apply IH, Hd.
Qed.

(** In [dict(pairs)] no key occurs twice. *)
Lemma distinct_keys_dict_of pairs : distinct_keys (dict_of pairs) = true.
Proof.
  unfold dict_of.
  assert (H : forall d, distinct_keys d = true ->
                distinct_keys
                  (fold_left (fun d kv => dict_setitem d (fst kv) (snd kv))
                     pairs d) = true).
  { induction pairs as [|[k v] pairs IH]; intros d Hd; cbn [fold_left];
      [exact Hd|]. apply IH, distinct_keys_setitem, Hd. }
  apply H. reflexivity.
Qed.

Lemma lookup_In k v d :
  In (k, v) d -> key_eqb k k = true -> exists v', lookup k d = Some v'.
Proof.
  intros Hin Hk. induction d as [|[k0 v0] d IH]; [contradiction|].
  cbn [lookup]. destruct (key_eqb k0 k) eqn:E; [eauto|].
  destruct Hin as [[= -> ->]|Hin]; [congruence | exact (IH Hin)].
Qed.

(** A key that is new to the entries goes last. *)
Lemma dict_setitem_fresh d k v :
  lookup k d = None -> dict_setitem d k v = d ++ [(k, v)].
Proof.
  induction d as [|[k0 v0] d IH]; cbn [dict_setitem lookup app]; [reflexivity|].
  destruct (key_eqb k0 k); [discriminate|]. intros H. rewrite IH by exact H.
  reflexivity.
Qed.

(** Entries with pairwise distinct keys are the dict of themselves. *)
Lemma dict_of_distinct entries :
  distinct_keys entries = true -> dict_of entries = entries.
Proof.
  unfold dict_of.
  assert (H : forall d,
             distinct_keys entries = true ->
             (forall k v, In (k, v) entries -> lookup k d = None) ->
             fold_left (fun d kv => dict_setitem d (fst kv) (snd kv)) entries d
             = d ++ entries).
  { induction entries as [|[k v] entries IH]; intros d Hd Hfresh;
      cbn [fold_left fst snd].
    - symmetry. apply app_nil_r.
    - cbn [distinct_keys] in Hd.
      destruct (lookup k entries) eqn:El; [discriminate|].
      rewrite dict_setitem_fresh by (apply (Hfresh k v); left; reflexivity).
      rewrite IH.
      + rewrite <- app_assoc. reflexivity.
      + exact Hd.
      + intros k2 v2 Hin. rewrite lookup_app.
        rewrite (Hfresh k2 v2 (or_intror Hin)). cbn [lookup].
        destruct (key_eqb k k2) eqn:E; [|reflexivity].
        pose proof (key_eqb_eq _ _ E). subst k2.
        destruct (lookup_In k v2 entries Hin E) as (v' & Hv'). congruence. }
  intros Hd. apply (H [] Hd). reflexivity.
Qed.
(** ** The round trip *)

Lemma object_induction (P : object -> Prop)
  (HInt : forall i, P (PyInt i))
  (HBytes : forall b, P (PyBytes b))
  (HStr : forall s, P (PyStr s))
  (HList : forall items, Forall P items -> P (PyList items))
  (HDict : forall entries,
      Forall (fun kv => P (fst kv) /\ P (snd kv)) entries -> P (PyDict entries))
  (HNone : P PyNone)
  (HOther : forall t, P (PyOther t)) :
  forall x, P x.
Proof.
  fix IH 1. intros [i|b|s|items|entries| |t].
  - apply HInt.
  - apply HBytes.
  - apply HStr.
  - apply HList. induction items as [|x items IHitems]; constructor;
      [apply IH | exact IHitems].
  - apply HDict. induction entries as [|[k v] entries IHentries]; constructor;
      [split; apply IH | exact IHentries].
  - apply HNone.
  - apply HOther.
Qed.

(** On an object that survives, the encoder spells its syntax. *)
Lemma encode_bytes_render x :
  survives x = true -> encode_bytes x = Ok (render (to_syntax x)).
Proof.
  induction x as [i|b|s|items IH|entries IH| |t] using object_induction;
    cbn [survives]; intros Hs; try discriminate.
  - reflexivity.
  - cbn [encode_bytes to_syntax render].
    match goal with
    | |- bind ?j _ = _ =>
        assert (E : j = Ok (flat_map render (map to_syntax items)))
    end.
    { rewrite forallb_forall in Hs. induction IH as [|x items Hx _ IHitems];
        [reflexivity|].
      cbn [map flat_map]. rewrite Hx by (apply Hs; left; reflexivity).
      cbn [bind]. rewrite IHitems by (intros y Hy; apply Hs; right; exact Hy).
      reflexivity. }
    rewrite E. reflexivity.
  - cbn [encode_bytes to_syntax render].
    apply andb_true_iff in Hs as [Hs _].
    match goal with
    | |- bind ?j _ = _ =>
        assert (E : j = Ok (flat_map
                              (fun kv : syntax * syntax =>
                                 let '(k, v) := kv in render k ++ render v)
                              (map (fun kv : object * object =>
                                      let '(k, v) := kv in
                                      (to_syntax k, to_syntax v)) entries)))
    end.
    { rewrite forallb_forall in Hs.
      induction IH as [|[k v] entries [Hk Hv] _ IHentries]; [reflexivity|].
      cbn [map flat_map fst snd] in *.
      pose proof (Hs (k, v) (or_introl eq_refl)) as Hkv. cbn beta iota in Hkv.
      destruct k as [|[|c b]| | | | |]; try discriminate.
      rewrite Hk by reflexivity. cbn [bind]. rewrite Hv by exact Hkv.
      cbn [bind].
      rewrite IHentries by (intros y Hy; apply Hs; right; exact Hy).
      cbn [bind]. rewrite <- app_assoc. reflexivity. }
    rewrite E. reflexivity.
Qed.

Lemma lexable_to_syntax x : survives x = true -> lexable (to_syntax x) = true.
Proof.
  induction x as [i|b|s|items IH|entries IH| |t] using object_induction;
    cbn [survives]; intros Hs; try discriminate.
  - exact Hs.
  - cbn [to_syntax lexable]. rewrite forallb_forall in Hs |- *.
    rewrite Forall_forall in IH. intros y Hy.
    apply in_map_iff in Hy as (x & <- & Hx). auto.
  - cbn [to_syntax lexable]. apply andb_true_iff in Hs as [Hs _].
    rewrite forallb_forall in Hs |- *. rewrite Forall_forall in IH.
    intros y Hy. apply in_map_iff in Hy as ([k v] & <- & Hkv).
    specialize (Hs _ Hkv). specialize (IH _ Hkv). cbn [fst snd] in *.
    destruct k as [|[|c b]| | | | |]; try discriminate.
    cbn [to_syntax is_scalar lexable andb]. tauto.
Qed.

Lemma denote_to_syntax x : survives x = true -> denote (to_syntax x) = x.
Proof.
  induction x as [i|b|s|items IH|entries IH| |t] using object_induction;
    cbn [survives]; intros Hs; try discriminate.
  - reflexivity.
  - cbn [to_syntax denote]. f_equal. rewrite forallb_forall in Hs.
    rewrite map_map. rewrite <- (map_id items) at 2.
    apply map_ext_in. rewrite Forall_forall in IH. auto.
  - cbn [to_syntax denote]. apply andb_true_iff in Hs as [Hs Hd].
    f_equal. rewrite map_map. rewrite forallb_forall in Hs.
    rewrite Forall_forall in IH.
    rewrite (map_ext_in _ (fun kv => kv)), map_id.
    + apply dict_of_distinct, Hd.
    + intros [k v] Hkv. specialize (Hs _ Hkv). specialize (IH _ Hkv).
      cbn [fst snd] in *. destruct k as [|[|c b]| | | | |]; try discriminate.
      destruct IH as [Hk Hv]. rewrite Hk, Hv by auto. reflexivity.
Qed.

(** What remains of the round trip: byte strings with at least one byte,
    lists, and dicts from such byte strings come back as they were. *)
Lemma roundtrip_survives x : survives x = true -> roundtrip x = Ok x.
Proof.
  intros Hs. unfold roundtrip. rewrite (encode_bytes_render x Hs). cbn [bind].
  rewrite decode_bytes_render by (apply lexable_to_syntax, Hs).
  rewrite denote_to_syntax by exact Hs. reflexivity.
Qed.
Lemma survives_is_Value x : survives x = true -> is_Value x.
Proof.
  induction x as [i|b|s|items IH|entries IH| |t] using object_induction;
    cbn [survives]; intros Hs; try discriminate.
  - constructor.
  - constructor. rewrite forallb_forall in Hs.
    rewrite Forall_forall in IH |- *. auto.
  - apply andb_true_iff in Hs as [Hs Hd]. rewrite forallb_forall in Hs.
    rewrite Forall_forall in IH. constructor.
    + rewrite Forall_forall. intros [k v] Hkv.
      specialize (Hs _ Hkv). specialize (IH _ Hkv). cbn [fst snd] in *.
      destruct k as [|[|c b]| | | | |]; try discriminate.
      split; [eauto | tauto].
    + clear IH. induction entries as [|[k v] entries IHe]; cbn [map];
        constructor.
      * cbn [distinct_keys] in Hd.
        destruct (lookup k entries) eqn:El; [discriminate|].
        intros Hin. apply in_map_iff in Hin as ([k' v'] & Hk & Hin).
        cbn [fst] in Hk. subst k'.
        pose proof (Hs (k, v) (or_introl eq_refl)) as Hkv. cbn beta iota in Hkv.
        destruct k as [|[|c b]| | | | |]; try discriminate.
        destruct (lookup_In _ _ _ Hin) as (w & Hw); [|congruence].
        cbn [key_eqb]. apply bytes_eqb_eq. reflexivity.
      * cbn [distinct_keys] in Hd.
        destruct (lookup k entries); [discriminate|].
        apply IHe; [|exact Hd]. intros y Hy. apply Hs. right. exact Hy.
Qed.

Lemma tokenize_fuel (source : bytes) fuel tokens :
  lexer_loop fuel bencode_specs source 0 (0, 0) = Ok tokens ->
  tokenize source = Ok tokens.
Proof.
  intros E. unfold tokenize, Lexer. rewrite <- E. apply lexer_loop_fuel.
  - destruct (tokenize_total source) as [(tokens' & Ht & _)|(p & c & Ht)];
      unfold tokenize, Lexer in Ht; rewrite Ht; discriminate.
  - rewrite E. discriminate.
Qed.

Lemma Value_String fuel pos n (body : bytes) rest :
  0 <= n ->
  Value (S fuel) (token_at pos "String" (str_int n ++ 58 :: body) :: rest)
  = Ok (PyBytes body, rest).
Proof.
  intros Hn. cbn [Value]. unfold alt.
  rewrite integer_decl_other, dict_decl_other, list_decl_other by reflexivity.
  unfold str_decl, token_type, apply, token_value, some, _to_string.
  cbn [token_at name value String.eqb Ascii.eqb Bool.eqb bind fst snd].
  rewrite re_sub_preamble by assumption. reflexivity.
Qed.

(** ** The codec on the examples of the format *)

Example decode_spam : decode_bytes (lit "4:spam") = Ok (PyBytes (lit "spam")).
Proof. reflexivity. Qed.

Example decode_integer : decode_bytes (lit "i42e") = Ok (PyInt 42).
Proof. reflexivity. Qed.

Example decode_list :
  decode_bytes (lit "l4:spam4:eggse")
  = Ok (PyList [PyBytes (lit "spam"); PyBytes (lit "eggs")]).
Proof. reflexivity. Qed.

Example decode_dict :
  decode_bytes (lit "d3:cow3:moo4:spam4:eggse")
  = Ok (PyDict [(PyBytes (lit "cow"), PyBytes (lit "moo"));
                (PyBytes (lit "spam"), PyBytes (lit "eggs"))]).
Proof. reflexivity. Qed.

Example decode_leading_zero : decode_bytes (lit "i042e") = Raise NoParseError.
Proof. reflexivity. Qed.

Example decode_minus :
  decode_bytes (lit "i-0e") = Raise (DecodeError (SyntaxError (0, 1) 45)).
Proof. reflexivity. Qed.

Example decode_unterminated : decode_bytes (lit "i") = Raise NoParseError.
Proof. reflexivity. Qed.

Example decode_list_key :
  decode_bytes (lit "dle1:ae") = Raise (TypeError "list").
Proof. reflexivity. Qed.

Example decode_overrun_in_list :
  decode_bytes (lit "l5:abce") = Raise NoParseError.
Proof. reflexivity. Qed.

Example decode_overrun_in_dict :
  decode_bytes (lit "d1:a5:bc") = Raise NoParseError.
Proof. reflexivity. Qed.

Example encode_dict :
  encode_bytes (PyDict [(PyBytes (lit "cow"), PyBytes (lit "moo"))])
  = Ok (lit "d3:cow3:mooe").
Proof. reflexivity. Qed.

(** ** The codec: properties *)

(** C1, on the code.  The encoder writes an integer as [i], then as many
    zero bytes as the integer says, then [e]: [b"ie"] for 0, not [b"i0e"];
    and it raises [ValueError] for -42, where [b"i-42e"] is expected. *)
Theorem encode_bytes_Integer :
  encode_bytes (PyInt 0) = Ok (lit "ie") /\
  encode_bytes (PyInt 0) <> Ok (lit "i0e") /\
  encode_bytes (PyInt (-42)) = Raise ValueError /\
  forall i,
    encode_bytes (PyInt i)
    = if i <? 0 then Raise ValueError
      else Ok (lit "i" ++ repeat 0 (Z.to_nat i) ++ lit "e").
Proof.
  split; [reflexivity|]. split; [discriminate|]. split; [reflexivity|].
  intros i. cbn [encode_bytes]. unfold bytes_of_int.
  destruct (i <? 0); reflexivity.
Qed.

(** C2, on the code.  The Value [Integer(0)] does not survive the round
    trip: its encoding [b"ie"] has no Number token, and decoding it raises
    [NoParseError]; nor does the empty ByteString, whose encoding [b"0:"]
    is rejected by the lexer. *)
Theorem roundtrip_Integer_zero :
  is_Value (PyInt 0) /\ roundtrip (PyInt 0) = Raise NoParseError /\
  is_Value (PyBytes []) /\
  roundtrip (PyBytes []) = Raise (DecodeError (SyntaxError (0, 1) 58)).
Proof.
  split; [constructor|]. split; [reflexivity|].
  split; [constructor | reflexivity].
Qed.

(** C3, on the code.  [decode_bytes] catches [LexerError] only, so of the
    failures of decoding only those of the lexer are wrapped in a
    [DecodeError]: a stray byte is, while the empty buffer, an integer
    that is not closed, a second value behind the first and an integer
    literal with a leading zero leave [decode_bytes] as funcparserlib's
    [NoParseError], and a list as a key as the [TypeError] of [dict()].
    Once the lexer has returned its tokens, nothing is wrapped at all. *)
Theorem decode_bytes_grammar_error_not_wrapped :
  decode_bytes (lit "") = Raise NoParseError /\
  decode_bytes (lit "i1") = Raise NoParseError /\
  decode_bytes (lit "i1ei2e") = Raise NoParseError /\
  decode_bytes (lit "i042e") = Raise NoParseError /\
  decode_bytes (lit "dle1:ae") = Raise (TypeError "list") /\
  decode_bytes (lit "i1e:") = Raise (DecodeError (SyntaxError (0, 3) 58)) /\
  forall source tokens,
    tokenize source = Ok tokens ->
    forall cause, decode_bytes source <> Raise (DecodeError cause).
Proof.
  do 6 (split; [reflexivity|]).
  intros source tokens Ht cause. unfold decode_bytes. rewrite Ht. cbn [bind].
  destruct (tokenize_total source) as [(tokens' & Ht' & Hlit)|(p & c & Ht')];
    rewrite Ht in Ht'; [|discriminate].
  injection Ht' as <-.
  destruct (decode_tokens_outcome _ Hlit) as [(v & ->)|[->|(t & ->)]];
    cbn [is_LexerError]; discriminate.
Qed.

Lemma decode_bytes_grammar_error_not_wrapped_witness :
  tokenize (lit "i1")
  = Ok [token_at (0, 0) "Type" (lit "i"); token_at (0, 1) "Number" (lit "1")]
  /\ decode_bytes (lit "i1") = Raise NoParseError
  /\ forall cause, decode_bytes (lit "i1") <> Raise (DecodeError cause).
Proof.
  split; [reflexivity|]. split; [reflexivity|].
  apply (proj2 (proj2 (proj2 (proj2 (proj2 (proj2
           decode_bytes_grammar_error_not_wrapped)))))
           (lit "i1")
           [token_at (0, 0) "Type" (lit "i");
            token_at (0, 1) "Number" (lit "1")]).
  reflexivity.
Defined.

(** C4, counterexample.  A dictionary that has the key [a] twice decodes,
    to a dict in which [a] holds the later value. *)
Lemma decode_bytes_duplicate_key :
  decode_bytes (lit "d1:a1:b1:a1:ce")
  = Ok (PyDict [(PyBytes (lit "a"), PyBytes (lit "c"))]).
Proof. reflexivity. Qed.

(** C4, amended.  For every buffer that spells a dictionary, whether or not
    a key occurs in two of its pairs, decoding succeeds and returns a dict
    in which no key occurs twice and every key holds the value of the last
    pair that has it. *)
Theorem decode_bytes_dict_last_wins (pairs : list (syntax * syntax)) :
  lexable (SDict pairs) = true ->
  exists d,
    decode_bytes (render (SDict pairs)) = Ok (PyDict d) /\
    distinct_keys d = true /\
    forall k,
      lookup k d
      = lookup k (rev (map (fun kv => (denote (fst kv), denote (snd kv)))
                         pairs)).
Proof.
  intros Hl. rewrite (decode_bytes_render _ Hl). cbn [denote].
  eexists. split; [reflexivity|]. split; [apply distinct_keys_dict_of|].
  intros k. rewrite lookup_dict_of. do 2 f_equal.
  apply map_ext. intros [k0 v0]. reflexivity.
Qed.

Lemma decode_bytes_dict_last_wins_witness :
  exists d,
    decode_bytes (render (SDict [(SStr (lit "a"), SStr (lit "b"));
                                 (SStr (lit "a"), SStr (lit "c"))]))
    = Ok (PyDict d) /\
    distinct_keys d = true /\
    forall k,
      lookup k d
      = lookup k (rev (map (fun kv => (denote (fst kv), denote (snd kv)))
                         [(SStr (lit "a"), SStr (lit "b"));
                          (SStr (lit "a"), SStr (lit "c"))])).
Proof.
  apply (decode_bytes_dict_last_wins
           [(SStr (lit "a"), SStr (lit "b")); (SStr (lit "a"), SStr (lit "c"))]).
  reflexivity.
Defined.

(** C5, counterexample.  A dictionary whose key is the integer 1 decodes,
    to a dict that has the int 1 as a key. *)
Lemma decode_bytes_integer_key :
  decode_bytes (lit "di1e1:ae") = Ok (PyDict [(PyInt 1, PyBytes (lit "a"))]).
Proof. reflexivity. Qed.

(** C5, amended.  The grammar takes any value as a key: for every buffer
    that spells a dictionary in which the first element of some pair is an
    integer, decoding succeeds and returns a dict that has that int as a
    key. *)
Theorem decode_bytes_dict_integer_key (pairs : list (syntax * syntax)) (n : Z) :
  lexable (SDict pairs) = true ->
  In (SInt n) (map fst pairs) ->
  exists d v,
    decode_bytes (render (SDict pairs)) = Ok (PyDict d) /\
    lookup (PyInt n) d = Some v.
Proof.
  intros Hl Hin. rewrite (decode_bytes_render _ Hl). cbn [denote].
  apply in_map_iff in Hin as ([k v] & Hk & Hin). cbn [fst] in Hk. subst k.
  destruct (lookup_In (PyInt n) (denote v)
              (rev (map (fun kv : syntax * syntax =>
                           let '(k, v) := kv in (denote k, denote v)) pairs)))
    as (w & Hw).
  - apply in_rev. rewrite rev_involutive.
    apply in_map_iff. exists (SInt n, v). split; [reflexivity | exact Hin].
  - cbn [key_eqb]. apply Z.eqb_refl.
  - eexists. exists w. split; [reflexivity|].
    rewrite lookup_dict_of. exact Hw.
Qed.

Lemma decode_bytes_dict_integer_key_witness :
  exists d v,
    decode_bytes (render (SDict [(SInt 1, SStr (lit "a"))])) = Ok (PyDict d) /\
    lookup (PyInt 1) d = Some v.
Proof.
  apply (decode_bytes_dict_integer_key [(SInt 1, SStr (lit "a"))] 1).
  - reflexivity.
  - left. reflexivity.
Defined.

Lemma alt_Ok {A : Type} (p q : Parser A) tokens r :
  alt p q tokens = Ok r -> p tokens = Ok r \/ q tokens = Ok r.
Proof.
  unfold alt. destruct (p tokens) as [x|e|]; [auto| |discriminate].
  destruct e; try discriminate. auto.
Qed.

(** What [lexer_upto] has seen is how the loop begins. *)
Lemma lexer_upto_loop specs (source : bytes) target fuel :
  forall i pos before pos' fuel',
    lexer_upto fuel specs source i pos target = Some (before, pos') ->
    lexer_loop (List.length before + fuel') specs source i pos
    = (r <- lexer_loop fuel' specs source target pos' ;; Ok (before ++ r)).
Proof.
  induction fuel as [|fuel IH]; intros i pos before pos' fuel';
    cbn [lexer_upto]; [discriminate|].
  destruct (i =? target)%nat eqn:Ei.
  - apply Nat.eqb_eq in Ei. subst i. intros H. injection H as <- <-.
    cbn [List.length Nat.add app]. symmetry. apply bind_Ok.
  - destruct (i <? List.length source)%nat eqn:El; [|discriminate].
    destruct (match_specs specs source i pos) as [t|e|] eqn:Et;
      try discriminate.
    destruct (lexer_upto fuel specs source _ _ target) as [[ts p]|] eqn:Eu;
      [|discriminate].
    intros H. injection H as <- <-.
    cbn [List.length Nat.add lexer_loop]. rewrite El, Et. cbn [bind].
    rewrite (IH _ _ _ _ fuel' Eu).
    destruct (lexer_loop fuel' specs source target p); reflexivity.
Qed.

(** What a parser leaves over is the end of what it was given. *)
Lemma many_span {A : Type} (p : Parser A) fuel :
  (forall tokens v rest, p tokens = Ok (v, rest) ->
                         exists consumed, tokens = consumed ++ rest) ->
  forall tokens vs rest,
    many fuel p tokens = Ok (vs, rest) ->
    exists consumed, tokens = consumed ++ rest.
Proof.
  intros Hp. induction fuel as [|fuel IH]; intros tokens vs rest;
    cbn [many]; [discriminate|].
  destruct (p tokens) as [[v r]|e|] eqn:Ep.
  - destruct (many fuel p r) as [[vs' r']|e|] eqn:Em; cbn [bind fst snd];
      try discriminate.
    intros H. injection H as _ <-.
    destruct (Hp _ _ _ Ep) as (c1 & ->). destruct (IH _ _ _ Em) as (c2 & ->).
    exists (c1 ++ c2). apply app_assoc.
  - destruct e; try discriminate. intros H. injection H as _ <-.
    exists []. reflexivity.
  - discriminate.
Qed.

(** The tokens of one value end in an End token, unless they are a single
    String token. *)
Lemma Value_span fuel : forall tokens v rest,
  Value fuel tokens = Ok (v, rest) ->
  exists consumed, tokens = consumed ++ rest /\ value_span consumed.
Proof.
  induction fuel as [|fuel IH]; intros tokens v rest; [discriminate|].
  assert (Hv : forall tokens v rest, Value fuel tokens = Ok (v, rest) ->
                 exists consumed, tokens = consumed ++ rest).
  { intros ts w r H. destruct (IH _ _ _ H) as (c & -> & _). eauto. }
  cbn [Value]. intros H.
  apply alt_Ok in H as [H|H].
  { revert H.
    unfold integer_decl, apply, then_skip, skip_then, type_decl, end_decl,
      integer, token_type, apply, token_value, a.
    destruct tokens as [|t1 r1]; cbn [some bind fst snd]; [discriminate|].
    destruct (Token_eq t1 _); cbn [bind fst snd]; [|discriminate].
    destruct r1 as [|t2 r2]; cbn [some bind fst snd]; [discriminate|].
    destruct (String.eqb (name t2) "Number"); cbn [bind fst snd];
      [|discriminate].
    destruct r2 as [|t3 r3]; cbn [some bind fst snd]; [discriminate|].
    destruct (Token_eq t3 _) eqn:E3; cbn [bind fst snd]; [|discriminate].
    destruct (_to_int (value t2)); cbn [bind]; try discriminate.
    intros H. injection H as _ <-.
    exists [t1; t2; t3]. split; [reflexivity|]. right.
    exists [t1; t2], t3. split; [reflexivity|].
    apply Token_eq_spec in E3. apply E3. }
  apply alt_Ok in H as [H|H].
  { revert H.
    unfold dict_decl, apply, then_skip, skip_then, type_decl, end_decl, a.
    destruct tokens as [|t1 r1]; cbn [some bind fst snd]; [discriminate|].
    destruct (Token_eq t1 _); cbn [bind fst snd]; [|discriminate].
    destruct (many fuel (seq (Value fuel) (Value fuel)) r1)
      as [[pairs r2]|e|] eqn:Em; cbn [bind fst snd]; try discriminate.
    assert (Hm : exists c, r1 = c ++ r2).
    { apply (many_span (seq (Value fuel) (Value fuel)) fuel) with (vs := pairs);
        [|exact Em].
      intros ts [k w] r. unfold seq.
      destruct (Value fuel ts) as [[k' rk]|e|] eqn:Ek; cbn [bind fst snd];
        try discriminate.
      destruct (Value fuel rk) as [[w' rw]|e|] eqn:Ew; cbn [bind fst snd];
        try discriminate.
      intros Heq. injection Heq as _ _ <-.
      destruct (Hv _ _ _ Ek) as (c1 & ->). destruct (Hv _ _ _ Ew) as (c2 & ->).
      exists (c1 ++ c2). apply app_assoc. }
    destruct Hm as (c & ->).
    destruct r2 as [|t2 r3]; cbn [some bind]; [discriminate|].
    destruct (Token_eq t2 _) eqn:E2; cbn [bind fst snd]; [|discriminate].
    destruct (_to_dict pairs); cbn [bind]; try discriminate.
    intros Heq. injection Heq as _ <-.
    exists (t1 :: c ++ [t2]). split.
    - cbn [app]. rewrite <- app_assoc. reflexivity.
    - right. exists (t1 :: c), t2. split; [reflexivity|].
      apply Token_eq_spec in E2. apply E2. }
  apply alt_Ok in H as [H|H].
  { revert H.
    unfold list_decl, apply, then_skip, skip_then, type_decl, end_decl, a.
    destruct tokens as [|t1 r1]; cbn [some bind fst snd]; [discriminate|].
    destruct (Token_eq t1 _); cbn [bind fst snd]; [|discriminate].
    destruct (many fuel (Value fuel) r1) as [[items r2]|e|] eqn:Em;
      cbn [bind fst snd]; try discriminate.
    destruct (many_span (Value fuel) fuel Hv _ _ _ Em) as (c & ->).
    destruct r2 as [|t2 r3]; cbn [some bind]; [discriminate|].
    destruct (Token_eq t2 _) eqn:E2; cbn [bind fst snd]; [|discriminate].
    intros Heq. injection Heq as _ <-.
    exists (t1 :: c ++ [t2]). split.
    - cbn [app]. rewrite <- app_assoc. reflexivity.
    - right. exists (t1 :: c), t2. split; [reflexivity|].
      apply Token_eq_spec in E2. apply E2. }
  revert H.
  unfold str_decl, token_type, apply, token_value, _to_string.
  destruct tokens as [|t1 r1]; cbn [some bind fst snd]; [discriminate|].
  destruct (String.eqb (name t1) "String") eqn:E1; cbn [bind fst snd];
    [|discriminate].
  intros H. injection H as _ <-.
  exists [t1]. split; [reflexivity|]. left. exists t1.
  split; [reflexivity | apply String.eqb_eq, E1].
Qed.

(** A sequence of tokens that ends in a String token and is decoded to an
    object is that one token. *)
Lemma decode_tokens_last_String before t v :
  name t = "String"%string ->
  decode_tokens (before ++ [t]) = Ok v -> before = [].
Proof.
  intros Hn. unfold decode_tokens, parse, bencode_decl, then_skip.
  destruct (Value _ (before ++ [t])) as [[w r]|e|] eqn:Ev; cbn [bind fst snd];
    try discriminate.
  destruct r as [|t' r']; cbn [finished bind]; [|discriminate].
  intros _. destruct (Value_span _ _ _ _ Ev) as (c & Hc & Hs).
  rewrite app_nil_r in Hc. subst c.
  destruct Hs as [(t0 & Ht0 & _)|(front & e & He & Hne)].
  - destruct before as [|b0 before]; [reflexivity|].
    destruct before; discriminate.
  - apply app_inj_tail in He as [_ <-]. rewrite Hn in Hne. discriminate.
Qed.

(** C6, counterexample.  The literal 5 is followed by three bytes only, and
    decoding succeeds with those three bytes. *)
Lemma decode_bytes_overrun :
  decode_bytes (lit "5:abc") = Ok (PyBytes (lit "abc")).
Proof. reflexivity. Qed.

(** C6, amended.  A byte string whose length prefix says more bytes than
    remain after the colon is no lexical error, wherever it starts: once
    the lexer stands at its first byte, the String token takes all the
    bytes that remain and is the last token, and [decode_bytes] raises no
    [DecodeError].  Where the string is the whole buffer it is decoded to
    the bytes that remain; where tokens come before it, nothing is
    decoded (the [e] that should close a list or a dictionary is within
    the string).  The length prefix is one that [int()] converts. *)
Theorem decode_bytes_overrunning_string (prefix : bytes) (n : Z)
  (tail : bytes) (before : list Token) (pos : position) :
  len tail < n ->
  (List.length (str_int n) <= 4300)%nat ->
  lexer_upto (S (List.length prefix)) bencode_specs
    (prefix ++ str_int n ++ lit ":" ++ tail) 0 (0, 0) (List.length prefix)
  = Some (before, pos) ->
  let token := str_int n ++ lit ":" ++ tail in
  tokenize (prefix ++ token) = Ok (before ++ [token_at pos "String" token]) /\
  (forall cause, decode_bytes (prefix ++ token) <> Raise (DecodeError cause)) /\
  (before = [] -> decode_bytes (prefix ++ token) = Ok (PyBytes tail)) /\
  (before <> [] -> forall v, decode_bytes (prefix ++ token) <> Ok v).
Proof.
  intros Hlen _ Hup token. pose proof (len_nonneg tail) as Hb.
  set (source := prefix ++ token).
  change (prefix ++ str_int n ++ lit ":" ++ tail) with source in Hup.
  assert (Hs : skipn (List.length prefix) source = token ++ []).
  { unfold source. rewrite skipn_app, skipn_all, Nat.sub_diag, app_nil_r.
    reflexivity. }
  assert (Hne : token <> []).
  { unfold token. intros H. apply app_eq_nil in H as [H _].
    exact (str_int_nonempty n H). }
  assert (Hm : match_specs bencode_specs source (List.length prefix) pos
               = Ok (token_at pos "String" token)).
  { rewrite app_nil_r in Hs. unfold token in Hs.
    change (lit ":" ++ tail) with (58 :: tail) in Hs.
    rewrite (match_specs_String source _ pos n tail) by (lia || exact Hs).
    rewrite firstn_all2 by (unfold len in Hlen; lia). reflexivity. }
  assert (Ht : tokenize source = Ok (before ++ [token_at pos "String" token])).
  { apply (tokenize_fuel source (List.length before + 2)).
    rewrite (lexer_upto_loop _ _ _ _ _ _ _ _ 2%nat Hup).
    rewrite (lexer_loop_step _ _ _ _ _ _ _ _ Hs Hne Hm).
    cbn [lexer_loop Nat.add].
    assert (E : (List.length prefix + List.length token
                 <? List.length source)%nat = false).
    { apply Nat.ltb_ge. unfold source. rewrite List.length_app. lia. }
    rewrite E. reflexivity. }
  assert (Hd : decode_bytes source
               = decode_tokens (before ++ [token_at pos "String" token]) /\
               forall cause, decode_bytes source <> Raise (DecodeError cause)).
  { unfold decode_bytes. rewrite Ht. cbn [bind].
    destruct (tokenize_total source) as [(tokens & Ht' & Hlit)|(p & c & Ht')];
      rewrite Ht in Ht'; [|discriminate].
    injection Ht' as <-.
    destruct (decode_tokens_outcome _ Hlit) as [(v & ->)|[->|(t & ->)]];
      cbn [is_LexerError]; split; (reflexivity || discriminate). }
  destruct Hd as [Hd Hnd].
  split; [exact Ht|]. split; [exact Hnd|]. split.
  - intros ->. rewrite Hd. cbn [app].
    unfold decode_tokens, parse, bencode_decl, then_skip. cbn [List.length].
    unfold token. change (lit ":" ++ tail) with (58 :: tail).
    rewrite Value_String by lia. reflexivity.
  - intros Hbefore v Hv. rewrite Hd in Hv.
    apply decode_tokens_last_String in Hv; [contradiction | reflexivity].
Qed.

Lemma decode_bytes_overrunning_string_witness :
  let token := str_int 5 ++ lit ":" ++ lit "abce" in
  tokenize (lit "l" ++ token)
  = Ok ([token_at (0, 0) "Type" (lit "l")]
        ++ [token_at (0, 1) "String" token]) /\
  (forall cause, decode_bytes (lit "l" ++ token) <> Raise (DecodeError cause)) /\
  ([token_at (0, 0) "Type" (lit "l")] = [] ->
   decode_bytes (lit "l" ++ token) = Ok (PyBytes (lit "abce"))) /\
  ([token_at (0, 0) "Type" (lit "l")] <> [] ->
   forall v, decode_bytes (lit "l" ++ token) <> Ok v).
Proof.
  apply (decode_bytes_overrunning_string (lit "l") 5 (lit "abce")
           [token_at (0, 0) "Type" (lit "l")] (0, 1)).
  - reflexivity.
  - vm_compute. lia.
  - reflexivity.
Defined.

(** C7, on the code.  The byte-string rule wants a length that starts with
    a digit 1-9, so the [0] of [b"0:"] is lexed as a Number and the colon
    is reported at column 1; yet [b"0:"] is what the encoder writes for the
    empty byte string. *)
Theorem decode_bytes_empty_string :
  decode_bytes (lit "0:") = Raise (DecodeError (SyntaxError (0, 1) 58)) /\
  encode_bytes (PyBytes (lit "")) = Ok (lit "0:").
Proof. split; reflexivity. Qed.

(** C9, counterexample.  A text string is none of the four variants, and
    the encoder accepts it. *)
Lemma encode_bytes_str :
  is_variant (PyStr (text "a")) = false /\
  encode_bytes (PyStr (text "a")) = Ok (lit "1:a").
Proof. split; reflexivity. Qed.

(** C9, amended.  Of the objects outside the four variants, a text string
    is encoded as the byte string of its UTF-8 encoding; every other one
    makes the encoder fail with an [EncodeError] that names its type. *)
Theorem encode_bytes_outside_variants (x : object) :
  is_variant x = false ->
  match x with
  | PyStr s => encode_bytes x = (b <- encode_utf8 s ;; encode_bytes (PyBytes b))
  | _ => encode_bytes x = Raise (EncodeError (type_name_of x))
  end.
Proof. destruct x; cbn [is_variant]; intros H; try discriminate; reflexivity. Qed.

Lemma encode_bytes_outside_variants_witness :
  encode_bytes PyNone = Raise (EncodeError "NoneType").
Proof. apply (encode_bytes_outside_variants PyNone). reflexivity. Defined.

(** C10.  When the lexer, with any rule set, comes to its normal end on a
    source, the spans of the tokens it has emitted, in order, make up the
    whole source; the first token starts at (0, 0) and every other token
    starts where the token before it ends.  [tokenize] is the case of the
    bencode rule set. *)
Theorem Lexer_tokens_cover_source (specs : list Spec) (source : bytes)
  (tokens : list Token) :
  Lexer specs source = Ok tokens ->
  List.concat (map value tokens) = source /\
  (forall t, hd_error tokens = Some t -> start t = Some (0, 0)) /\
  (forall i t1 t2,
      nth_error tokens i = Some t1 -> nth_error tokens (S i) = Some t2 ->
      start t2 = end_ t1).
Proof.
  intros H. apply lexer_loop_spans in H as [Hc Hch].
  split; [exact Hc|]. split.
  - intros t Ht. destruct tokens as [|t' tokens]; [discriminate|].
    injection Ht as ->. exact (proj1 Hch).
  - exact (chained_nth _ _ Hch).
Qed.

Lemma Lexer_tokens_cover_source_witness :
  List.concat (map value (tokens_at (0, 0) (spell (SInt 1)))) = lit "i1e" /\
  (forall t, hd_error (tokens_at (0, 0) (spell (SInt 1))) = Some t ->
             start t = Some (0, 0)) /\
  (forall i t1 t2,
      nth_error (tokens_at (0, 0) (spell (SInt 1))) i = Some t1 ->
      nth_error (tokens_at (0, 0) (spell (SInt 1))) (S i) = Some t2 ->
      start t2 = end_ t1).
Proof.
  apply (Lexer_tokens_cover_source bencode_specs (lit "i1e")). reflexivity.
Defined.

(** ** Further properties: positions *)

Lemma rfind_upper c l : rfind c l < len l.
Proof.
  induction l as [|x l IH]; cbn [rfind]; unfold len in *; cbn [List.length];
    [lia|].
  destruct (0 <=? rfind c l); [lia|]. destruct (x =? c); lia.
Qed.

(** The position after [a ++ b] is the position after [b], from the position
    after [a]. *)
Lemma position_after_app (a b : bytes) (p : position) :
  get_new_position (a ++ b) p = get_new_position b (get_new_position a p).
Proof.
  destruct p as [line character]. unfold get_new_position.
  rewrite count_app, len_app.
  pose proof (count_nonneg newline a) as Ha.
  pose proof (count_nonneg newline b) as Hb.
  destruct (0 <? count newline b) eqn:Eb.
  - apply Z.ltb_lt in Eb.
    assert (E : (0 <? count newline a + count newline b) = true)
      by (apply Z.ltb_lt; lia).
    rewrite E, (rfind_app_right _ a b Eb).
    f_equal; lia.
  - apply Z.ltb_ge in Eb. assert (Hb0 : count newline b = 0) by lia.
    rewrite (rfind_app_left _ a b Hb0), Hb0, !Z.add_0_r.
    destruct (0 <? count newline a); f_equal; lia.
Qed.

Lemma position_after_nil (p : position) : get_new_position [] p = p.
Proof.
  destruct p as [line character]. unfold get_new_position, len.
  cbn [count List.length Z.ltb Z.compare Z.of_nat]. rewrite !Z.add_0_r.
  reflexivity.
Qed.

(** X1.  From a column that is not negative, the position tracker never
    moves the line back and never yields a negative column. *)
Theorem get_new_position_bounds (source_delta : bytes) (p : position) :
  0 <= snd p ->
  fst p <= fst (get_new_position source_delta p) /\
  0 <= snd (get_new_position source_delta p).
Proof.
  destruct p as [line character]. cbn [fst snd]. intros Hc.
  unfold get_new_position.
  pose proof (count_nonneg newline source_delta).
  pose proof (rfind_upper newline source_delta).
  pose proof (len_nonneg source_delta).
  destruct (0 <? count newline source_delta); cbn [fst snd]; lia.
Qed.

Lemma get_new_position_bounds_witness :
  fst (3, 4) <= fst (get_new_position (lit "ab") (3, 4)) /\
  0 <= snd (get_new_position (lit "ab") (3, 4)).
Proof. apply (get_new_position_bounds (lit "ab") (3, 4)). cbn. lia. Defined.

(** X2.  After a newline the column counts the bytes since that newline,
    whatever the start column and whatever came before: over
    [a ++ b"\n" ++ b] with no newline in [b], the line advances by the
    newlines of [a] plus one and the column is [len(b)]. *)
Theorem get_new_position_after_newline (a b : bytes) (p : position) :
  count newline b = 0 ->
  get_new_position (a ++ newline :: b) p
  = (fst p + count newline a + 1, len b).
Proof.
  intros Hb. destruct p as [line character]. cbn [fst].
  unfold get_new_position.
  pose proof (count_nonneg newline a) as Ha.
  assert (Hc : count newline (newline :: b) = 1).
  { cbn [count]. rewrite Hb. reflexivity. }
  rewrite count_app, Hc, len_app.
  assert (E : (0 <? count newline a + 1) = true) by (apply Z.ltb_lt; lia).
  rewrite E, rfind_app_right by lia.
  cbn [rfind]. rewrite (rfind_absent _ _ Hb).
  change (0 <=? -1) with false. cbn beta iota.
  change (newline =? newline) with true. cbn beta iota.
  unfold len. cbn [List.length]. f_equal; lia.
Qed.

Lemma get_new_position_after_newline_witness :
  get_new_position (lit "ab" ++ newline :: lit "cde") (0, 7)
  = (fst (0, 7) + count newline (lit "ab") + 1, len (lit "cde")).
Proof.
  apply (get_new_position_after_newline (lit "ab") (lit "cde") (0, 7)).
  reflexivity.
Defined.
(** ** Further properties: the lexer with any rule set *)

Lemma lexer_loop_located specs (source : bytes) fuel : forall i pos tokens,
  lexer_loop fuel specs source i pos = Ok tokens -> located pos tokens.
Proof.
  induction fuel as [|fuel IH]; intros i pos tokens; cbn [lexer_loop];
    [discriminate|].
  destruct (i <? List.length source)%nat.
  - destruct (match_specs specs source i pos) as [t| |] eqn:Et; cbn [bind];
      try discriminate.
    destruct (match_specs_token _ _ _ _ _ Et) as (_ & Hs & He).
    rewrite He.
    destruct (lexer_loop fuel specs source (i + List.length (value t))
                (get_new_position (value t) pos)) as [rest| |] eqn:Er;
      cbn [bind]; try discriminate.
    intros H. injection H as <-. cbn [located].
    split; [exact Hs|]. split; [exact He|]. exact (IH _ _ _ Er).
  - intros H. injection H as <-. exact I.
Qed.

Lemma located_split pos before t after :
  located pos (before ++ t :: after) ->
  start t = Some (get_new_position (List.concat (map value before)) pos) /\
  end_ t
  = Some (get_new_position (List.concat (map value before) ++ value t) pos).
Proof.
  revert pos. induction before as [|t0 before IH]; intros pos H.
  - cbn [app located] in H. destruct H as (Hs & He & _).
    cbn [map List.concat app]. rewrite position_after_nil.
    split; assumption.
  - cbn [app located] in H. destruct H as (_ & _ & H).
    destruct (IH _ H) as [Hs He].
    cbn [map List.concat]. rewrite <- app_assoc, !position_after_app.
    rewrite position_after_app in He. split; assumption.
Qed.

(** X3.  The positions on the tokens are the positions in the source: when
    the lexer comes to its normal end, every token starts at the position
    that the position tracker gives for the source bytes before it, counted
    from (0, 0), and ends at the position it gives for the bytes up to and
    with the token. *)
Theorem Lexer_token_positions (specs : list Spec) (source : bytes)
  (before after : list Token) (t : Token) :
  Lexer specs source = Ok (before ++ t :: after) ->
  source
  = List.concat (map value before) ++ value t
    ++ List.concat (map value after) /\
  start t = Some (get_new_position (List.concat (map value before)) (0, 0)) /\
  end_ t
  = Some (get_new_position (List.concat (map value before) ++ value t)
            (0, 0)).
Proof.
  intros H. unfold Lexer in H. split.
  - apply lexer_loop_spans in H as [Hc _]. cbn [skipn] in Hc.
    rewrite <- Hc, map_app, concat_app. reflexivity.
  - apply lexer_loop_located in H. exact (located_split _ _ _ _ H).
Qed.

Lemma Lexer_token_positions_witness :
  lit "i1e"
  = List.concat (map value [token_at (0, 0) "Type" (lit "i")])
    ++ value (token_at (0, 1) "Number" (lit "1"))
    ++ List.concat (map value [token_at (0, 2) "End" (lit "e")]) /\
  start (token_at (0, 1) "Number" (lit "1"))
  = Some (get_new_position
            (List.concat (map value [token_at (0, 0) "Type" (lit "i")]))
            (0, 0)) /\
  end_ (token_at (0, 1) "Number" (lit "1"))
  = Some (get_new_position
            (List.concat (map value [token_at (0, 0) "Type" (lit "i")])
             ++ value (token_at (0, 1) "Number" (lit "1"))) (0, 0)).
Proof.
  apply (Lexer_token_positions bencode_specs (lit "i1e")
           [token_at (0, 0) "Type" (lit "i")]
           [token_at (0, 2) "End" (lit "e")]
           (token_at (0, 1) "Number" (lit "1"))).
  reflexivity.
Defined.

Lemma lexer_loop_stuck specs (source : bytes) i pos t :
  match_specs specs source i pos = Ok t -> value t = [] ->
  (i < List.length source)%nat ->
  forall fuel, lexer_loop fuel specs source i pos = Diverge.
Proof.
  intros Ht Hv Hi fuel.
  destruct (match_specs_token _ _ _ _ _ Ht) as (_ & _ & He).
  rewrite Hv, position_after_nil in He.
  induction fuel as [|fuel IH]; cbn [lexer_loop]; [reflexivity|].
  apply Nat.ltb_lt in Hi. rewrite Hi, Ht. cbn [bind].
  rewrite He, Hv. cbn [List.length]. rewrite Nat.add_0_r, IH. reflexivity.
Qed.

Lemma lexer_loop_nonempty specs (source : bytes) fuel : forall i pos tokens,
  lexer_loop fuel specs source i pos = Ok tokens ->
  Forall (fun t => value t <> []) tokens.
Proof.
  induction fuel as [|fuel IH]; intros i pos tokens; cbn [lexer_loop];
    [discriminate|].
  destruct (i <? List.length source)%nat eqn:Ei.
  - apply Nat.ltb_lt in Ei.
    destruct (match_specs specs source i pos) as [t| |] eqn:Et; cbn [bind];
      try discriminate.
    destruct (match_specs_token _ _ _ _ _ Et) as (_ & _ & He). rewrite He.
    destruct (value t) as [|c v] eqn:Ev.
    + cbn [List.length]. rewrite Nat.add_0_r, position_after_nil.
      rewrite (lexer_loop_stuck _ _ _ _ _ Et Ev Ei). discriminate.
    + destruct (lexer_loop fuel specs source _ _) as [rest| |] eqn:Er;
        cbn [bind]; try discriminate.
      intros H. injection H as <-. constructor.
      * rewrite Ev. discriminate.
      * exact (IH _ _ _ Er).
  - intros H. injection H as <-. constructor.
Qed.

Lemma length_concat_nonempty {A : Type} (ls : list (list A)) :
  Forall (fun l => l <> []) ls ->
  (List.length ls <= List.length (List.concat ls))%nat.
Proof.
  induction 1 as [|l ls Hl _ IH]; cbn [List.concat List.length]; [lia|].
  rewrite List.length_app. destruct l; [contradiction | cbn [List.length]; lia].
Qed.

(** X4.  The lexer never emits an empty token: when it comes to its normal
    end, with any rule set, every token holds at least one byte, and so
    there are at most as many tokens as bytes in the source.  (A rule that
    matches the empty span makes the loop stay where it is.) *)
Theorem Lexer_tokens_nonempty (specs : list Spec) (source : bytes)
  (tokens : list Token) :
  Lexer specs source = Ok tokens ->
  Forall (fun t => value t <> []) tokens /\
  (List.length tokens <= List.length source)%nat.
Proof.
  intros H. pose proof (lexer_loop_nonempty _ _ _ _ _ _ H) as Hne.
  split; [exact Hne|].
  apply lexer_loop_spans in H as [Hc _]. cbn [skipn] in Hc. rewrite <- Hc.
  rewrite <- (List.length_map value tokens).
  apply length_concat_nonempty.
  rewrite Forall_forall in Hne |- *. intros v Hv.
  apply in_map_iff in Hv as (t & <- & Ht). exact (Hne t Ht).
Qed.

Lemma Lexer_tokens_nonempty_witness :
  Forall (fun t => value t <> []) (tokens_at (0, 0) (spell (SInt 1))) /\
  (List.length (tokens_at (0%Z, 0%Z) (spell (SInt 1)))
   <= List.length (lit "i1e"))%nat.
Proof.
  apply (Lexer_tokens_nonempty bencode_specs (lit "i1e")). reflexivity.
Defined.
(** ** Further properties: the bencode rule set *)

Lemma nth_skipn_cons {A : Type} (l : list A) i c s' d :
  skipn i l = c :: s' -> nth i l d = c.
Proof.
  revert l. induction i as [|i IH]; intros l H.
  - cbn in H. subst l. reflexivity.
  - destruct l as [|x l]; [discriminate|]. cbn in H |- *. apply IH, H.
Qed.

Lemma token_start_false c :
  token_start c = false ->
  nonzero_digit c = false /\ (c =? 48) = false /\
  one_of (lit "ild") c = false /\ (c =? 101) = false.
Proof.
  unfold token_start, one_of, is_digit, nonzero_digit. cbn [lit existsb
    list_ascii_of_string map].
  cbn. rewrite !orb_false_iff, !andb_false_iff, !Z.leb_gt, !Z.eqb_neq.
  intros H. repeat split; try tauto; lia.
Qed.

(** A byte that starts no token is reported. *)
Lemma match_specs_stray (source : bytes) i pos (c : byte) (s' : bytes) :
  skipn i source = c :: s' -> token_start c = false ->
  match_specs bencode_specs source i pos = Raise (SyntaxError pos c).
Proof.
  intros Hs Hc. destruct (token_start_false c Hc) as (H1 & H2 & H3 & H4).
  unfold bencode_specs. cbn [match_specs match_spec].
  rewrite re_match_preamble, re_match_number. unfold type_re, end_re.
  rewrite re_match_class, re_match_chr, Hs, H1, H2, H3, H4. cbn [bind].
  rewrite (nth_skipn_cons _ _ _ _ _ Hs). reflexivity.
Qed.

(** A byte that starts a token is not. *)
Lemma match_specs_raises (source : bytes) i pos e :
  (i < List.length source)%nat ->
  match_specs bencode_specs source i pos = Raise e ->
  exists c s', skipn i source = c :: s' /\ e = SyntaxError pos c /\
               token_start c = false.
Proof.
  intros Hi He.
  destruct (skipn i source) as [|c s'] eqn:Hs.
  { apply (f_equal (@List.length _)) in Hs. rewrite List.length_skipn in Hs.
    cbn in Hs. lia. }
  exists c, s'. split; [reflexivity|].
  destruct (token_start c) eqn:Hc.
  - exfalso. revert He. unfold bencode_specs. cbn [match_specs match_spec].
    rewrite re_match_preamble, re_match_number. unfold type_re, end_re.
    rewrite re_match_class, re_match_chr, Hs.
    assert (Hstr : forall o : option Match,
               (forall m, o = Some m ->
                          exists d ds, groups m = [d :: ds] /\
                                       forallb is_digit (d :: ds) = true) ->
               forall k : outcome Token,
                 (forall e', k <> Raise e') ->
                 (token <- match o with
                           | Some m =>
                               str_length <- py_int (nth 0 (groups m) []) ;;
                               Ok (Some
                                     (mkToken "String"
                                        (slice source i
                                           (i + List.length (group0 m)
                                            + Z.to_nat str_length))
                                        (Some pos)
                                        (Some
                                           (get_new_position
                                              (slice source i
                                                 (i + List.length (group0 m)
                                                  + Z.to_nat str_length))
                                              pos))))
                           | None => Ok None
                           end ;;
                  match token with Some t => Ok t | None => k end)
                 <> Raise e).
    { intros [m|] Hm k Hk; cbn [bind]; [|apply Hk].
      destruct (Hm m eq_refl) as (d & ds & -> & Hd). cbn [nth].
      rewrite (py_int_digits d ds Hd). discriminate. }
    apply Hstr.
    + intros m Hm. destruct (nonzero_digit c) eqn:Ec; [|discriminate].
      destruct (dropwhile is_digit s') as [|x s2]; [discriminate|].
      destruct (x =? 58); [|discriminate]. injection Hm as <-.
      cbn [groups]. do 2 eexists. split; [reflexivity|].
      cbn [forallb]. rewrite (nonzero_is_digit c Ec), forallb_takewhile.
      reflexivity.
    + intros e'. destruct (c =? 48) eqn:E0; cbn [bind]; [discriminate|].
      destruct (nonzero_digit c) eqn:Ec; cbn [bind]; [discriminate|].
      destruct (one_of (lit "ild") c) eqn:Et; cbn [bind]; [discriminate|].
      destruct (c =? 101) eqn:Ee; cbn [bind]; [discriminate|].
      exfalso. revert Hc. unfold token_start, is_digit, one_of in *.
      cbn in Et |- *.
      apply Z.eqb_neq in E0, Ee.
      unfold nonzero_digit in Ec. apply andb_false_iff in Ec.
      rewrite !Z.leb_gt in Ec. rewrite !orb_false_iff, !Z.eqb_neq in Et.
      intros Hc.
      rewrite !orb_true_iff, andb_true_iff, !Z.leb_le, !Z.eqb_eq in Hc.
      lia.
  - rewrite (match_specs_stray _ _ _ _ _ Hs Hc) in He. injection He as <-.
    split; reflexivity.
Qed.

Lemma span_then_rest {A : Type} (l : list A) i k :
  skipn i l
  = firstn k (skipn i l)
    ++ skipn (i + List.length (firstn k (skipn i l))) l.
Proof.
  rewrite Nat.add_comm, <- skipn_skipn.
  pose proof (firstn_length_firstn k (skipn i l)) as E.
  remember (List.length (firstn k (skipn i l))) as n.
  rewrite <- E. symmetry. apply firstn_skipn.
Qed.

(** When the loop fails, it fails on a byte that starts no token, with the
    position that the bytes before it lead to. *)
Lemma lexer_loop_raises (source : bytes) fuel : forall i pos e,
  lexer_loop fuel bencode_specs source i pos = Raise e ->
  exists (prefix : bytes) (c : byte) (rest : bytes),
    skipn i source = prefix ++ c :: rest /\
    e = SyntaxError (get_new_position prefix pos) c /\
    token_start c = false.
Proof.
  induction fuel as [|fuel IH]; intros i pos e; cbn [lexer_loop];
    [discriminate|].
  destruct (i <? List.length source)%nat eqn:Ei; [|discriminate].
  apply Nat.ltb_lt in Ei.
  destruct (match_specs bencode_specs source i pos) as [t|e'|] eqn:Et;
    cbn [bind]; [| |discriminate].
  - destruct (match_specs_token _ _ _ _ _ Et) as ((k & Hv) & _ & He).
    rewrite He.
    destruct (lexer_loop fuel bencode_specs source _ _) as [r|e'|] eqn:Er;
      cbn [bind]; try discriminate.
    intros H. injection H as <-.
    destruct (IH _ _ _ Er) as (prefix & c & rest & Hs & -> & Hc).
    exists (value t ++ prefix), c, rest. split; [|split].
    + rewrite <- app_assoc, <- Hs, Hv. apply span_then_rest.
    + rewrite position_after_app. reflexivity.
    + exact Hc.
  - intros H. injection H as <-.
    destruct (match_specs_raises _ _ _ _ Ei Et) as (c & s' & Hs & -> & Hc).
    exists [], c, s'. rewrite position_after_nil. auto.
Qed.

(** X5.  The loop of the bencode lexer comes to an end on every buffer.
    When it raises [SyntaxError], that is for a byte of the source that
    starts no token (no digit and none of [i], [l], [d], [e]), with the
    line and column that the position tracker gives for the bytes before
    that byte. *)
Theorem tokenize_ends (source : bytes) :
  tokenize source <> Diverge /\
  forall pos c,
    tokenize source = Raise (SyntaxError pos c) ->
    exists (prefix rest : bytes),
      source = prefix ++ c :: rest /\
      pos = get_new_position prefix (0, 0) /\
      token_start c = false.
Proof.
  split.
  - destruct (tokenize_total source) as [(tokens & Ht & _)|(p & c & Ht)];
      rewrite Ht; discriminate.
  - intros pos c Ht. unfold tokenize, Lexer in Ht.
    destruct (lexer_loop_raises _ _ _ _ _ Ht)
      as (prefix & c' & rest & Hs & He & Hc).
    injection He as -> ->. cbn [skipn] in Hs. eauto.
Qed.

Lemma tokenize_ends_witness :
  exists (prefix rest : bytes),
    lit "i1e:" = prefix ++ 58 :: rest /\
    (0, 3) = get_new_position prefix (0, 0) /\
    token_start 58 = false.
Proof.
  apply (proj2 (tokenize_ends (lit "i1e:")) (0, 3) 58). reflexivity.
Defined.

Lemma tokenize_by_fuel (source : bytes) fuel r :
  lexer_loop fuel bencode_specs source 0 (0, 0) = r -> r <> Diverge ->
  tokenize source = r.
Proof.
  intros E Hr. unfold tokenize, Lexer. rewrite <- E. apply lexer_loop_fuel.
  - destruct (tokenize_total source) as [(tokens' & Ht & _)|(p & c & Ht)];
      unfold tokenize, Lexer in Ht; rewrite Ht; discriminate.
  - rewrite E. exact Hr.
Qed.

Lemma endpos_concat pos sp :
  endpos pos sp = get_new_position (List.concat (map snd sp)) pos.
Proof.
  revert pos. induction sp as [|[n v] sp IH]; intros pos;
    cbn [endpos map snd List.concat].
  - symmetry. apply position_after_nil.
  - rewrite IH, position_after_app. reflexivity.
Qed.

Lemma concat_flat_map_spans {A : Type} (g : A -> list (string * bytes))
  (f : A -> bytes) (l : list A) :
  Forall (fun x => List.concat (map snd (g x)) = f x) l ->
  List.concat (map snd (flat_map g l)) = flat_map f l.
Proof.
  induction 1 as [|x l Hx _ IH]; cbn [flat_map map List.concat];
    [reflexivity|].
  rewrite map_app, concat_app, Hx, IH. reflexivity.
Qed.

(** The spans of the tokens of [s] make up the buffer that spells [s]. *)
Lemma spell_render s : List.concat (map snd (spell s)) = render s.
Proof.
  induction s as [n|b|items IH|pairs IH] using syntax_induction;
    cbn [spell render].
  - cbn [map snd List.concat]. rewrite app_nil_r. reflexivity.
  - cbn [map snd List.concat]. rewrite app_nil_r. reflexivity.
  - cbn [map snd List.concat]. rewrite map_app, concat_app.
    rewrite (concat_flat_map_spans spell render items IH).
    cbn [map snd List.concat]. rewrite app_nil_r. reflexivity.
  - cbn [map snd List.concat]. rewrite map_app, concat_app.
    rewrite (concat_flat_map_spans
               (fun kv : syntax * syntax =>
                  let '(k, v) := kv in spell k ++ spell v)
               (fun kv : syntax * syntax =>
                  let '(k, v) := kv in render k ++ render v) pairs).
    + cbn [map snd List.concat]. rewrite app_nil_r. reflexivity.
    + rewrite Forall_forall in IH |- *. intros [k v] Hkv.
      destruct (IH _ Hkv) as [Hk Hv]. cbn [fst snd] in *.
      rewrite map_app, concat_app, Hk, Hv. reflexivity.
Qed.

Lemma lexes_items items :
  forallb lexable items = true ->
  lexes_to (flat_map render items) (flat_map spell items).
Proof.
  intros H. apply lexes_flat_map. rewrite forallb_forall in H.
  rewrite Forall_forall. intros s Hs. apply lexes_render, H, Hs.
Qed.

(** A byte that starts no token, behind a span that is lexed into tokens,
    is reported at the position behind those tokens. *)
Lemma tokenize_stray (bs : bytes) sp (c : byte) (rest : bytes) :
  lexes_to bs sp -> token_start c = false ->
  tokenize (bs ++ c :: rest) = Raise (SyntaxError (endpos (0, 0) sp) c).
Proof.
  intros Hlex Hc.
  apply (tokenize_by_fuel _ (List.length sp + 1)); [|discriminate].
  rewrite (Hlex (bs ++ c :: rest) 0%nat (c :: rest) 1%nat (0, 0) eq_refl).
  cbn [lexer_loop Nat.add].
  assert (Hs : skipn (List.length bs) (bs ++ c :: rest) = c :: rest).
  { rewrite skipn_app, skipn_all, Nat.sub_diag. reflexivity. }
  assert (Hi : (List.length bs <? List.length (bs ++ c :: rest))%nat = true).
  { apply Nat.ltb_lt. rewrite List.length_app. cbn [List.length]. lia. }
  rewrite Hi, (match_specs_stray _ _ _ _ _ Hs Hc). reflexivity.
Qed.

(** X6.  A byte that starts no token, after any number of complete values,
    makes decoding fail with a [DecodeError] whose cause is the
    [SyntaxError] for that byte, at the line and column where the byte
    stands in the buffer. *)
Theorem decode_bytes_stray_byte (items : list syntax) (c : byte)
  (rest : bytes) :
  forallb lexable items = true ->
  token_start c = false ->
  decode_bytes (flat_map render items ++ c :: rest)
  = Raise (DecodeError
             (SyntaxError (get_new_position (flat_map render items) (0, 0))
                c)).
Proof.
  intros Hl Hc. unfold decode_bytes.
  rewrite (tokenize_stray _ _ c rest (lexes_items items Hl) Hc).
  rewrite endpos_concat.
  rewrite (concat_flat_map_spans spell render items); [reflexivity|].
  rewrite Forall_forall. intros s _. apply spell_render.
Qed.

Lemma decode_bytes_stray_byte_witness :
  decode_bytes (flat_map render [SStr (lit "ab")] ++ 120 :: lit "yz")
  = Raise (DecodeError
             (SyntaxError
                (get_new_position (flat_map render [SStr (lit "ab")]) (0, 0))
                120)).
Proof.
  apply (decode_bytes_stray_byte [SStr (lit "ab")] 120 (lit "yz"));
    reflexivity.
Defined.

(** ** Further properties: the shape of the tokens *)

Lemma lexer_loop_Forall (Q : Token -> Prop) specs (source : bytes) :
  (forall i pos t, match_specs specs source i pos = Ok t -> Q t) ->
  forall fuel i pos tokens,
    lexer_loop fuel specs source i pos = Ok tokens -> Forall Q tokens.
Proof.
  intros HQ. induction fuel as [|fuel IH]; intros i pos tokens;
    cbn [lexer_loop]; [discriminate|].
  destruct (i <? List.length source)%nat.
  - destruct (match_specs specs source i pos) as [t| |] eqn:Et; cbn [bind];
      try discriminate.
    destruct (lexer_loop fuel specs source _ _) as [rest| |] eqn:Er;
      cbn [bind]; try discriminate.
    intros H. injection H as <-. constructor; [exact (HQ _ _ _ Et)|].
    exact (IH _ _ _ Er).
  - intros H. injection H as <-. constructor.
Qed.

Lemma decimal_value_nonneg l :
  forallb is_digit l = true -> 0 <= decimal_value l.
Proof.
  unfold decimal_value.
  assert (H : forall acc, 0 <= acc -> forallb is_digit l = true ->
                0 <= fold_left (fun acc c => 10 * acc + (c - 48)) l acc).
  { induction l as [|c l IH]; intros acc Hacc Hd; cbn [fold_left];
      [exact Hacc|].
    cbn [forallb] in Hd. apply andb_true_iff in Hd as [Hc Hd].
    apply is_digit_spec in Hc. apply IH; [lia | exact Hd]. }
  apply H. lia.
Qed.

Lemma re_sub_digits c ds (body : bytes) :
  forallb is_digit (c :: ds) = true ->
  re_sub_at_start str_strip_re [] ((c :: ds) ++ 58 :: body) = body.
Proof.
  intros Hd. unfold re_sub_at_start. rewrite re_match_str_strip.
  cbn [app]. cbn [forallb] in Hd. apply andb_true_iff in Hd as [Hc Hds].
  rewrite Hc.
  destruct (takewhile_run is_digit ds 58 body Hds eq_refl) as [Ht Hdrop].
  rewrite Hdrop, Ht. cbn [Z.eqb Pos.eqb group0 app].
  change (c :: ds ++ 58 :: body) with ((c :: ds) ++ [58] ++ body).
  rewrite app_assoc. change ((c :: ds) ++ [58]) with (c :: ds ++ [58]).
  rewrite skipn_app, skipn_all, Nat.sub_diag. reflexivity.
Qed.

Lemma match_spec_String_shape (source : bytes) i pos :
  match_spec (StringTokenSpec "String") source i pos = Ok None \/
  exists t, match_spec (StringTokenSpec "String") source i pos = Ok (Some t)
            /\ token_shape t.
Proof.
  cbn [match_spec]. rewrite re_match_preamble. unfold slice.
  destruct (skipn i source) as [|c s'] eqn:ES; [left; reflexivity|].
  destruct (nonzero_digit c) eqn:Ec; [|left; reflexivity].
  destruct (dropwhile is_digit s') as [|x s2] eqn:Ed; [left; reflexivity|].
  destruct (x =? 58) eqn:Ex; [|left; reflexivity].
  apply Z.eqb_eq in Ex. subst x.
  right. cbn [groups group0 nth].
  set (ds := takewhile is_digit s').
  assert (Hds : forallb is_digit ds = true) by apply forallb_takewhile.
  assert (Hd : forallb is_digit (c :: ds) = true).
  { cbn [forallb]. rewrite (nonzero_is_digit c Ec), Hds. reflexivity. }
  rewrite (py_int_digits c ds Hd). cbn [bind].
  eexists. split; [reflexivity|]. left. cbn [name value].
  split; [reflexivity|].
  exists c, ds, (firstn (Z.to_nat (decimal_value (c :: ds))) s2).
  assert (Hv : firstn
                 (i + List.length (c :: ds ++ [58])
                  + Z.to_nat (decimal_value (c :: ds)) - i) (c :: s')
               = (c :: ds)
                 ++ 58 :: firstn (Z.to_nat (decimal_value (c :: ds))) s2).
  { rewrite <- Nat.add_assoc, Nat.add_comm, Nat.add_sub.
    rewrite <- (takewhile_dropwhile is_digit s'), Ed. fold ds.
    change (c :: ds ++ 58 :: s2) with ((c :: ds) ++ [58] ++ s2).
    rewrite app_assoc. change ((c :: ds) ++ [58]) with (c :: ds ++ [58]).
    rewrite firstn_app_2. cbn [app]. rewrite <- app_assoc. reflexivity. }
  rewrite Hv. repeat split; try assumption.
  - pose proof (decimal_value_nonneg _ Hd). unfold len.
    rewrite List.length_firstn. lia.
  - unfold _to_string. rewrite (re_sub_digits c ds _ Hd). reflexivity.
Qed.

Lemma match_spec_Number_shape (source : bytes) i pos :
  match_spec (TokenSpec "Number" number_re) source i pos = Ok None \/
  exists t, match_spec (TokenSpec "Number" number_re) source i pos
            = Ok (Some t) /\ token_shape t.
Proof.
  cbn [match_spec]. rewrite re_match_number.
  destruct (skipn i source) as [|c s']; [left; reflexivity|].
  destruct (c =? 48).
  - right. eexists. split; [reflexivity|]. right. left.
    split; [reflexivity|]. left. reflexivity.
  - destruct (nonzero_digit c) eqn:Ec; [|left; reflexivity].
    right. eexists. split; [reflexivity|]. right. left.
    split; [reflexivity|]. right. cbn [value group0].
    do 2 eexists. split; [reflexivity|]. split; [exact Ec|].
    apply forallb_takewhile.
Qed.

Lemma match_spec_Type_shape (source : bytes) i pos :
  match_spec (TokenSpec "Type" type_re) source i pos = Ok None \/
  exists t, match_spec (TokenSpec "Type" type_re) source i pos
            = Ok (Some t) /\ token_shape t.
Proof.
  cbn [match_spec]. unfold type_re. rewrite re_match_class.
  destruct (skipn i source) as [|c s']; [left; reflexivity|].
  destruct (one_of (lit "ild") c) eqn:Ec; [|left; reflexivity].
  right. eexists. split; [reflexivity|]. right. right. left.
  split; [reflexivity|]. exists c. split; [reflexivity | exact Ec].
Qed.

Lemma match_spec_End_shape (source : bytes) i pos :
  match_spec (TokenSpec "End" end_re) source i pos = Ok None \/
  exists t, match_spec (TokenSpec "End" end_re) source i pos
            = Ok (Some t) /\ token_shape t.
Proof.
  cbn [match_spec]. unfold end_re. rewrite re_match_chr.
  destruct (skipn i source) as [|c s']; [left; reflexivity|].
  destruct (c =? 101) eqn:Ec; [|left; reflexivity].
  apply Z.eqb_eq in Ec. subst c.
  right. eexists. split; [reflexivity|]. right. right. right.
  split; reflexivity.
Qed.

(** X7.  Every token that the bencode lexer returns has the shape of its
    rule: a Type token is one of the bytes [i], [l], [d]; an End token is
    [e]; a Number token is 0 or a digit 1-9 followed by digits; a String
    token is such a length above zero, a colon, and a payload of at most
    that many bytes, which is what the grammar extracts from the token,
    whatever bytes the payload holds. *)
Theorem tokenize_token_shapes (source : bytes) (tokens : list Token) :
  tokenize source = Ok tokens -> Forall token_shape tokens.
Proof.
  unfold tokenize, Lexer. apply lexer_loop_Forall. intros i pos t Ht.
  destruct (match_specs_cases token_shape bencode_specs source i pos)
    as [(t' & Ht' & Hshape)|Hr].
  - unfold bencode_specs.
    repeat apply Forall_cons;
      [apply match_spec_String_shape | apply match_spec_Number_shape
      | apply match_spec_Type_shape | apply match_spec_End_shape
      | apply Forall_nil].
  - congruence.
  - congruence.
Qed.

Lemma tokenize_token_shapes_witness :
  Forall token_shape (tokens_at (0, 0) (spell (SStr (lit "1:e")))).
Proof.
  apply (tokenize_token_shapes (lit "3:1:e")). reflexivity.
Defined.
(** ** Further properties: what the decoder accepts and what it rejects *)

(** X8.  Decoding is the meaning of the syntax.  For every piece of bencode
    syntax made of integers without sign, byte strings of at least one byte
    (of any content), lists, and dictionaries keyed by integers or byte
    strings, the lexer and the grammar accept the buffer that spells it:
    [decode_bytes] comes to an end on it, raises no [DecodeError], no
    [NoParseError] and no [TypeError], and an object it returns is the
    object that the syntax stands for.  It does return that object for a
    byte string, and for an integer whose literal [int()] converts. *)
Theorem decode_bytes_spelled (s : syntax) :
  lexable s = true ->
  decode_bytes (render s) <> Diverge /\
  (forall v, decode_bytes (render s) = Ok v -> v = denote s) /\
  (forall cause, decode_bytes (render s) <> Raise (DecodeError cause)) /\
  decode_bytes (render s) <> Raise NoParseError /\
  (forall t, decode_bytes (render s) <> Raise (TypeError t)) /\
  (forall b, s = SStr b -> decode_bytes (render s) = Ok (PyBytes b)) /\
  (forall n, s = SInt n -> (List.length (str_int n) <= 4300)%nat ->
             decode_bytes (render s) = Ok (PyInt n)).
Proof.
  intros H. rewrite (decode_bytes_render s H). split; [discriminate|].
  split; [intros v Hv; injection Hv as <-; reflexivity|].
  split; [discriminate|]. split; [discriminate|]. split; [discriminate|].
  split; [intros b -> | intros n -> _]; reflexivity.
Qed.

Lemma decode_bytes_spelled_witness :
  let s := SList [SInt 7; SDict [(SStr (lit "k"), SList [])]] in
  decode_bytes (render s) <> Diverge /\
  (forall v, decode_bytes (render s) = Ok v -> v = denote s) /\
  (forall cause, decode_bytes (render s) <> Raise (DecodeError cause)) /\
  decode_bytes (render s) <> Raise NoParseError /\
  (forall t, decode_bytes (render s) <> Raise (TypeError t)) /\
  (forall b, s = SStr b -> decode_bytes (render s) = Ok (PyBytes b)) /\
  (forall n, s = SInt n -> (List.length (str_int n) <= 4300)%nat ->
             decode_bytes (render s) = Ok (PyInt n)).
Proof.
  apply (decode_bytes_spelled
           (SList [SInt 7; SDict [(SStr (lit "k"), SList [])]])).
  reflexivity.
Defined.

(** X9.  The round trip on the values without integers and without empty
    byte strings: every object built from byte strings of at least one
    byte, lists, and dicts from pairwise distinct such byte strings is a
    bencode Value; the round trip comes to an end, and the codec has no
    error for it ([EncodeError], [DecodeError], [NoParseError],
    [TypeError]); what decoding its encoding returns is the object itself,
    with the entries of every dict in their order; and a byte string does
    come back. *)
Theorem roundtrip_nonempty (x : object) :
  survives x = true ->
  is_Value x /\
  roundtrip x <> Diverge /\
  (forall v, roundtrip x = Ok v -> v = x) /\
  (forall t, roundtrip x <> Raise (EncodeError t)) /\
  (forall cause, roundtrip x <> Raise (DecodeError cause)) /\
  roundtrip x <> Raise NoParseError /\
  (forall t, roundtrip x <> Raise (TypeError t)) /\
  (forall b, x = PyBytes b -> roundtrip x = Ok x).
Proof.
  intros H. split; [apply survives_is_Value, H|].
  rewrite (roundtrip_survives x H). split; [discriminate|].
  split; [intros v Hv; injection Hv as <-; reflexivity|].
  repeat (split; [discriminate|]). reflexivity.
Qed.

Lemma roundtrip_nonempty_witness :
  let x := PyDict [(PyBytes (lit "b"), PyList [PyBytes (lit "x")]);
                   (PyBytes (lit "a"), PyBytes (lit "y"))] in
  is_Value x /\
  roundtrip x <> Diverge /\
  (forall v, roundtrip x = Ok v -> v = x) /\
  (forall t, roundtrip x <> Raise (EncodeError t)) /\
  (forall cause, roundtrip x <> Raise (DecodeError cause)) /\
  roundtrip x <> Raise NoParseError /\
  (forall t, roundtrip x <> Raise (TypeError t)) /\
  (forall b, x = PyBytes b -> roundtrip x = Ok x).
Proof.
  apply (roundtrip_nonempty
           (PyDict [(PyBytes (lit "b"), PyList [PyBytes (lit "x")]);
                    (PyBytes (lit "a"), PyBytes (lit "y"))])).
  reflexivity.
Defined.

(** X10.  No integer below zero can be decoded: the rule set has no rule for
    the sign, so the buffer [i], the decimal of a negative integer, [e]
    fails with a [DecodeError] whose cause reports the byte [-] at line 0,
    column 1. *)
Theorem decode_bytes_negative (n : Z) :
  n < 0 ->
  decode_bytes (lit "i" ++ str_int n ++ lit "e")
  = Raise (DecodeError (SyntaxError (0, 1) 45)).
Proof.
  intros Hn. unfold str_int.
  assert (E : (n <? 0) = true) by (apply Z.ltb_lt; exact Hn). rewrite E.
  unfold decode_bytes. cbn [app].
  rewrite (tokenize_stray (lit "i") [("Type"%string, lit "i")] 45
             (str_nonneg (- n) ++ lit "e"));
    [reflexivity | apply lexes_Type; reflexivity | reflexivity].
Qed.

Lemma decode_bytes_negative_witness :
  decode_bytes (lit "i" ++ str_int (-42) ++ lit "e")
  = Raise (DecodeError (SyntaxError (0, 1) 45)).
Proof. apply (decode_bytes_negative (-42)). reflexivity. Defined.

Lemma match_specs_zero (source : bytes) i pos (rest : bytes) :
  skipn i source = 48 :: rest ->
  match_specs bencode_specs source i pos = Ok (token_at pos "Number" [48]).
Proof.
  intros Hs. unfold bencode_specs. cbn [match_specs match_spec].
  rewrite re_match_preamble, re_match_number, Hs. reflexivity.
Qed.

Lemma lexes_zero : lexes_to [48] [("Number"%string, [48])].
Proof.
  apply lexes_one; [discriminate|].
  intros source i pos rest Hs. exact (match_specs_zero _ _ _ _ Hs).
Qed.

Lemma lexes_Number_End n :
  0 <= n ->
  lexes_to (str_int n ++ lit "e")
           [("Number"%string, str_int n); ("End"%string, lit "e")].
Proof.
  intros Hn source i rest fuel pos Hs.
  rewrite <- app_assoc in Hs. change (lit "e" ++ rest) with (101 :: rest) in Hs.
  cbn [List.length Nat.add tokens_at endpos app].
  rewrite (lexer_loop_step _ _ _ _ _ "Number" (str_int n) (101 :: rest) Hs
             (str_int_nonempty n) (match_specs_Number _ _ _ _ _ Hn Hs)).
  pose proof (skipn_past _ _ _ _ Hs) as Hs'.
  rewrite (lexer_loop_step _ _ _ _ _ "End" [101] rest Hs'
             ltac:(discriminate) (match_specs_End _ _ _ _ Hs')).
  rewrite bind_assoc, List.length_app, Nat.add_assoc.
  destruct (lexer_loop fuel bencode_specs source _ _); reflexivity.
Qed.

Lemma decode_tokens_at (bs : bytes) sp :
  lexes_to bs sp ->
  decode_bytes bs
  = match decode_tokens (tokens_at (0, 0) sp) with
    | Raise exc =>
        if is_LexerError exc then Raise (DecodeError exc) else Raise exc
    | r => r
    end.
Proof.
  intros H. unfold decode_bytes. rewrite (tokenize_lexes _ _ H). reflexivity.
Qed.

(** X11.  An integer with a leading zero is rejected by the grammar: the
    buffer [i0], any decimal without sign, [e] lexes into two Number tokens
    and fails with the parser's [NoParseError] (not wrapped in a
    [DecodeError]). *)
Theorem decode_bytes_leading_zero (n : Z) :
  0 <= n ->
  decode_bytes (lit "i0" ++ str_int n ++ lit "e") = Raise NoParseError.
Proof.
  intros Hn.
  rewrite (decode_tokens_at _
             ([("Type"%string, lit "i")] ++ [("Number"%string, lit "0")]
              ++ [("Number"%string, str_int n); ("End"%string, lit "e")])).
  - reflexivity.
  - change (lit "i0" ++ str_int n ++ lit "e")
      with (lit "i" ++ lit "0" ++ str_int n ++ lit "e").
    apply lexes_app; [apply lexes_Type; reflexivity|].
    apply lexes_app; [apply lexes_zero | apply lexes_Number_End, Hn].
Qed.

Lemma decode_bytes_leading_zero_witness :
  decode_bytes (lit "i0" ++ str_int 42 ++ lit "e") = Raise NoParseError.
Proof. apply (decode_bytes_leading_zero 42). lia. Defined.

(** X12.  Exactly one value: when a complete value is followed by another
    one, decoding fails with [NoParseError], because the grammar wants the
    end of the tokens after the first value. *)
Theorem decode_bytes_trailing (s1 s2 : syntax) :
  lexable s1 = true -> lexable s2 = true ->
  decode_bytes (render s1 ++ render s2) = Raise NoParseError.
Proof.
  intros H1 H2.
  rewrite (decode_tokens_at _ (spell s1 ++ spell s2))
    by (apply lexes_app; apply lexes_render; assumption).
  unfold decode_tokens, parse, bencode_decl, then_skip.
  rewrite tokens_at_app at 2.
  rewrite (parses_spell s1 H1)
    by (rewrite length_tokens_at, List.length_app; lia).
  cbn [bind fst snd].
  pose proof (spell_nonempty s2) as Hne.
  destruct (spell s2) as [|[n v] sp2]; [cbn in Hne; lia|]. reflexivity.
Qed.

Lemma decode_bytes_trailing_witness :
  decode_bytes (render (SInt 1) ++ render (SStr (lit "a")))
  = Raise NoParseError.
Proof.
  apply (decode_bytes_trailing (SInt 1) (SStr (lit "a"))); reflexivity.
Defined.
(** [many] over the tokens of a sequence, up to tokens that the repeated
    parser does not accept. *)
Lemma many_until {A X : Type} (p : Parser A)
  (sp : X -> list (string * bytes)) (den : X -> A) (l : list X) :
  Forall (fun x => forall pos rest,
              p (tokens_at pos (sp x) ++ rest) = Ok (den x, rest)) l ->
  forall rest, p rest = Raise NoParseError ->
  forall fuel pos,
    (List.length l < fuel)%nat ->
    many fuel p (tokens_at pos (flat_map sp l) ++ rest)
    = Ok (map den l, rest).
Proof.
  intros Hl rest Hrest.
  induction Hl as [|x l Hx _ IH]; intros fuel pos Hfuel.
  - destruct fuel as [|fuel]; [cbn in Hfuel; lia|].
    cbn [flat_map app tokens_at many map]. rewrite Hrest. reflexivity.
  - destruct fuel as [|fuel]; [cbn in Hfuel; lia|].
    cbn [flat_map many map List.length] in *.
    rewrite tokens_at_app, <- app_assoc, Hx.
    rewrite IH by lia. reflexivity.
Qed.

Lemma Value_nil fuel : Value (S fuel) [] = Raise NoParseError.
Proof. reflexivity. Qed.

(** The tokens of the pairs of a dictionary, and the pairs they stand
    for. *)
Lemma lexes_pairs pairs :
  forallb (fun kv : syntax * syntax => lexable (fst kv) && lexable (snd kv))
    pairs = true ->
  lexes_to
    (flat_map (fun kv : syntax * syntax =>
                 let '(k, v) := kv in render k ++ render v) pairs)
    (flat_map (fun kv : syntax * syntax =>
                 let '(k, v) := kv in spell k ++ spell v) pairs).
Proof.
  intros H. apply lexes_flat_map. rewrite forallb_forall in H.
  rewrite Forall_forall. intros [k v] Hkv. specialize (H _ Hkv).
  cbn [fst snd] in H. apply andb_true_iff in H as [Hk Hv].
  apply lexes_app; apply lexes_render; assumption.
Qed.

Lemma parses_pairs fuel pairs :
  forallb (fun kv : syntax * syntax => lexable (fst kv) && lexable (snd kv))
    pairs = true ->
  (List.length
     (flat_map (fun kv : syntax * syntax =>
                  let '(k, v) := kv in spell k ++ spell v) pairs)
   < fuel)%nat ->
  Forall (fun kv : syntax * syntax =>
            forall pos rest,
              seq (Value fuel) (Value fuel)
                (tokens_at pos (let '(k, v) := kv in spell k ++ spell v)
                 ++ rest)
              = Ok (let '(k, v) := kv in (denote k, denote v), rest)) pairs.
Proof.
  intros H Hfuel. rewrite forallb_forall in H. rewrite Forall_forall.
  intros [k v] Hkv pos rest. specialize (H _ Hkv). cbn [fst snd] in H.
  apply andb_true_iff in H as [Hk Hv].
  pose proof (length_flat_map_In
                (fun kv : syntax * syntax =>
                   let '(k, v) := kv in spell k ++ spell v) pairs (k, v) Hkv)
    as Hlen.
  cbn beta iota in Hlen. rewrite List.length_app in Hlen.
  unfold seq. rewrite tokens_at_app, <- app_assoc.
  rewrite (parses_spell k Hk) by lia. cbn [bind fst snd].
  rewrite (parses_spell v Hv) by lia. reflexivity.
Qed.

Lemma length_pairs_spell (pairs : list (syntax * syntax)) :
  (List.length pairs
   <= List.length
        (flat_map (fun kv : syntax * syntax =>
                     let '(k, v) := kv in spell k ++ spell v) pairs))%nat.
Proof.
  apply length_flat_map_spell. intros [k v] _.
  rewrite List.length_app. pose proof (spell_nonempty k). lia.
Qed.

Lemma Token_eq_Type pos (c d : byte) :
  Token_eq (token_at pos "Type" [c]) (mkToken "Type" [d] None None)
  = (c =? d).
Proof.
  unfold Token_eq. cbn [token_at name value bytes_eqb].
  rewrite andb_true_r. reflexivity.
Qed.

(** X13.  A list or a dictionary that is not closed is rejected by the
    grammar: the buffer [l] followed by complete values, or [d] followed by
    complete pairs, with no closing [e], fails with [NoParseError]. *)
Theorem decode_bytes_unterminated (items : list syntax)
  (pairs : list (syntax * syntax)) :
  forallb lexable items = true ->
  forallb (fun kv : syntax * syntax => lexable (fst kv) && lexable (snd kv))
    pairs = true ->
  decode_bytes (lit "l" ++ flat_map render items) = Raise NoParseError /\
  decode_bytes
    (lit "d"
     ++ flat_map (fun kv : syntax * syntax =>
                    let '(k, v) := kv in render k ++ render v) pairs)
  = Raise NoParseError.
Proof.
  intros Hitems Hpairs. split.
  - rewrite (decode_tokens_at _
               ([("Type"%string, lit "l")] ++ flat_map spell items))
      by (apply lexes_app; [apply lexes_Type; reflexivity
                           | apply lexes_items, Hitems]).
    unfold decode_tokens, parse, bencode_decl, then_skip.
    cbn [app tokens_at List.length]. rewrite length_tokens_at.
    set (fuel := S (List.length (flat_map spell items))).
    cbn [Value]. unfold alt.
    rewrite integer_decl_other, dict_decl_other by reflexivity.
    unfold list_decl, apply, then_skip, skip_then, type_decl, end_decl, a, some.
    change (lit "l") with [108]. rewrite Token_eq_Type. cbn [Z.eqb Pos.eqb].
    cbn [bind fst snd].
    rewrite <- (app_nil_r (tokens_at _ (flat_map spell items))).
    rewrite (many_until (Value fuel) spell denote items).
    + cbn [bind fst snd]. rewrite str_decl_other by reflexivity. reflexivity.
    + rewrite forallb_forall in Hitems. rewrite Forall_forall.
      intros x Hx pos rest. apply (parses_spell x (Hitems x Hx)).
      pose proof (length_flat_map_In spell items x Hx). unfold fuel. lia.
    + apply Value_nil.
    + pose proof (length_flat_map_spell spell items
                    (fun x _ => spell_nonempty x)). unfold fuel. lia.
  - set (sp := fun kv : syntax * syntax =>
                 let '(k, v) := kv in spell k ++ spell v).
    rewrite (decode_tokens_at _
               ([("Type"%string, lit "d")] ++ flat_map sp pairs))
      by (apply lexes_app; [apply lexes_Type; reflexivity
                           | apply lexes_pairs, Hpairs]).
    unfold decode_tokens, parse, bencode_decl, then_skip.
    cbn [app tokens_at List.length]. rewrite length_tokens_at.
    set (fuel := S (List.length (flat_map sp pairs))).
    cbn [Value]. unfold alt.
    rewrite integer_decl_other by reflexivity.
    unfold dict_decl, apply, then_skip, skip_then, type_decl, end_decl, a, some.
    change (lit "d") with [100]. rewrite Token_eq_Type. cbn [Z.eqb Pos.eqb].
    cbn [bind fst snd].
    rewrite <- (app_nil_r (tokens_at _ (flat_map sp pairs))).
    rewrite (many_until (seq (Value fuel) (Value fuel)) sp
               (fun kv : syntax * syntax =>
                  let '(k, v) := kv in (denote k, denote v)) pairs).
    + cbn [bind fst snd].
      change [100] with (lit "d").
      rewrite list_decl_other, str_decl_other by reflexivity. reflexivity.
    + apply parses_pairs; [exact Hpairs | unfold fuel, sp; lia].
    + reflexivity.
    + pose proof (length_pairs_spell pairs). unfold fuel, sp. lia.
Qed.

Lemma decode_bytes_unterminated_witness :
  decode_bytes (lit "l" ++ flat_map render [SInt 1]) = Raise NoParseError /\
  decode_bytes
    (lit "d"
     ++ flat_map (fun kv : syntax * syntax =>
                    let '(k, v) := kv in render k ++ render v)
          [(SStr (lit "a"), SInt 1)])
  = Raise NoParseError.
Proof.
  apply (decode_bytes_unterminated [SInt 1] [(SStr (lit "a"), SInt 1)]);
    reflexivity.
Defined.
Lemma spell_head k :
  exists n v sp, spell k = (n, v) :: sp /\ String.eqb n "End" = false.
Proof. destruct k; cbn [spell]; do 3 eexists; split; reflexivity. Qed.

(** The rule for a dictionary on the tokens of [d], complete pairs, and
    then tokens that are no pair. *)
Lemma dict_decl_pairs fuel pos pairs rest :
  forallb (fun kv : syntax * syntax => lexable (fst kv) && lexable (snd kv))
    pairs = true ->
  (List.length
     (flat_map (fun kv : syntax * syntax =>
                  let '(k, v) := kv in spell k ++ spell v) pairs)
   < fuel)%nat ->
  seq (Value fuel) (Value fuel) rest = Raise NoParseError ->
  dict_decl fuel (Value fuel)
    (token_at pos "Type" (lit "d")
     :: tokens_at (get_new_position (lit "d") pos)
          (flat_map (fun kv : syntax * syntax =>
                       let '(k, v) := kv in spell k ++ spell v) pairs)
        ++ rest)
  = (r2 <- end_decl rest ;;
     v <- _to_dict (map (fun kv : syntax * syntax =>
                           let '(k, v) := kv in (denote k, denote v)) pairs) ;;
     Ok (v, snd r2)).
Proof.
  intros Hpairs Hfuel Hrest.
  unfold dict_decl, apply, then_skip, skip_then, type_decl, a, some.
  change (lit "d") with [100]. rewrite Token_eq_Type. cbn [Z.eqb Pos.eqb].
  cbn [bind fst snd].
  rewrite (many_until (seq (Value fuel) (Value fuel))
             (fun kv : syntax * syntax =>
                let '(k, v) := kv in spell k ++ spell v)
             (fun kv : syntax * syntax =>
                let '(k, v) := kv in (denote k, denote v)) pairs).
  - cbn [bind fst snd]. destruct (end_decl rest) as [[t r]| |]; reflexivity.
  - apply parses_pairs; assumption.
  - exact Hrest.
  - pose proof (length_pairs_spell pairs). lia.
Qed.

(** X14.  A dictionary needs a value for every key: complete pairs followed
    by one more value and the closing [e] are rejected by the grammar with
    [NoParseError]. *)
Theorem decode_bytes_dangling_key (pairs : list (syntax * syntax))
  (k : syntax) :
  forallb (fun kv : syntax * syntax => lexable (fst kv) && lexable (snd kv))
    pairs = true ->
  lexable k = true ->
  decode_bytes
    (lit "d"
     ++ flat_map (fun kv : syntax * syntax =>
                    let '(k, v) := kv in render k ++ render v) pairs
     ++ render k ++ lit "e")
  = Raise NoParseError.
Proof.
  intros Hpairs Hk.
  set (sp := fun kv : syntax * syntax =>
               let '(k, v) := kv in spell k ++ spell v).
  rewrite (decode_tokens_at _
             ([("Type"%string, lit "d")] ++ flat_map sp pairs
              ++ spell k ++ [("End"%string, lit "e")]))
    by (apply lexes_app; [apply lexes_Type; reflexivity|];
        apply lexes_app; [apply lexes_pairs, Hpairs|];
        apply lexes_app; [apply lexes_render, Hk | apply lexes_End]).
  unfold decode_tokens, parse, bencode_decl, then_skip.
  rewrite length_tokens_at.
  cbn [app tokens_at List.length]. rewrite !List.length_app.
  cbn [List.length].
  set (fuel := (List.length (flat_map sp pairs)
                + (List.length (spell k) + 1))%nat).
  rewrite tokens_at_app.
  set (rest := tokens_at _ (spell k ++ [("End"%string, lit "e")])).
  cbn [Value]. unfold alt.
  rewrite integer_decl_other by reflexivity.
  assert (Hseq : seq (Value (S fuel)) (Value (S fuel)) rest
                 = Raise NoParseError).
  { unfold seq, rest. rewrite tokens_at_app.
    rewrite (parses_spell k Hk) by (unfold fuel; lia).
    cbn [bind fst snd tokens_at]. rewrite Value_End. reflexivity. }
  rewrite (dict_decl_pairs (S fuel) _ pairs rest Hpairs);
    [|unfold fuel, sp; lia | exact Hseq].
  assert (Hend : end_decl rest = Raise NoParseError).
  { unfold rest. destruct (spell_head k) as (n & v & sp' & -> & Hn).
    cbn [app tokens_at]. unfold end_decl, a, some, Token_eq.
    cbn [token_at name value]. rewrite Hn. reflexivity. }
  rewrite Hend. cbn [bind].
  rewrite list_decl_other, str_decl_other by reflexivity. reflexivity.
Qed.

Lemma decode_bytes_dangling_key_witness :
  decode_bytes
    (lit "d"
     ++ flat_map (fun kv : syntax * syntax =>
                    let '(k, v) := kv in render k ++ render v)
          [(SStr (lit "a"), SInt 1)]
     ++ render (SStr (lit "b")) ++ lit "e")
  = Raise NoParseError.
Proof.
  apply (decode_bytes_dangling_key [(SStr (lit "a"), SInt 1)] (SStr (lit "b")));
    reflexivity.
Defined.

(** X15.  The entries of a decoded dictionary are in the order of the
    buffer, and that order is not checked: when the keys of the pairs are
    pairwise distinct, whether sorted or not, decoding returns the pairs as
    entries in the order in which they are written. *)
Theorem decode_bytes_dict_order (pairs : list (syntax * syntax)) :
  lexable (SDict pairs) = true ->
  distinct_keys
    (map (fun kv : syntax * syntax =>
            let '(k, v) := kv in (denote k, denote v)) pairs) = true ->
  decode_bytes (render (SDict pairs))
  = Ok (PyDict (map (fun kv : syntax * syntax =>
                       let '(k, v) := kv in (denote k, denote v)) pairs)).
Proof.
  intros Hl Hd. rewrite (decode_bytes_render _ Hl). cbn [denote].
  rewrite (dict_of_distinct _ Hd). reflexivity.
Qed.

Lemma decode_bytes_dict_order_witness :
  decode_bytes (render (SDict [(SStr (lit "z"), SInt 1);
                               (SStr (lit "a"), SInt 2)]))
  = Ok (PyDict (map (fun kv : syntax * syntax =>
                       let '(k, v) := kv in (denote k, denote v))
                  [(SStr (lit "z"), SInt 1); (SStr (lit "a"), SInt 2)])).
Proof.
  apply (decode_bytes_dict_order
           [(SStr (lit "z"), SInt 1); (SStr (lit "a"), SInt 2)]);
    reflexivity.
Defined.

Lemma dict_update_unhashable pairs1 k v pairs2 : forall d,
  Forall (fun kv => hashable (fst kv) = true) pairs1 ->
  hashable k = false ->
  dict_update d (pairs1 ++ (k, v) :: pairs2)
  = Raise (TypeError (type_name_of k)).
Proof.
  induction pairs1 as [|[k1 v1] pairs1 IH]; intros d H1 Hk;
    cbn [app dict_update].
  - rewrite Hk. reflexivity.
  - inversion H1 as [|? ? Hk1 H1']; subst. cbn [fst] in Hk1. rewrite Hk1.
    apply IH; assumption.
Qed.

(** X16.  A dictionary key that is a list or a dictionary makes decoding
    fail with Python's [TypeError] for an object without a hash, named after
    the first such key; it is raised when the dictionary is built, after its
    closing [e], and it is not wrapped in a [DecodeError]. *)
Theorem decode_bytes_unhashable_key (pairs1 pairs2 : list (syntax * syntax))
  (k v : syntax) :
  lexable (SDict pairs1) = true ->
  lexable k = true -> is_scalar k = false -> lexable v = true ->
  forallb (fun kv : syntax * syntax => lexable (fst kv) && lexable (snd kv))
    pairs2 = true ->
  decode_bytes (render (SDict (pairs1 ++ (k, v) :: pairs2)))
  = Raise (TypeError (type_name_of (denote k))).
Proof.
  intros H1 Hk Hsc Hv H2.
  set (pairs := pairs1 ++ (k, v) :: pairs2).
  set (sp := fun kv : syntax * syntax =>
               let '(k, v) := kv in spell k ++ spell v).
  set (den := fun kv : syntax * syntax =>
                let '(k, v) := kv in (denote k, denote v)).
  assert (Hpairs : forallb (fun kv : syntax * syntax =>
                              lexable (fst kv) && lexable (snd kv)) pairs
                   = true).
  { unfold pairs. rewrite forallb_app. cbn [forallb fst snd].
    rewrite Hk, Hv, H2. cbn [andb]. rewrite andb_true_r.
    cbn [lexable] in H1. rewrite forallb_forall in H1 |- *.
    intros [k1 v1] Hin. specialize (H1 _ Hin). cbn [fst snd].
    apply andb_true_iff in H1 as [H1 Hv1]. apply andb_true_iff in H1 as [_ Hk1].
    rewrite Hk1, Hv1. reflexivity. }
  cbn [render].
  rewrite (decode_tokens_at _
             ([("Type"%string, lit "d")] ++ flat_map sp pairs
              ++ [("End"%string, lit "e")]))
    by (apply lexes_app; [apply lexes_Type; reflexivity|];
        apply lexes_app; [apply lexes_pairs, Hpairs | apply lexes_End]).
  unfold decode_tokens, parse, bencode_decl, then_skip.
  rewrite length_tokens_at.
  cbn [app tokens_at List.length]. rewrite List.length_app.
  cbn [List.length].
  rewrite tokens_at_app.
  cbn [Value]. unfold alt.
  rewrite integer_decl_other by reflexivity.
  match goal with
  | |- context [dict_decl ?f _ _] => set (fuel := f)
  end.
  rewrite (dict_decl_pairs fuel _ pairs _ Hpairs); [|unfold fuel, sp; lia|].
  - cbn [tokens_at]. unfold end_decl, a, some.
    rewrite Token_eq_token_at. cbn [bind fst snd].
    unfold _to_dict, _to_list, py_dict, pairs. rewrite map_app. cbn [map].
    rewrite dict_update_unhashable.
    + reflexivity.
    + cbn [lexable] in H1. rewrite forallb_forall in H1.
      rewrite Forall_forall. intros kv Hin.
      apply in_map_iff in Hin as ([k1 v1] & <- & Hin).
      specialize (H1 _ Hin). cbn [fst].
      apply andb_true_iff in H1 as [H1 _]. apply andb_true_iff in H1 as [Hs1 _].
      apply hashable_denote, Hs1.
    + destruct k; cbn in Hsc |- *; congruence.
  - cbn [tokens_at app]. unfold seq, fuel. rewrite Value_End. reflexivity.
Qed.

Lemma decode_bytes_unhashable_key_witness :
  decode_bytes (render (SDict ([(SStr (lit "a"), SInt 1)]
                               ++ (SList [], SInt 2) :: [])))
  = Raise (TypeError (type_name_of (denote (SList [])))).
Proof.
  apply (decode_bytes_unhashable_key [(SStr (lit "a"), SInt 1)] []
           (SList []) (SInt 2)); reflexivity.
Defined.
(** ** Further properties: the encoder *)

Lemma encode_utf8_char_outcome c :
  if is_surrogate c then encode_utf8_char c = Raise UnicodeEncodeError
  else exists b, encode_utf8_char c = Ok b.
Proof.
  unfold encode_utf8_char, is_surrogate.
  destruct (c <? 128) eqn:E1.
  - apply Z.ltb_lt in E1.
    assert (E : (55296 <=? c) = false) by (apply Z.leb_gt; lia).
    rewrite E. cbn [andb]. eauto.
  - destruct (c <? 2048) eqn:E2.
    + apply Z.ltb_lt in E2.
      assert (E : (55296 <=? c) = false) by (apply Z.leb_gt; lia).
      rewrite E. cbn [andb]. eauto.
    + destruct ((55296 <=? c) && (c <=? 57343)); [reflexivity|].
      destruct (c <? 65536); eauto.
Qed.

Lemma encode_utf8_outcome s :
  if forallb (fun c => negb (is_surrogate c)) s
  then exists b, encode_utf8 s = Ok b
  else encode_utf8 s = Raise UnicodeEncodeError.
Proof.
  induction s as [|c s IH]; cbn [forallb encode_utf8]; [eauto|].
  pose proof (encode_utf8_char_outcome c) as Hc.
  destruct (is_surrogate c); cbn [negb andb].
  - rewrite Hc. reflexivity.
  - destruct Hc as (b & ->). cbn [bind].
    destruct (forallb (fun c => negb (is_surrogate c)) s).
    + destruct IH as (r & ->). cbn [bind]. eauto.
    + rewrite IH. reflexivity.
Qed.

(** The interpreter's limits left aside, as [bytes_of_int] leaves them, the
    encoder has an encoding for each of the objects built from bytes, ints
    that are not negative, strs without a lone surrogate, lists and dicts,
    and a failure of its own for every other object. *)
Lemma encode_bytes_cases (x : object) :
  if encodable x then exists b, encode_bytes x = Ok b
  else exists e, encode_bytes x = Raise e /\ encoder_failure e.
Proof.
  induction x as [i|b|s|items IH|entries IH| |t] using object_induction;
    cbn [encodable encode_bytes].
  - unfold bytes_of_int. rewrite Z.leb_antisym.
    destruct (i <? 0); cbn [negb bind]; [|eauto].
    eexists. split; [reflexivity | left; reflexivity].
  - eauto.
  - pose proof (encode_utf8_outcome s) as Hs.
    destruct (forallb (fun c => negb (is_surrogate c)) s).
    + destruct Hs as (b & ->). cbn [bind]. eauto.
    + rewrite Hs. cbn [bind]. eexists. split; [reflexivity|].
      right. left. reflexivity.
  - match goal with
    | |- context [bind ?j _] =>
        assert (E : if forallb encodable items then exists b, j = Ok b
                    else exists e, j = Raise e /\ encoder_failure e)
    end.
    { induction IH as [|x items Hx _ IHitems]; cbn [forallb]; [eauto|].
      destruct (encodable x); cbn [andb].
      - destruct Hx as (b & ->). cbn [bind].
        destruct (forallb encodable items).
        + destruct IHitems as (r & ->). cbn [bind]. eauto.
        + destruct IHitems as (e & -> & He). cbn [bind]. eauto.
      - destruct Hx as (e & -> & He). cbn [bind]. eauto. }
    destruct (forallb encodable items).
    + destruct E as (b & ->). cbn [bind]. eauto.
    + destruct E as (e & -> & He). cbn [bind]. eauto.
  - match goal with
    | |- context [bind ?j _] =>
        assert (E : if forallb
                         (fun kv : object * object =>
                            let '(k, v) := kv in encodable k && encodable v)
                         entries
                    then exists b, j = Ok b
                    else exists e, j = Raise e /\ encoder_failure e)
    end.
    { induction IH as [|[k v] entries [Hk Hv] _ IHentries]; cbn [forallb];
        [eauto|].
      cbn [fst snd] in Hk, Hv.
      destruct (encodable k); cbn [andb].
      - destruct Hk as (bk & ->). cbn [bind].
        destruct (encodable v); cbn [andb].
        + destruct Hv as (bv & ->). cbn [bind].
          destruct (forallb _ entries).
          * destruct IHentries as (r & ->). cbn [bind]. eauto.
          * destruct IHentries as (e & -> & He). cbn [bind]. eauto.
        + destruct Hv as (e & -> & He). cbn [bind]. eauto.
      - destruct Hk as (e & -> & He). cbn [bind]. eauto. }
    destruct (forallb _ entries).
    + destruct E as (b & ->). cbn [bind]. eauto.
    + destruct E as (e & -> & He). cbn [bind]. eauto.
  - eexists. split; [reflexivity|]. right. right. eauto.
  - eexists. split; [reflexivity|]. right. right. eauto.
Qed.

(** X17.  The encoder returns an encoding only for the objects built from
    bytes, ints that are not negative, strs without a lone surrogate, lists
    and dicts; and for such an object it raises none of its own failures
    ([ValueError], [UnicodeEncodeError], [EncodeError]). *)
Theorem encode_bytes_encodable (x : object) :
  (forall b, encode_bytes x = Ok b -> encodable x = true) /\
  (encodable x = true ->
   forall e, encoder_failure e -> encode_bytes x <> Raise e).
Proof.
  pose proof (encode_bytes_cases x) as H.
  destruct (encodable x); split.
  - reflexivity.
  - intros _ e _. destruct H as (b & ->). discriminate.
  - intros b Hb. destruct H as (e & He & _). rewrite He in Hb. discriminate.
  - discriminate.
Qed.

Lemma encode_bytes_encodable_witness :
  encodable (PyList [PyBytes (lit "a"); PyInt 2]) = true /\
  encode_bytes (PyList [PyBytes (lit "a"); PyInt 2]) <> Raise ValueError.
Proof.
  split.
  - apply (proj1 (encode_bytes_encodable
                    (PyList [PyBytes (lit "a"); PyInt 2]))
             (lit "l1:ai" ++ [0; 0] ++ lit "ee")).
    reflexivity.
  - apply (proj2 (encode_bytes_encodable
                    (PyList [PyBytes (lit "a"); PyInt 2]))).
    + reflexivity.
    + left. reflexivity.
Defined.

(** X18.  No Integer survives the round trip.  Where the encoder returns
    an encoding of an int, the int is not negative and the encoding is [i],
    that many zero bytes, [e]; decoding it raises [NoParseError] for 0
    ([b"ie"] has no Number token), and for an int above zero a
    [DecodeError] that reports the byte 0 at line 0, column 1. *)
Theorem roundtrip_Integer (i : Z) :
  (forall v, roundtrip (PyInt i) <> Ok v) /\
  (forall b, encode_bytes (PyInt i) = Ok b ->
     0 <= i /\
     b = lit "i" ++ repeat 0 (Z.to_nat i) ++ lit "e" /\
     decode_bytes b = if i =? 0 then Raise NoParseError
                      else Raise (DecodeError (SyntaxError (0, 1) 0))).
Proof.
  assert (Hd : 0 < i ->
               decode_bytes (lit "i" ++ repeat 0 (Z.to_nat i) ++ lit "e")
               = Raise (DecodeError (SyntaxError (0, 1) 0))).
  { intros Hi. destruct (Z.to_nat i) as [|k] eqn:Ek; [lia|].
    cbn [repeat app]. unfold decode_bytes.
    rewrite (tokenize_stray (lit "i") [("Type"%string, lit "i")] 0
               (repeat 0 k ++ lit "e"));
      [reflexivity | apply lexes_Type; reflexivity | reflexivity]. }
  unfold roundtrip. cbn [encode_bytes]. unfold bytes_of_int.
  destruct (i <? 0) eqn:E1; cbn [bind]; [split; discriminate|].
  apply Z.ltb_ge in E1.
  destruct (i =? 0) eqn:E2.
  - apply Z.eqb_eq in E2. subst i. split; [discriminate|].
    intros b Hb. injection Hb as <-. split; [lia|]. split; reflexivity.
  - apply Z.eqb_neq in E2. rewrite Hd by lia. split; [discriminate|].
    intros b Hb. injection Hb as <-. split; [lia|].
    split; [reflexivity | apply Hd; lia].
Qed.

Lemma roundtrip_Integer_witness :
  0 <= 3 /\
  lit "i" ++ [0; 0; 0] ++ lit "e"
  = lit "i" ++ repeat 0 (Z.to_nat 3) ++ lit "e" /\
  decode_bytes (lit "i" ++ [0; 0; 0] ++ lit "e")
  = if 3 =? 0 then Raise NoParseError
    else Raise (DecodeError (SyntaxError (0, 1) 0)).
Proof.
  apply (proj2 (roundtrip_Integer 3)). reflexivity.
Defined.

(** X19.  A text string comes back as a byte string: when the UTF-8
    encoding of a str has at least one byte, decoding the encoding of the
    str returns that encoding as bytes, not the str. *)
Theorem roundtrip_str (s : list Z) (b : bytes) :
  encode_utf8 s = Ok b -> b <> [] ->
  roundtrip (PyStr s) = Ok (PyBytes b).
Proof.
  intros Hs Hb. unfold roundtrip. cbn [encode_bytes]. rewrite Hs. cbn [bind].
  apply (decode_bytes_render (SStr b)).
  destruct b; [contradiction | reflexivity].
Qed.

Lemma roundtrip_str_witness :
  roundtrip (PyStr (text "spam")) = Ok (PyBytes (lit "spam")).
Proof.
  apply (roundtrip_str (text "spam") (lit "spam"));
    [reflexivity | discriminate].
Defined.
(** ** Further properties: the second tokenizer *)

Lemma lexr_match_spec_token spec (source : list Z) i pos t :
  lexr_match_spec spec source i pos = Some t ->
  name t = lexr_name spec /\
  (exists k, value t = firstn k (skipn i source)) /\
  start t = Some pos /\
  end_ t = Some (get_new_position (value t) pos).
Proof.
  destruct pos as [line character]. unfold lexr_match_spec.
  destruct (re_match (lexr_regex spec) (skipn i source)) as [m|] eqn:E;
    [|discriminate].
  intros H. injection H as <-. cbn [name value start end_].
  split; [reflexivity|]. split; [exact (re_match_span _ _ _ E)|].
  split; reflexivity.
Qed.

Lemma Tokenizer_for_spec specs (source : list Z) : forall i pos,
  exists rest,
    skipn i source
    = List.concat (map value (fst (Tokenizer_for specs source i pos))) ++ rest
    /\
    map name (fst (Tokenizer_for specs source i pos))
    = firstn (List.length (fst (Tokenizer_for specs source i pos)))
        (map lexr_name specs) /\
    located pos (fst (Tokenizer_for specs source i pos)) /\
    lexr_ending specs source pos i
      (fst (Tokenizer_for specs source i pos)) rest
      (snd (Tokenizer_for specs source i pos)).
Proof.
  induction specs as [|spec specs IH]; intros i pos; cbn [Tokenizer_for].
  - exists (skipn i source). cbn [fst snd map List.concat app firstn located].
    split; [reflexivity|]. split; [reflexivity|]. split; [exact I|].
    destruct (i <? List.length source)%nat eqn:Ei.
    + cbn [lexr_ending map List.concat List.length].
      split; [reflexivity|]. split; [symmetry; apply position_after_nil|].
      apply Nat.ltb_lt in Ei.
      destruct (skipn i source) as [|c rest'] eqn:Hs.
      { apply (f_equal (@List.length _)) in Hs.
        rewrite List.length_skipn in Hs. cbn in Hs. lia. }
      rewrite (nth_skipn_cons _ _ _ _ _ Hs). eauto.
    + cbn [lexr_ending List.length]. split; [reflexivity|].
      apply Nat.ltb_ge in Ei. apply skipn_all2, Ei.
  - destruct (lexr_match_spec spec source i pos) as [t|] eqn:Et.
    + destruct (lexr_match_spec_token _ _ _ _ _ Et)
        as (Hn & (k & Hv) & Hs & He).
      rewrite He. cbn [fst snd].
      destruct (IH (i + List.length (value t))%nat
                  (get_new_position (value t) pos))
        as (rest & Hrest & Hnames & Hloc & Hend).
      set (r := Tokenizer_for specs source (i + List.length (value t))
                  (get_new_position (value t) pos)) in *.
      exists rest. split; [|split; [|split]].
      * cbn [map List.concat]. rewrite <- app_assoc, <- Hrest, Hv.
        apply span_then_rest.
      * cbn [map List.length firstn]. rewrite Hn, Hnames. reflexivity.
      * cbn [located]. auto.
      * unfold lexr_ending in *. cbn [map List.concat List.length].
        rewrite List.length_app, position_after_app, Nat.add_assoc.
        destruct (snd r) as [p c| |].
        -- destruct Hend as (Hlen & Hp & Hc). rewrite Hlen. auto.
        -- exact Hend.
        -- destruct Hend as (Hlen & Hr). rewrite Hlen. auto.
    + exists (skipn i source).
      cbn [fst snd map List.concat app firstn located List.length].
      split; [reflexivity|]. split; [reflexivity|]. split; [exact I|].
      cbn [lexr_ending map List.concat List.length nth_error].
      exists spec. split; [reflexivity|].
      rewrite Nat.add_0_r, position_after_nil. exact Et.
Qed.

(** X20.  The second tokenizer ([moln.lexr]) never comes to a normal end on
    a source that is not empty.  It tries every rule once, in the order of
    the rule set, each where the match of the rule before it ended, and
    yields one token per rule, with true positions, up to the first rule
    that does not match, where it ends in [AttributeError]; when all rules
    have matched it ends in [IndexError] if they used up the source, and in
    [LexrSyntaxError], for the next byte at its position, if not. *)
Theorem Tokenizer_never_completes (specs : list LexrSpec) (source : list Z) :
  source <> [] ->
  exists tokens e rest,
    Tokenizer specs source = (tokens, Some e) /\
    source = List.concat (map value tokens) ++ rest /\
    map name tokens = firstn (List.length tokens) (map lexr_name specs) /\
    located (0, 0) tokens /\
    lexr_ending specs source (0, 0) 0 tokens rest e.
Proof.
  intros Hne. unfold Tokenizer.
  destruct source as [|c source]; [contradiction|].
  cbn [List.length Nat.ltb Nat.leb].
  destruct (Tokenizer_for_spec specs (c :: source) 0%nat (0, 0))
    as (rest & Hs & Hn & Hl & He).
  do 3 eexists. split; [reflexivity|]. cbn [skipn] in Hs. eauto.
Qed.

Lemma Tokenizer_never_completes_witness :
  exists tokens e rest,
    Tokenizer [mkLexrSpec "Number" number_re] (lit "12")
    = (tokens, Some e) /\
    lit "12" = List.concat (map value tokens) ++ rest /\
    map name tokens
    = firstn (List.length tokens)
        (map lexr_name [mkLexrSpec "Number" number_re]) /\
    located (0, 0) tokens /\
    lexr_ending [mkLexrSpec "Number" number_re] (lit "12") (0, 0) 0
      tokens rest e.
Proof.
  apply (Tokenizer_never_completes [mkLexrSpec "Number" number_re] (lit "12")).
  discriminate.
Defined.
(** ** Further properties: what the decoder returns *)

Lemma many_Forall {A : Type} (Q : A -> Prop) (p : Parser A) fuel :
  forall tokens,
    (forall tokens', (List.length tokens' <= List.length tokens)%nat ->
                     Forall literal_ok tokens' ->
                     advances tokens' (p tokens') /\
                     forall v rest, p tokens' = Ok (v, rest) -> Q v) ->
    Forall literal_ok tokens ->
    forall vs rest, many fuel p tokens = Ok (vs, rest) -> Forall Q vs.
Proof.
  induction fuel as [|fuel IH]; intros tokens Hp Hlit vs rest;
    cbn [many]; [discriminate|].
  destruct (Hp tokens (Nat.le_refl _) Hlit) as [Hadv HQ].
  destruct (p tokens) as [[v r]|e|] eqn:Ep; cbn [advances] in Hadv.
  - destruct Hadv as [Hlen Hr].
    destruct (many fuel p r) as [[vs' r']|e|] eqn:Em; cbn [bind fst snd];
      try discriminate.
    intros H. injection H as <- <-. constructor; [exact (HQ _ _ eq_refl)|].
    apply (IH r) with (rest := r'); [|exact Hr|exact Em].
    intros tokens' Hle. apply Hp. lia.
  - destruct e; try discriminate. intros H. injection H as <- <-.
    constructor.
  - contradiction.
Qed.

Lemma dict_setitem_Forall (P : object -> Prop) (R : object -> Prop) d k v :
  Forall (fun kv => P (fst kv) /\ R (snd kv)) d -> P k -> R v ->
  Forall (fun kv => P (fst kv) /\ R (snd kv)) (dict_setitem d k v).
Proof.
  intros Hd Hk Hv. induction Hd as [|[k0 v0] d [Hk0 Hv0] Hd' IH];
    cbn [dict_setitem].
  - constructor; [split; assumption | constructor].
  - cbn [fst snd] in *.
    destruct (key_eqb k0 k); constructor; cbn [fst snd]; auto.
Qed.

(** A dict that [dict(pairs)] builds has keys with a hash, pairwise
    distinct, and keeps what holds of the keys and values of the pairs. *)
Lemma dict_update_Forall (P : object -> Prop) (R : object -> Prop) pairs :
  forall d d',
    dict_update d pairs = Ok d' ->
    Forall (fun kv => P (fst kv) /\ R (snd kv)) pairs ->
    Forall (fun kv => (hashable (fst kv) = true /\ P (fst kv)) /\ R (snd kv)) d
    -> distinct_keys d = true ->
    Forall (fun kv => (hashable (fst kv) = true /\ P (fst kv)) /\ R (snd kv)) d'
    /\ distinct_keys d' = true.
Proof.
  induction pairs as [|[k v] pairs IH]; intros d d' Hu Hp Hd Hdist;
    cbn [dict_update] in Hu.
  - injection Hu as <-. split; assumption.
  - destruct (hashable k) eqn:Hk; [|discriminate].
    inversion Hp as [|? ? [HPk HRv] Hp']; subst. cbn [fst snd] in *.
    apply (IH _ _ Hu Hp').
    + apply (dict_setitem_Forall
               (fun k => hashable k = true /\ P k) R); auto.
    + apply distinct_keys_setitem, Hdist.
Qed.

Lemma integer_decl_decoded tokens v rest :
  Forall literal_ok tokens ->
  integer_decl tokens = Ok (v, rest) -> decoded v = true.
Proof.
  intros Hlit.
  unfold integer_decl, apply, then_skip, skip_then, type_decl, end_decl,
    integer, token_type, apply, token_value, a.
  destruct tokens as [|t1 r1]; cbn [some bind fst snd]; [discriminate|].
  destruct (Token_eq t1 _); cbn [bind fst snd]; [|discriminate].
  inversion Hlit as [|? ? _ Hr1]; subst.
  destruct r1 as [|t2 r2]; cbn [some bind fst snd]; [discriminate|].
  destruct (String.eqb (name t2) "Number") eqn:E2; cbn [bind fst snd];
    [|discriminate].
  inversion Hr1 as [|? ? H2 Hr2]; subst.
  destruct r2 as [|t3 r3]; cbn [some bind fst snd]; [discriminate|].
  destruct (Token_eq t3 _); cbn [bind fst snd]; [|discriminate].
  apply String.eqb_eq in E2. destruct (H2 E2) as [Hne Hd].
  unfold _to_int, py_int.
  destruct (value t2) as [|c ds]; [contradiction|].
  rewrite Hd. cbn [bind]. intros H. injection H as <- _.
  cbn [decoded]. apply Z.leb_le, decimal_value_nonneg, Hd.
Qed.

Lemma str_decl_decoded tokens v rest :
  str_decl tokens = Ok (v, rest) -> decoded v = true.
Proof.
  unfold str_decl, token_type, apply, token_value, _to_string.
  destruct tokens as [|t1 r1]; cbn [some bind fst snd]; [discriminate|].
  destruct (String.eqb (name t1) "String"); cbn [bind fst snd];
    [|discriminate].
  intros H. injection H as <- _. reflexivity.
Qed.

Lemma Value_decoded fuel : forall tokens v rest,
  (List.length tokens < fuel)%nat ->
  Forall literal_ok tokens ->
  Value fuel tokens = Ok (v, rest) -> decoded v = true.
Proof.
  induction fuel as [|fuel IH]; intros tokens v rest Hfuel Hlit; [lia|].
  cbn [Value]. intros H.
  apply alt_Ok in H as [H|H]; [exact (integer_decl_decoded _ _ _ Hlit H)|].
  apply alt_Ok in H as [H|H].
  { revert H.
    unfold dict_decl, apply, then_skip, skip_then, type_decl, end_decl, a.
    destruct tokens as [|t1 r1]; cbn [some bind fst snd]; [discriminate|].
    destruct (Token_eq t1 _); cbn [bind fst snd]; [|discriminate].
    inversion Hlit as [|? ? _ Hr1]; subst. cbn [List.length] in Hfuel.
    destruct (many fuel (seq (Value fuel) (Value fuel)) r1)
      as [[pairs r2]|e|] eqn:Em; cbn [bind fst snd]; try discriminate.
    assert (Hpairs : Forall (fun kv => decoded (fst kv) = true /\
                                       decoded (snd kv) = true) pairs).
    { apply (many_Forall _ (seq (Value fuel) (Value fuel)) fuel r1)
        with (rest := r2); [|exact Hr1|exact Em].
      intros tokens' Hle Hlit'. split.
      - apply seq_advances.
        + apply Value_advances; [lia | exact Hlit'].
        + intros tokens'' Hle' Hlit''. apply Value_advances; [lia|exact Hlit''].
      - intros [k w] rest'. unfold seq.
        assert (Hft : (List.length tokens' < fuel)%nat) by lia.
        pose proof (Value_advances fuel tokens' Hft Hlit') as Hadv.
        destruct (Value fuel tokens') as [[k' rk]|e|] eqn:Ek;
          cbn [bind fst snd advances] in *; try discriminate.
        destruct Hadv as [Hlen Hrk].
        destruct (Value fuel rk) as [[w' rw]|e|] eqn:Ew;
          cbn [bind fst snd]; try discriminate.
        intros Heq. injection Heq as <- <- _.
        split; [apply (IH tokens' k' rk); [lia | exact Hlit' | exact Ek]
               | apply (IH rk w' rw); [lia | exact Hrk | exact Ew]]. }
    destruct r2 as [|t2 r3]; cbn [some bind]; [discriminate|].
    destruct (Token_eq t2 _); cbn [bind fst snd]; [|discriminate].
    unfold _to_dict, _to_list, py_dict.
    destruct (dict_update [] pairs) as [d| |] eqn:Ed; cbn [bind];
      try discriminate.
    intros Heq. injection Heq as <- _.
    destruct (dict_update_Forall (fun k => decoded k = true)
                (fun w => decoded w = true) pairs [] d Ed Hpairs
                (Forall_nil _) eq_refl) as [Hall Hdist].
    cbn [decoded]. rewrite Hdist, andb_true_r.
    apply forallb_forall. intros [k w] Hin.
    rewrite Forall_forall in Hall. destruct (Hall _ Hin) as [[Hh Hk] Hw].
    cbn [fst snd] in *. rewrite Hh, Hk, Hw. reflexivity. }
  apply alt_Ok in H as [H|H]; [|exact (str_decl_decoded _ _ _ H)].
  revert H.
  unfold list_decl, apply, then_skip, skip_then, type_decl, end_decl, a.
  destruct tokens as [|t1 r1]; cbn [some bind fst snd]; [discriminate|].
  destruct (Token_eq t1 _); cbn [bind fst snd]; [|discriminate].
  inversion Hlit as [|? ? _ Hr1]; subst. cbn [List.length] in Hfuel.
  destruct (many fuel (Value fuel) r1) as [[items r2]|e|] eqn:Em;
    cbn [bind fst snd]; try discriminate.
  assert (Hitems : Forall (fun x => decoded x = true) items).
  { apply (many_Forall _ (Value fuel) fuel r1) with (rest := r2);
      [|exact Hr1|exact Em].
    intros tokens' Hle Hlit'. split.
    - apply Value_advances; [lia | exact Hlit'].
    - intros x rest'. apply IH; [lia | exact Hlit']. }
  destruct r2 as [|t2 r3]; cbn [some bind]; [discriminate|].
  destruct (Token_eq t2 _); cbn [bind fst snd]; [|discriminate].
  intros Heq. injection Heq as <- _. cbn [decoded _to_list].
  apply forallb_forall. rewrite Forall_forall in Hitems. exact Hitems.
Qed.

(** X21.  Whatever the buffer, an object that the decoder returns is built
    from ints that are not negative, bytes, lists and dicts only, and every
    dict in it has ints or bytes as keys, no key twice. *)
Theorem decode_bytes_decoded (source : bytes) (v : object) :
  decode_bytes source = Ok v -> decoded v = true.
Proof.
  unfold decode_bytes.
  destruct (tokenize_total source) as [(tokens & Ht & Hlit)|(p & c & Ht)];
    rewrite Ht; cbn [bind is_LexerError]; [|discriminate].
  unfold decode_tokens, parse, bencode_decl, then_skip.
  destruct (Value (S (List.length tokens)) tokens) as [[v' rest]|e|] eqn:Ev;
    cbn [bind fst snd].
  - destruct (finished rest) as [[u r]|e|]; cbn [bind fst snd].
    + intros H. injection H as <-.
      apply (Value_decoded (S (List.length tokens)) tokens v' rest);
        [lia | exact Hlit | exact Ev].
    + destruct (is_LexerError e); discriminate.
    + discriminate.
  - destruct (is_LexerError e); discriminate.
  - discriminate.
Qed.

Lemma decode_bytes_decoded_witness :
  decoded (PyDict [(PyInt 1, PyBytes (lit "a"))]) = true.
Proof.
  apply (decode_bytes_decoded (lit "di1e1:ae")). reflexivity.
Defined.

(** X22.  The encoding is unambiguous on the values that survive the round
    trip: two such objects with the same encoding are the same object. *)
Theorem encode_bytes_injective (x y : object) :
  survives x = true -> survives y = true ->
  encode_bytes x = encode_bytes y -> x = y.
Proof.
  intros Hx Hy He.
  pose proof (roundtrip_survives x Hx) as Rx.
  pose proof (roundtrip_survives y Hy) as Ry.
  unfold roundtrip in Rx, Ry. rewrite He, Ry in Rx. congruence.
Qed.

Lemma encode_bytes_injective_witness :
  PyBytes (lit "a") = PyBytes (lit "a").
Proof.
  apply (encode_bytes_injective (PyBytes (lit "a")) (PyBytes (lit "a")));
    reflexivity.
Defined.
